(** * The knowledge base of ChatAlchemy: persistent record cache and local search

    A shallow embedding of
    [ChatAlchemy_Md_Shifatul_Ahsan_Apurba/src/lib/knowledge.ts]:
    the in-memory record cache [cachedData], its chunked copy in
    [localStorage] ([loadCachedData], [saveCachedData]), the ingestion of
    CSV and spreadsheet rows ([processCsvFile], [processExcelFile],
    [processFile], [loadBackendData], [clearData]) and the query engine
    ([extractRowsCommand], [searchKnowledgeBase], [extractSearchTerms],
    [searchLocalData]).

    Conventions of the embedding.
    - A JavaScript string is the list of its UTF-16 code units.
    - A number that counts or indexes is an integer, [NaN] being [None].
      An array length is never rounded by the double that holds it; the
      chunk count read from the store can be any integer, and the loops
      that count up to it take the double [parseInt] gives
      ([iterations]).  The two products with [0.7] and [0.6] are computed
      as binary64 arithmetic computes them ([floorMul]).
    - A cell value is [undefined], [null] or a string; a numeric or boolean
      spreadsheet cell is represented by the text [String(value)] gives,
      which is what every operation of this module looks at.
    - An object is the list of its own enumerable entries in enumeration
      order.
    - Module state ([cachedData], [userUploadedFiles]) and [localStorage]
      are threaded through a state-and-exception monad in which the state
      survives a throw, as it does in JavaScript.  Every [localStorage]
      call may throw; [console.error] and [console.warn] return and are
      left out.
    - A loop that cannot end is followed for [fuel] turns, after which the
      computation is [Running]: it has neither returned nor thrown, and
      the state given with it is the one reached so far.
    - What depends on the engine is a parameter: the depth of call stack
      left ([stack]), the largest number of arguments a call can take
      ([maxArguments]) and the Unicode case mapping ([toLowerCase]).
    - PapaParse, SheetJS, lz-string, [JSON] and [fetch] are libraries
      outside the repository: the rows they deliver are inputs, and a
      compressed chunk is represented by the array it decodes to.
    - The functions are [async] where the source has them so; a rejected
      promise is a throw. *)

From Stdlib Require Import ZArith NArith List Lia Decimal DecimalN String Ascii.
From stdpp Require Import base option list gmap.
Import ListNotations.

(** ** JavaScript strings and numbers *)

Module JS.

Abbreviation jstring := (list N).

(** An ASCII literal as a JavaScript string. *)
Definition js (s : string) : jstring :=
  List.map N_of_ascii (list_ascii_of_string s).

Definition isDigit (c : N) : bool := (48 <=? c)%N && (c <=? 57)%N.

(** [WhiteSpace] and [LineTerminator] of ECMAScript: what [\s] matches and
    what [parseInt] skips. *)
Definition isWhiteSpace (c : N) : bool :=
  ((9 <=? c)%N && (c <=? 13)%N)
  || (c =? 32)%N || (c =? 160)%N || (c =? 5760)%N
  || ((8192 <=? c)%N && (c <=? 8202)%N)
  || (c =? 8232)%N || (c =? 8233)%N || (c =? 8239)%N || (c =? 8287)%N
  || (c =? 12288)%N || (c =? 65279)%N.

(** The lower case of an ASCII letter, every other code unit being left
    as it is: the case folding under which a regular expression with the
    [i] flag (and without [u]) compares an ASCII letter of its pattern. *)
Definition lowerUnit (c : N) : N :=
  if (65 <=? c)%N && (c <=? 90)%N then (c + 32)%N else c.

Definition lowerASCII (s : jstring) : jstring := List.map lowerUnit s.

Definition jstring_eqb (a b : jstring) : bool := bool_decide (a = b).

(** [Number.prototype.toString] on a non-negative integer. *)
Fixpoint uint_units (d : Decimal.uint) : jstring :=
  match d with
  | Nil => []
  | D0 d => 48%N :: uint_units d
  | D1 d => 49%N :: uint_units d
  | D2 d => 50%N :: uint_units d
  | D3 d => 51%N :: uint_units d
  | D4 d => 52%N :: uint_units d
  | D5 d => 53%N :: uint_units d
  | D6 d => 54%N :: uint_units d
  | D7 d => 55%N :: uint_units d
  | D8 d => 56%N :: uint_units d
  | D9 d => 57%N :: uint_units d
  end.

Definition toString (n : nat) : jstring := uint_units (N.to_uint (N.of_nat n)).

(** The longest prefix of decimal digits, as a decimal numeral. *)
Fixpoint units_uint (s : jstring) : Decimal.uint :=
  match s with
  | [] => Nil
  | c :: s' =>
      if (c =? 48)%N then D0 (units_uint s') else
      if (c =? 49)%N then D1 (units_uint s') else
      if (c =? 50)%N then D2 (units_uint s') else
      if (c =? 51)%N then D3 (units_uint s') else
      if (c =? 52)%N then D4 (units_uint s') else
      if (c =? 53)%N then D5 (units_uint s') else
      if (c =? 54)%N then D6 (units_uint s') else
      if (c =? 55)%N then D7 (units_uint s') else
      if (c =? 56)%N then D8 (units_uint s') else
      if (c =? 57)%N then D9 (units_uint s') else Nil
  end.

Fixpoint dropWhile {A} (p : A -> bool) (l : list A) : list A :=
  match l with
  | [] => []
  | x :: l' => if p x then dropWhile p l' else l
  end.

Fixpoint takeWhile {A} (p : A -> bool) (l : list A) : list A :=
  match l with
  | [] => []
  | x :: l' => if p x then x :: takeWhile p l' else []
  end.

(** [parseInt(s, 10)]: leading white space is skipped, then an optional
    sign, then the longest run of digits; [None] is [NaN]. *)
Definition parseInt (s : jstring) : option Z :=
  let s1 := dropWhile isWhiteSpace s in
  let '(neg, s2) :=
    match s1 with
    | 45%N :: r => (true, r)
    | 43%N :: r => (false, r)
    | _ => (false, s1)
    end in
  match units_uint s2 with
  | Nil => None
  | d => let v := Z.of_N (N.of_uint d) in Some (if neg then (- v)%Z else v)
  end.

(** [Math.ceil(n / d)] on array lengths.  The quotient of two integers
    below [2^32] is never rounded across an integer by the double
    division, so the result is the exact ceiling. *)
Definition ceilDiv (n d : nat) : nat := (n + (d - 1)) / d.

(** Rounding of an integer to 53 significant bits, ties to even; a
    negative one is sent to 0.  This is the rounding of the integer to the
    nearest double, and of a positive real [m * 2^-53] to the nearest
    double in units of [2^-53]. *)
Definition round53 (m : Z) : Z :=
  if (m <=? 0)%Z then 0%Z else
  let b := Z.log2 m in
  if (b <? 53)%Z then m else
  let sh := (b - 52)%Z in
  let q := Z.shiftr m sh in
  let r := (m - Z.shiftl q sh)%Z in
  let half := Z.shiftl 1 (sh - 1) in
  let q' := if (r <? half)%Z then q
            else if (half <? r)%Z then (q + 1)%Z
            else if Z.even q then q else (q + 1)%Z in
  Z.shiftl q' sh.

(** How [for (let i = 0; i < n; i++)] goes when [n] is what [parseInt]
    read.  [parseInt] gives the double nearest to the integer it read, and
    [i++] on a double stops growing at [2^53]: the loop takes as many
    turns as the double says when that is at most [2^53], none for a
    negative number or [NaN], and does not end otherwise. *)
Inductive loopCount :=
| Finite (n : nat)
| Endless.

Definition iterations (n : option Z) : loopCount :=
  match n with
  | None => Finite 0
  | Some z =>
      let d := round53 z in
      if (d <=? 2 ^ 53)%Z then Finite (Z.to_nat d) else Endless
  end.

(** The value of [i] in turn [k] (from 0) of a loop that does not end. *)
Definition loopIndex (k : nat) : nat :=
  if (Z.of_nat k <? 2 ^ 53)%Z then k else Z.to_nat (2 ^ 53).

(** The binary64 constants [0.7] and [0.6], in units of [2^-53]. *)
Definition double_0_7 : Z := 6305039478318694%Z.
Definition double_0_6 : Z := 5404319552844595%Z.

(** [Math.floor(n * c)] for an array length [n] and a double [c * 2^-53]:
    the product is exact in the reals, rounded once, then floored. *)
Definition floorMul (n : nat) (c : Z) : nat :=
  Z.to_nat (Z.shiftr (round53 (Z.of_nat n * c)) 53).

(** A JavaScript number that is an integer or [NaN], as an integer
    ([ToIntegerOrInfinity] sends [NaN] to [0]). *)
Definition toInteger (n : option Z) : Z := default 0%Z n.

(** A relative index of [Array.prototype.slice] made absolute: a negative
    one counts from the end, and both are clamped to the array. *)
Definition absIndex (len : nat) (rel : Z) : nat :=
  if (rel <? 0)%Z then Z.to_nat (Z.max (Z.of_nat len + rel) 0)
  else Nat.min (Z.to_nat rel) len.

(** [a.slice(start, end)]; [end_ = None] is a call without [end].  Minus
    zero is the integer zero here as it is for [slice]. *)
Definition Array_slice {A} (start : Z) (end_ : option Z) (a : list A) : list A :=
  let k := absIndex (length a) start in
  let final := match end_ with
               | Some e => absIndex (length a) e
               | None => length a
               end in
  take (final - k) (drop k a).

(** [a.join(sep)] on strings. *)
Fixpoint join (sep : jstring) (parts : list jstring) : jstring :=
  match parts with
  | [] => []
  | [p] => p
  | p :: rest => p ++ sep ++ join sep rest
  end.

(** [s.includes(t)]. *)
Fixpoint isPrefix (t s : jstring) : bool :=
  match t, s with
  | [], _ => true
  | _ :: _, [] => false
  | a :: t', b :: s' => (a =? b)%N && isPrefix t' s'
  end.

Fixpoint includes (t s : jstring) : bool :=
  isPrefix t s ||
  match s with
  | [] => false
  | _ :: s' => includes t s'
  end.

(** [[...new Set(xs)]]: the distinct elements in order of first occurrence. *)
Fixpoint distinct {A} `{EqDecision A} (seen xs : list A) : list A :=
  match xs with
  | [] => []
  | x :: xs' =>
      if bool_decide (x ∈ seen) then distinct seen xs'
      else x :: distinct (x :: seen) xs'
  end.

End JS.
Import JS.

(** [String.prototype.toLowerCase].  The Unicode case mapping is outside
    the repository; what this module relies on is stated as two laws: a
    part of a lower-cased string is not changed by lower-casing it, and a
    lower-cased string holds no upper-case ASCII letter. *)
Class StringCase := {
  toLowerCase : jstring -> jstring;
  toLowerCase_part :
    forall s before t after,
      toLowerCase s = before ++ t ++ after -> toLowerCase t = t;
  toLowerCase_no_capital :
    forall s c, c ∈ toLowerCase s -> (65 <=? c)%N && (c <=? 90)%N = false
}.

(** The case mapping of ASCII text, which the examples use. *)
Definition asciiCase : StringCase.
Proof.
  assert (forall c, (65 <=? lowerUnit c)%N && (lowerUnit c <=? 90)%N = false) as Hlow.
  { intros c. unfold lowerUnit.
    destruct ((65 <=? c)%N && (c <=? 90)%N) eqn:E; [| exact E].
    apply andb_true_iff in E as [E1 E2]. apply N.leb_le in E1, E2.
    apply andb_false_iff. right. apply N.leb_gt. lia. }
  refine {| toLowerCase := lowerASCII |}.
  - intros s before t after E.
    assert (Forall (fun c => lowerUnit c = c) (lowerASCII s)) as Hs.
    { unfold lowerASCII. apply Forall_forall. intros c Hc.
      apply list_elem_of_In, in_map_iff in Hc as (c0 & <- & _).
      unfold lowerUnit at 1. rewrite Hlow. reflexivity. }
    rewrite E in Hs. apply Forall_app in Hs as [_ Hs]. apply Forall_app in Hs as [Ht _].
    clear E. unfold lowerASCII. induction Ht as [| c t Hc _ IH]; [reflexivity |].
    simpl. rewrite Hc, IH. reflexivity.
  - intros s c Hc. unfold lowerASCII in Hc.
    apply list_elem_of_In, in_map_iff in Hc as (c0 & <- & _). apply Hlow.
Defined.

(** ** Values, objects and cache entries *)

(** What a property read can give in this module. *)
Inductive value :=
| VUndefined
| VNull
| VStr (s : jstring).

#[global] Instance value_eq_dec : EqDecision value.
Proof. solve_decision. Defined.

(** An object: its own enumerable string-keyed entries, in order. *)
Abbreviation obj := (list (jstring * value)).

(** [o[k]]: [undefined] when the key is absent. *)
Fixpoint getProp (k : jstring) (o : obj) : value :=
  match o with
  | [] => VUndefined
  | (k', v) :: o' => if jstring_eqb k k' then v else getProp k o'
  end.

(** [{...o, k: v}] for one more property: an existing key keeps its place
    and takes the new value, a new key goes last. *)
Fixpoint setProp (k : jstring) (v : value) (o : obj) : obj :=
  match o with
  | [] => [(k, v)]
  | (k', v') :: o' =>
      if jstring_eqb k k' then (k', v) :: o' else (k', v') :: setProp k v o'
  end.

(** An element of [cachedData]: a record, or the [null] a damaged chunk
    can hold, on which every property read throws. *)
Inductive DataEntry :=
| ENull
| ERecord (o : obj).

#[global] Instance DataEntry_eq_dec : EqDecision DataEntry.
Proof. solve_decision. Defined.

(** [value != null && value !== ''] *)
Definition nonEmptyValue (v : value) : bool :=
  match v with
  | VUndefined | VNull => false
  | VStr [] => false
  | VStr _ => true
  end.

(** [String(value)], which is also what a template literal inserts. *)
Definition String_ (v : value) : jstring :=
  match v with
  | VUndefined => js "undefined"
  | VNull => js "null"
  | VStr s => s
  end.

(** [a !== b] where [b] is a string. *)
Definition strictNeStr (v : value) (s : jstring) : bool :=
  match v with
  | VStr t => negb (jstring_eqb t s)
  | _ => true
  end.

(** ** Exceptions, and the monad of the module *)

Inductive exn :=
| StorageError       (* a [localStorage] call threw, e.g. QuotaExceededError *)
| SyntaxError        (* [JSON.parse] of text that is not JSON *)
| TypeError          (* a property read on [null] *)
| RangeError         (* maximum call stack size exceeded *)
| Error (msg : string).

Inductive outcome (A : Type) :=
| Returns (a : A)
| Throws (e : exn).
Arguments Returns {A} a.
Arguments Throws {A} e.

(** How far a computation got: it ended, returning or throwing, or it is
    in a loop that cannot end. *)
Inductive progress (A : Type) :=
| Ended (o : outcome A)
| Running.
Arguments Ended {A} o.
Arguments Running {A}.
Coercion Ended : outcome >-> progress.
Arguments pair {A B}%_type_scope & a b.

(** The keys this module uses in [localStorage]. *)
Inductive key :=
| FILES_KEY
| CHUNK_COUNT_KEY
| CACHE_KEY (i : nat).   (* [`${CACHE_KEY_PREFIX}${i}`] *)

Inductive call :=
| GetItem (k : key)
| SetItem (k : key)
| RemoveItem (k : key).

(** A JSON value as [userUploadedFiles] can come to hold one.  The module
    tells strings from other values ([includes] compares with [===]) and
    arrays from strings from the rest ([includes], [push]); [tag] stands
    for a value that is [null], a number, a boolean or an object, and, as
    an element, for an array too. *)
Inductive jsonItem :=
| IStr (s : jstring)
| IOther (tag : nat).

#[global] Instance jsonItem_eq_dec : EqDecision jsonItem.
Proof. solve_decision. Defined.

Inductive filesValue :=
| FArr (items : list jsonItem)
| FStr (s : jstring)
| FOther (tag : nat).

(** What the string under [FILES_KEY] is to [JSON.parse]. *)
Inductive filesItem :=
| FilesEmpty                    (* the empty string, which is falsy *)
| FilesJson (value : filesValue) (* [JSON.stringify(value)] *)
| FilesBroken.                  (* text on which [JSON.parse] throws *)

(** What the string under a chunk key is to
    [JSON.parse(decompress(...))]: [Packed rs] is
    [compress(JSON.stringify(rs))]; [Unreadable] is any string that is
    empty, does not decompress, does not parse or is not an array. *)
Inductive chunkItem :=
| Packed (rs : list DataEntry)
| Unreadable.

Record Storage := {
  filesItem_ : option filesItem;
  countItem : option jstring;
  chunkItems : gmap nat chunkItem
}.

(** The state: [localStorage], the calls made to it so far (latest first)
    and the two module variables. *)
Record World := {
  localStorage : Storage;
  calls : list call;
  cachedData : list DataEntry;
  userUploadedFiles : filesValue
}.

Definition M (A : Type) : Type := World -> World * progress A.

Definition ret {A} (a : A) : M A := fun w => (w, Returns a).
Definition throw {A} (e : exn) : M A := fun w => (w, Throws e).

Definition stillRunning {A} : M A := fun w => (w, Running).

Definition bind {A B} (m : M A) (f : A -> M B) : M B :=
  fun w =>
    match m w with
    | (w', Ended (Returns a)) => f a w'
    | (w', Ended (Throws e)) => (w', Throws e)
    | (w', Running) => (w', Running)
    end.

(** [try { m } catch (e) { h e }] *)
Definition tryCatch {A} (m : M A) (h : exn -> M A) : M A :=
  fun w =>
    match m w with
    | (w', Ended (Throws e)) => h e w'
    | r => r
    end.

Declare Scope js_scope.
Delimit Scope js_scope with js.
Notation "x <- m ;; k" := (bind m (fun x => k))
  (at level 100, m at next level, right associativity) : js_scope.
Notation "m ;; k" := (bind m (fun _ => k))
  (at level 100, right associativity) : js_scope.
Open Scope js_scope.

Definition gets {A} (f : World -> A) : M A := fun w => (w, Returns (f w)).
Definition modify (f : World -> World) : M unit := fun w => (f w, Returns tt).

Definition setCachedData (d : list DataEntry) (w : World) : World :=
  {| localStorage := localStorage w; calls := calls w;
     cachedData := d; userUploadedFiles := userUploadedFiles w |}.

Definition setUserUploadedFiles (fs : filesValue) (w : World) : World :=
  {| localStorage := localStorage w; calls := calls w;
     cachedData := cachedData w; userUploadedFiles := fs |}.

Definition setStorage (st : Storage) (w : World) : World :=
  {| localStorage := st; calls := calls w;
     cachedData := cachedData w; userUploadedFiles := userUploadedFiles w |}.

Definition logCall (c : call) (w : World) : World :=
  {| localStorage := localStorage w; calls := c :: calls w;
     cachedData := cachedData w; userUploadedFiles := userUploadedFiles w |}.

(** [for (let i = from; i < from + n; i++) body(i)] *)
Fixpoint forRange (from n : nat) (body : nat -> M unit) : M unit :=
  match n with
  | 0 => ret tt
  | S n' => body from ;; forRange (S from) n' body
  end.

(** [for (let i = 0; i < n; i++) body(i)] for a number [n] read from the
    store.  A loop that cannot end is followed for [fuel] turns; it can
    still be left by a throw of its body. *)
Definition forCount (fuel : nat) (n : loopCount) (body : nat -> M unit) : M unit :=
  match n with
  | Finite n => forRange 0 n body
  | Endless => forRange 0 fuel (fun k => body (loopIndex k)) ;; stillRunning
  end.

(** [xs.forEach((x, index) => body(x, index))] *)
Fixpoint forEachFrom {A} (index : nat) (xs : list A) (body : A -> nat -> M unit) : M unit :=
  match xs with
  | [] => ret tt
  | x :: xs' => body x index ;; forEachFrom (S index) xs' body
  end.

Definition forEach {A} (xs : list A) (body : A -> nat -> M unit) : M unit :=
  forEachFrom 0 xs body.

(** [xs.filter(p)] with a callback that may throw. *)
Fixpoint filterM {A} (p : A -> outcome bool) (xs : list A) : outcome (list A) :=
  match xs with
  | [] => Returns []
  | x :: xs' =>
      match p x with
      | Throws e => Throws e
      | Returns b =>
          match filterM p xs' with
          | Throws e => Throws e
          | Returns r => Returns (if b then x :: r else r)
          end
      end
  end.

(** [xs.map(f)] with a callback that may throw. *)
Fixpoint mapM {A B} (f : A -> outcome B) (xs : list A) : outcome (list B) :=
  match xs with
  | [] => Returns []
  | x :: xs' =>
      match f x with
      | Throws e => Throws e
      | Returns y =>
          match mapM f xs' with
          | Throws e => Throws e
          | Returns r => Returns (y :: r)
          end
      end
  end.

Definition lift {A} (o : outcome A) : M A := fun w => (w, o).

(** [entry.source], [entry.content] and the like. *)
Definition readProp (k : jstring) (e : DataEntry) : outcome value :=
  match e with
  | ENull => Throws TypeError
  | ERecord o => Returns (getProp k o)
  end.

(** [Object.entries(entry)] *)
Definition Object_entries (e : DataEntry) : outcome obj :=
  match e with
  | ENull => Throws TypeError
  | ERecord o => Returns o
  end.

(** [Object.keys(entry)] *)
Definition Object_keys (e : DataEntry) : outcome (list jstring) :=
  match e with
  | ENull => Throws TypeError
  | ERecord o => Returns (List.map fst o)
  end.

(** ** Constants *)

Definition MAX_CHUNKS : nat := 40.

Definition k_source : jstring := js "source".
Definition k_content : jstring := js "content".
Definition PharmAlchemy : jstring := js "PharmAlchemy".

(** ** The chunk store: [loadCachedData] and [saveCachedData] *)

Section Persistence.

(** The behaviour of the key-value store: whether a call throws, given the
    calls made before it.  A call that throws leaves the store as it was. *)
Variable fails : list call -> call -> bool.

(** For how many turns a loop that cannot end is followed. *)
Variable fuel : nat.

(** The largest number of arguments a call can take in the engine: a call
    with more throws a [RangeError]. *)
Variable maxArguments : nat.

Context {stringCase : StringCase}.

Definition storageCall (c : call) : M unit :=
  fun w =>
    if fails (calls w) c then (logCall c w, Throws StorageError)
    else (logCall c w, Returns tt).

Definition getItem {A} (k : key) (read : Storage -> A) : M A :=
  storageCall (GetItem k) ;; gets (fun w => read (localStorage w)).

Definition setItem (k : key) (write : Storage -> Storage) : M unit :=
  storageCall (SetItem k) ;;
  modify (fun w => setStorage (write (localStorage w)) w).

Definition removeItem (k : key) (write : Storage -> Storage) : M unit :=
  storageCall (RemoveItem k) ;;
  modify (fun w => setStorage (write (localStorage w)) w).

Definition getItemFiles : M (option filesItem) := getItem FILES_KEY filesItem_.
Definition getItemCount : M (option jstring) := getItem CHUNK_COUNT_KEY countItem.
Definition getItemChunk (i : nat) : M (option chunkItem) :=
  getItem (CACHE_KEY i) (fun st => chunkItems st !! i).

Definition setItemFiles (v : filesItem) : M unit :=
  setItem FILES_KEY (fun st =>
    {| filesItem_ := Some v; countItem := countItem st; chunkItems := chunkItems st |}).

Definition setItemCount (s : jstring) : M unit :=
  setItem CHUNK_COUNT_KEY (fun st =>
    {| filesItem_ := filesItem_ st; countItem := Some s; chunkItems := chunkItems st |}).

Definition setItemChunk (i : nat) (b : chunkItem) : M unit :=
  setItem (CACHE_KEY i) (fun st =>
    {| filesItem_ := filesItem_ st; countItem := countItem st;
       chunkItems := <[i := b]> (chunkItems st) |}).

Definition removeItemChunk (i : nat) : M unit :=
  removeItem (CACHE_KEY i) (fun st =>
    {| filesItem_ := filesItem_ st; countItem := countItem st;
       chunkItems := delete i (chunkItems st) |}).

(** [localStorage.getItem(CHUNK_COUNT_KEY) || '0'] *)
Definition orZero (stored : option jstring) : jstring :=
  match stored with
  | Some (c :: s) => c :: s
  | _ => js "0"
  end.

(** The body of the loop of [loadCachedData], with its own [try]. *)
Definition loadChunk (i : nat) : M unit :=
  tryCatch
    (compressedChunk <- getItemChunk i ;;
     match compressedChunk with
     | Some (Packed parsedChunk) =>
         (* [cachedData.push(...parsedChunk)]: one argument for each entry *)
         if maxArguments <? length parsedChunk then throw RangeError
         else modify (fun w => setCachedData (cachedData w ++ parsedChunk) w)
     | Some Unreadable | None => ret tt
     end)
    (fun chunkError => ret tt).

Definition loadCachedData : M unit :=
  tryCatch
    (savedFiles <- getItemFiles ;;
     match savedFiles with
     | Some (FilesJson value) => modify (setUserUploadedFiles value)
     | Some FilesBroken => throw SyntaxError
     | Some FilesEmpty | None => ret tt
     end ;;
     stored <- getItemCount ;;
     let chunkCount := parseInt (orZero stored) in
     modify (setCachedData []) ;;
     forCount fuel (iterations chunkCount) loadChunk)
    (fun error =>
       modify (setCachedData []) ;;
       modify (setUserUploadedFiles (FArr []))).

(** [for (let i = 0; i < data.length; i += itemsPerChunk)
      chunks.push(data.slice(i, i + itemsPerChunk))].
    The recursion is on [fuel]; [saveCachedData] starts it with
    [data.length], which the loop never uses up (see [chunksFrom_concat]). *)
Fixpoint chunksFrom (fuel i itemsPerChunk : nat) (data : list DataEntry)
  : list (list DataEntry) :=
  if i <? length data then
    match fuel with
    | 0 => []
    | S fuel' =>
        Array_slice (Z.of_nat i) (Some (Z.of_nat (i + itemsPerChunk))) data
          :: chunksFrom fuel' (i + itemsPerChunk) itemsPerChunk data
    end
  else [].

(** The callback of [chunks.forEach] in [saveCachedData]. *)
Definition saveChunk (chunk : list DataEntry) (index : nat) : M unit :=
  tryCatch
    (setItemChunk index (Packed chunk))
    (fun chunkError =>
       let reducedChunk :=
         Array_slice 0 (Some (Z.of_nat (floorMul (length chunk) double_0_7))) chunk in
       setItemChunk index (Packed reducedChunk)).

(** The [try] block of [saveCachedData]. *)
Definition savePass : M unit :=
  files <- gets userUploadedFiles ;;
  setItemFiles (FilesJson files) ;;
  stored <- getItemCount ;;
  let oldChunkCount := parseInt (orZero stored) in
  forCount fuel (iterations oldChunkCount) removeItemChunk ;;
  data <- gets cachedData ;;
  let itemsPerChunk := ceilDiv (length data) MAX_CHUNKS in
  let chunks := chunksFrom (length data) 0 itemsPerChunk data in
  forEach chunks saveChunk ;;
  setItemCount (toString (length chunks)).

(** The [catch] block of [saveCachedData]; [again] is the recursive call. *)
Definition saveRetry (again : M unit) : M unit :=
  tryCatch
    (data <- gets cachedData ;;
     let reducedData :=
       Array_slice (- Z.of_nat (floorMul (length data) double_0_6)) None data in
     modify (setCachedData reducedData) ;;
     again)
    (fun retryError => ret tt).

(** [saveCachedData] calls itself from its [catch] block.  [stack] is the
    number of further nested activations the call stack of the engine can
    hold: one more call throws [RangeError], an exception like any other.
    On a store that keeps throwing, the recursion ends in no other way; on
    a store that stops throwing, the stack plays no part
    (see [saveCachedData_stack_irrelevant]). *)
Fixpoint saveCachedData (stack : nat) : M unit :=
  tryCatch savePass
    (fun error =>
       saveRetry
         match stack with
         | 0 => throw RangeError
         | S stack' => saveCachedData stack'
         end).

(** ** Ingestion *)

(** An uploaded file: its name and the rows the parser (PapaParse with
    [header: true], or [XLSX.utils.sheet_to_json] on the first sheet)
    produces from its content; [None] when reading or parsing fails. *)
Record File := {
  name : jstring;
  rows : option (list obj)
}.

(** [Object.values(row).some(value => value != null && value !== '')] *)
Definition hasValue (row : obj) : bool :=
  existsb (fun kv => nonEmptyValue (snd kv)) row.

(** [Object.entries(row).filter(...).map(([key, value]) => `${key}: ${value}`).join(' | ')] *)
Definition describe (row : obj) : jstring :=
  join (js " | ")
    (List.map (fun kv => fst kv ++ js ": " ++ String_ (snd kv))
       (List.filter (fun kv => nonEmptyValue (snd kv)) row)).

(** [`【${index + 1}:1†source】`] *)
Definition sourceRef (index : nat) : jstring :=
  [12304%N] ++ toString (index + 1) ++ js ":1" ++ [8224%N] ++ js "source" ++ [12305%N].

Definition processExcelFile (file : File) : outcome (list DataEntry) :=
  match rows file with
  | None => Throws (Error "Error processing Excel file")
  | Some [] => Throws (Error "Error processing Excel file")
  | Some jsonData =>
      Returns
        (List.map
           (fun row =>
              ERecord (setProp k_content (VStr (describe row))
                         (setProp k_source (VStr (name file)) row)))
           (List.filter hasValue jsonData))
  end.

(** [processCsvFile(file)]: [file] is an uploaded file, or the name of a
    data set of the backend, whose rows [fetched] are those of the text
    [fetch] returns ([None] when the request or the parse fails). *)
Definition processCsvFile (file : File + jstring) (fetched : option (list obj))
  : outcome (list DataEntry) :=
  let parsed := match file with inl f => rows f | inr _ => fetched end in
  match parsed with
  | None => Throws (Error "Error reading file")
  | Some [] => Throws (Error "No data found in CSV file")
  | Some data =>
      Returns
        (imap
           (fun index row =>
              ERecord
                (setProp k_content (VStr (sourceRef index ++ describe row))
                   (setProp k_source
                      (VStr match file with inl f => name f | inr _ => PharmAlchemy end)
                      row)))
           (List.filter hasValue data))
  end.

(** [file.name.split('.').pop()] *)
Definition lastSegment (s : jstring) : jstring :=
  rev (takeWhile (fun c => negb (c =? 46)%N) (rev s)).

(** [cachedData.filter(entry => entry.source !== s)] *)
Definition withoutSource (s : jstring) (data : list DataEntry) : outcome (list DataEntry) :=
  filterM
    (fun entry =>
       match readProp k_source entry with
       | Throws e => Throws e
       | Returns v => Returns (strictNeStr v s)
       end)
    data.

(** [cachedData.filter(entry => entry.source === s)] *)
Definition withSource (s : jstring) (data : list DataEntry) : outcome (list DataEntry) :=
  filterM
    (fun entry =>
       match readProp k_source entry with
       | Throws e => Throws e
       | Returns v => Returns (negb (strictNeStr v s))
       end)
    data.

Definition processFile (stack : nat) (file : File) : M (list DataEntry) :=
  let fileExtension := toLowerCase (lastSegment (name file)) in
  data <-
    (if jstring_eqb fileExtension (js "xlsx") || jstring_eqb fileExtension (js "xls")
     then lift (processExcelFile file)
     else if jstring_eqb fileExtension (js "csv")
     then lift (processCsvFile (inl file) None)
     else throw (Error "Unsupported file format. Please upload CSV or Excel files.")) ;;
  old <- gets cachedData ;;
  kept <- lift (withoutSource (name file) old) ;;
  modify (setCachedData kept) ;;
  modify (fun w => setCachedData (cachedData w ++ data) w) ;;
  files <- gets userUploadedFiles ;;
  (* [if (!userUploadedFiles.includes(file.name)) userUploadedFiles.push(file.name)] *)
  match files with
  | FArr items =>
      if bool_decide (IStr (name file) ∈ items) then ret tt
      else modify (setUserUploadedFiles (FArr (items ++ [IStr (name file)])))
  | FStr s =>
      (* [includes] is the one of strings; a string has no [push] *)
      if includes (name file) s then ret tt else throw TypeError
  | FOther _ => throw TypeError   (* [includes] is not a function *)
  end ;;
  saveCachedData stack ;;
  ret data.

Definition loadBackendData (stack : nat) (fetched : option (list obj)) : M nat :=
  data <- lift (processCsvFile (inr (js "ttd_drug_disease.csv")) fetched) ;;
  if 0 <? length data then
    old <- gets cachedData ;;
    kept <- lift (withoutSource PharmAlchemy old) ;;
    modify (setCachedData (kept ++ data)) ;;
    saveCachedData stack ;;
    ret (length data)
  else ret 0.

Definition clearData (stack : nat) : M bool :=
  old <- gets cachedData ;;
  pharmAlchemyData <- lift (withSource PharmAlchemy old) ;;
  modify (setCachedData pharmAlchemyData) ;;
  modify (setUserUploadedFiles (FArr [])) ;;
  saveCachedData stack ;;
  ret true.

Definition getLoadedFiles : M filesValue := gets userUploadedFiles.

End Persistence.

(** ** The query engine *)

Inductive rowsType := RowsTop | RowsBottom.

Record SearchDetails := {
  totalRecords : nat;
  searchTerms : list jstring;
  conditions : list (jstring * jstring);
  requestedColumns : list jstring;
  availableColumns : list jstring;
  sources : list value
}.

Record SearchResult := {
  text : value;
  foundInKnowledgeBase : bool;
  searchDetails : SearchDetails
}.

(** *** The four regular expressions of [extractRowsCommand]

    Each matcher returns capture group 1 of the match at the head of the
    string.  Under the [i] flag an ASCII letter of the pattern matches
    exactly its two ASCII cases. *)

Fixpoint matchWord (w s : jstring) : option jstring :=
  match w, s with
  | [], _ => Some s
  | _ :: _, [] => None
  | a :: w', b :: s' =>
      if (lowerUnit a =? lowerUnit b)%N then matchWord w' s' else None
  end.

(** [(?:w1|w2|...)] followed by [k]: the alternatives in order, the next
    one when the rest of the pattern fails. *)
Fixpoint matchAlt (words : list jstring) (s : jstring)
    (k : jstring -> option jstring) : option jstring :=
  match words with
  | [] => None
  | w :: ws =>
      match matchWord w s with
      | Some rest =>
          match k rest with
          | Some c => Some c
          | None => matchAlt ws s k
          end
      | None => matchAlt ws s k
      end
  end.

(** [\s+] followed by [k]: greedy, giving white space back when the rest
    of the pattern fails. *)
Fixpoint spacesThen (s : jstring) (k : jstring -> option jstring) : option jstring :=
  match s with
  | c :: s' =>
      if isWhiteSpace c then
        match spacesThen s' k with
        | Some r => Some r
        | None => k s'
        end
      else None
  | [] => None
  end.

(** [(\d+)] at the end of the pattern: the longest run of digits. *)
Definition digitsCapture (s : jstring) : option jstring :=
  match takeWhile isDigit s with
  | [] => None
  | d => Some d
  end.

(** [(?:w1|w2)\s+(\d+)] at the head of [s]. *)
Definition rangeAt (words : list jstring) (s : jstring) : option jstring :=
  matchAlt words s (fun r => spacesThen r digitsCapture).

(** [(?:show|get|display)\s+(?:w1|w2)\s+(\d+)] at the head of [s]. *)
Definition verbRangeAt (words : list jstring) (s : jstring) : option jstring :=
  matchAlt [js "show"; js "get"; js "display"] s
    (fun r => spacesThen r (rangeAt words)).

(** A pattern without [^]: the leftmost position at which it matches. *)
Fixpoint searchFrom (p : jstring -> option jstring) (s : jstring) : option jstring :=
  match p s with
  | Some c => Some c
  | None =>
      match s with
      | [] => None
      | _ :: s' => searchFrom p s'
      end
  end.

Record pattern := {
  type_ : rowsType;
  regex : jstring -> option jstring
}.

Definition patterns : list pattern :=
  [ {| type_ := RowsTop; regex := searchFrom (verbRangeAt [js "top"; js "first"]) |};
    {| type_ := RowsBottom; regex := searchFrom (verbRangeAt [js "bottom"; js "last"]) |};
    {| type_ := RowsTop; regex := rangeAt [js "top"; js "first"] |};
    {| type_ := RowsBottom; regex := rangeAt [js "bottom"; js "last"] |} ].

(** The loop [for (const pattern of patterns)] over a list of patterns. *)
Fixpoint firstMatch (ps : list pattern) (query : jstring) : option (rowsType * option Z) :=
  match ps with
  | [] => None
  | p :: ps' =>
      match regex p query with
      | Some m1 => Some (type_ p, parseInt m1)
      | None => firstMatch ps' query
      end
  end.

Definition extractRowsCommand (query : jstring) : option (rowsType * option Z) :=
  firstMatch patterns query.

Definition stopWords : list jstring :=
  List.map js
    [ "show"; "list"; "display"; "what"; "where"; "find"; "me"; "the"; "a"; "an";
      "and"; "or"; "but"; "in"; "on"; "at"; "to"; "for"; "of"; "with"; "by";
      "table"; "data"; "information"; "about"; "tell"; "give"; "get"; "search";
      "top"; "bottom"; "first"; "last"; "rows" ]%string.

(** [s.split(/\s+/)] *)
Fixpoint splitSpaces (inSeparator : bool) (current : jstring) (s : jstring) : list jstring :=
  match s with
  | [] => [rev current]
  | c :: s' =>
      if isWhiteSpace c then
        if inSeparator then splitSpaces true current s'
        else rev current :: splitSpaces true [] s'
      else splitSpaces false (c :: current) s'
  end.

(** [s.replace(/[.,?!]/g, ' ')] *)
Definition replacePunctuation (s : jstring) : jstring :=
  List.map
    (fun c => if (c =? 46)%N || (c =? 44)%N || (c =? 63)%N || (c =? 33)%N
              then 32%N else c)
    s.

(** [/^\d+$/.test(term)] *)
Definition allDigits (term : jstring) : bool :=
  match term with
  | [] => false
  | _ => forallb isDigit term
  end.

Section FreeText.

Context {stringCase : StringCase}.

Definition extractSearchTerms (query : jstring) : list jstring :=
  List.filter
    (fun term =>
       (2 <? length term)
       && negb (bool_decide (term ∈ stopWords))
       && negb (allDigits term))
    (splitSpaces false [] (replacePunctuation (toLowerCase query))).

(** [key !== 'content' && key !== 'source'] *)
Definition isColumn (k : jstring) : bool :=
  negb (jstring_eqb k k_content) && negb (jstring_eqb k k_source).

Definition searchLocalData (terms : list jstring) (data : list DataEntry)
  : outcome (list DataEntry) :=
  match terms with
  | [] => Returns []
  | _ =>
      filterM
        (fun entry =>
           match Object_entries entry with
           | Throws e => Throws e
           | Returns entries =>
               let entryText :=
                 join (js " ")
                   (List.map (fun kv => toLowerCase (String_ (snd kv)))
                      (List.filter (fun kv => isColumn (fst kv)) entries)) in
               Returns (existsb (fun term => includes (toLowerCase term) entryText) terms)
           end)
        data
  end.

(** [Object.keys(entry).filter(key => key !== 'content' && key !== 'source')] *)
Definition headersOf (entry : DataEntry) : outcome (list jstring) :=
  match Object_keys entry with
  | Throws e => Throws e
  | Returns keys => Returns (List.filter isColumn keys)
  end.

Definition emptyDetails (terms : list jstring) : SearchDetails :=
  {| totalRecords := 0; searchTerms := terms; conditions := [];
     requestedColumns := []; availableColumns := []; sources := [] |}.

Definition noDataResult : SearchResult :=
  {| text := VStr (js "No data available to display.");
     foundInKnowledgeBase := false;
     searchDetails := emptyDetails [] |}.

Definition noMatchResult (terms : list jstring) : SearchResult :=
  {| text := VStr (js "No matching records found.");
     foundInKnowledgeBase := false;
     searchDetails := emptyDetails terms |}.

Definition errorResult : SearchResult :=
  {| text := VStr (js "An error occurred while searching the knowledge base.");
     foundInKnowledgeBase := false;
     searchDetails := emptyDetails [] |}.

(** The rows a row command selects: [cachedData.slice(0, count)] or
    [cachedData.slice(-count)]. *)
Definition selectRows (t : rowsType) (count : option Z) (data : list DataEntry)
  : list DataEntry :=
  match t with
  | RowsTop => Array_slice 0 (Some (toInteger count)) data
  | RowsBottom => Array_slice (- toInteger count) None data
  end.

(** The result of a row command once [rows] is known. *)
Definition rowsResult (t : rowsType) (rows : list DataEntry) : outcome SearchResult :=
  match rows with
  | [] => Returns noDataResult
  | first :: _ =>
      match headersOf first with
      | Throws e => Throws e
      | Returns headers =>
          match mapM (readProp k_source) rows with
          | Throws e => Throws e
          | Returns srcs =>
              Returns
                {| text :=
                     VStr (js "Showing "
                             ++ match t with RowsTop => js "first" | RowsBottom => js "last" end
                             ++ js " " ++ toString (length rows)
                             ++ js " rows from the dataset.");
                   foundInKnowledgeBase := true;
                   searchDetails :=
                     {| totalRecords := length rows; searchTerms := [];
                        conditions := [];
                        requestedColumns := headers; availableColumns := headers;
                        sources := distinct [] srcs |} |}
          end
      end
  end.

(** The result of a free-text search once the matches are known. *)
Definition matchesResult (terms : list jstring) (relevantEntries : list DataEntry)
  : outcome SearchResult :=
  match relevantEntries with
  | [] => Returns (noMatchResult terms)
  | first :: _ =>
      match headersOf first with
      | Throws e => Throws e
      | Returns headers =>
          match readProp k_content first with
          | Throws e => Throws e
          | Returns content =>
              match mapM (readProp k_source) relevantEntries with
              | Throws e => Throws e
              | Returns srcs =>
                  Returns
                    {| text := content;
                       foundInKnowledgeBase := true;
                       searchDetails :=
                         {| totalRecords := length relevantEntries;
                            searchTerms := terms; conditions := [];
                            requestedColumns := headers; availableColumns := headers;
                            sources := distinct [] srcs |} |}
              end
          end
      end
  end.

(** The [try] block of [searchKnowledgeBase]. *)
Definition searchPass (query : jstring) : M SearchResult :=
  data <- gets cachedData ;;
  match extractRowsCommand query with
  | Some (t, count) => lift (rowsResult t (selectRows t count data))
  | None =>
      let terms := extractSearchTerms query in
      relevantEntries <- lift (searchLocalData terms data) ;;
      lift (matchesResult terms relevantEntries)
  end.

Definition searchKnowledgeBase (query : jstring) : M SearchResult :=
  tryCatch (searchPass query) (fun error => ret errorResult).

End FreeText.

(** ** Vocabulary of the statements *)

(** The chunk count a reader of the store sees, as the loops take it. *)
Definition persistedCount (st : Storage) : loopCount :=
  iterations (parseInt (orZero (countItem st))).

(** An index below a chunk count.  A count whose loop does not end is a
    double above [2^53], which no index passes. *)
Definition below (i : nat) (count : loopCount) : Prop :=
  match count with
  | Finite n => i < n
  | Endless => (Z.of_nat i <= 2 ^ 53)%Z
  end.

(** The number of chunk blobs present in the store. *)
Definition blobsPresent (st : Storage) : nat := size (chunkItems st).

(** No [localStorage] call made after the calls [since] throws. *)
Definition reliableSince (fails : list call -> call -> bool) (since : list call) : Prop :=
  forall l c, fails (l ++ since) c = false.

(** No [getItem] made after the calls [since] throws. *)
Definition readsSucceedSince (fails : list call -> call -> bool) (since : list call) : Prop :=
  forall l k, fails (l ++ since) (GetItem k) = false.

(** No [setItem] made after the calls [since] throws. *)
Definition writesSucceedSince (fails : list call -> call -> bool) (since : list call) : Prop :=
  forall l k, fails (l ++ since) (SetItem k) = false.

(** The partition [saveCachedData] computes for a cache. *)
Definition partition (data : list DataEntry) : list (list DataEntry) :=
  chunksFrom (length data) 0 (ceilDiv (length data) MAX_CHUNKS) data.

(** The chunk keys after the removal loop and after the write loop. *)
Fixpoint deleteRange (from n : nat) (m : gmap nat chunkItem) : gmap nat chunkItem :=
  match n with
  | 0 => m
  | S n' => deleteRange (S from) n' (delete from m)
  end.

(** The chunk keys after [n] turns, from turn [from], of a removal loop
    that does not end. *)
Fixpoint deleteTurns (from n : nat) (m : gmap nat chunkItem) : gmap nat chunkItem :=
  match n with
  | 0 => m
  | S n' => deleteTurns (S from) n' (delete (loopIndex from) m)
  end.

Fixpoint insertChunks (index : nat) (chunks : list (list DataEntry))
    (m : gmap nat chunkItem) : gmap nat chunkItem :=
  match chunks with
  | [] => m
  | c :: cs => insertChunks (S index) cs (<[index := Packed c]> m)
  end.

Definition isRecord (e : DataEntry) : bool :=
  match e with
  | ERecord _ => true
  | ENull => false
  end.

(** [entry.source === f] on an entry of the cache. *)
Definition sourceIs (f : jstring) (e : DataEntry) : bool :=
  match e with
  | ERecord o => negb (strictNeStr (getProp k_source o) f)
  | ENull => false
  end.

(** What lines 210 to 212 of [processFile] make of [userUploadedFiles]
    for a file of name [name], or what they throw. *)
Definition registered (name : jstring) (files : filesValue) : outcome filesValue :=
  match files with
  | FArr items =>
      Returns (FArr (if bool_decide (IStr name ∈ items) then items
                     else items ++ [IStr name]))
  | FStr s => if includes name s then Returns (FStr s) else Throws TypeError
  | FOther _ => Throws TypeError
  end.

(** The state in which [processFile] calls [saveCachedData], [data] being
    the batch of the file. *)
Definition ingested (file : File) (data : list DataEntry) (w : World) : World :=
  {| localStorage := localStorage w;
     calls := calls w;
     cachedData :=
       List.filter (fun e => negb (sourceIs (name file) e)) (cachedData w) ++ data;
     userUploadedFiles :=
       match registered (name file) (userUploadedFiles w) with
       | Returns files => files
       | Throws _ => userUploadedFiles w
       end |}.

(** The first pass of a persist runs to its end: no exception reaches the
    [catch] block of [saveCachedData]. *)
Definition passCompletes (fails : list call -> call -> bool) (fuel : nat)
    (w : World) : Prop :=
  exists w', savePass fails fuel w = (w', Returns tt).

Definition emptyStorage : Storage :=
  {| filesItem_ := None; countItem := None; chunkItems := ∅ |}.

(** A process that has just started: nothing in memory, [st] on disk. *)
Definition freshProcess (st : Storage) (log : list call) : World :=
  {| localStorage := st; calls := log; cachedData := []; userUploadedFiles := FArr [] |}.

(** A record with one column, for the examples. *)
Definition sampleRecord (source : jstring) (n : nat) : DataEntry :=
  ERecord [(js "id", VStr (toString n)); (k_source, VStr source);
           (k_content, VStr (js "id: " ++ toString n))].

Definition sampleCache (source : jstring) (n : nat) : list DataEntry :=
  List.map (sampleRecord source) (seq 0 n).

Definition sampleWorld (data : list DataEntry) : World :=
  {| localStorage := emptyStorage; calls := []; cachedData := data;
     userUploadedFiles := FArr [] |}.

(** A store that has room for two chunks only: every write of a chunk at
    index 2 or more throws. *)
Definition roomForTwo (log : list call) (c : call) : bool :=
  match c with
  | SetItem (CACHE_KEY i) => 2 <=? i
  | _ => false
  end.

Definition neverFails (log : list call) (c : call) : bool := false.

(** A store of which the first read of the chunk count throws, and no
    other call. *)
Definition countReadFailsOnce (log : list call) (c : call) : bool :=
  match c with
  | GetItem CHUNK_COUNT_KEY =>
      negb (existsb
              (fun c' => match c' with GetItem CHUNK_COUNT_KEY => true | _ => false end)
              log)
  | _ => false
  end.

(** A store of which the first write of the chunk of index [i] throws,
    and no other call. *)
Definition chunkWriteFailsOnce (i : nat) (log : list call) (c : call) : bool :=
  match c with
  | SetItem (CACHE_KEY j) =>
      (j =? i)
      && negb (existsb
                 (fun c' => match c' with SetItem (CACHE_KEY j') => j' =? i | _ => false end)
                 log)
  | _ => false
  end.

(** A store that throws at every [removeItem]. *)
Definition removalsFail (log : list call) (c : call) : bool :=
  match c with
  | RemoveItem _ => true
  | _ => false
  end.

(** A store of which every read of the chunk of index [i] throws. *)
Definition chunkReadFails (i : nat) (log : list call) (c : call) : bool :=
  match c with
  | GetItem (CACHE_KEY j) => j =? i
  | _ => false
  end.


(** The store a pass of [saveCachedData] leaves when none of its calls
    throws and the chunk count it finds is [oldCount]. *)
Definition savedStorage (files : filesValue) (data : list DataEntry)
    (oldCount : nat) (st : Storage) : Storage :=
  {| filesItem_ := Some (FilesJson files);
     countItem := Some (toString (length (partition data)));
     chunkItems :=
       insertChunks 0 (partition data)
         (deleteRange 0 oldCount (chunkItems st)) |}.

(** What [saveChunk] leaves under the key of a chunk: the chunk, or the
    reduced chunk of its second attempt. *)
Definition storedAs (chunk stored : list DataEntry) : Prop :=
  stored = chunk
  \/ stored = Array_slice 0 (Some (Z.of_nat (floorMul (length chunk) double_0_7))) chunk.

(** A computation respects a relation between the state before and the
    state after, whether it returns, throws or is still running. *)
Definition respects (R : relation World) {A} (m : M A) : Prop :=
  forall w w' r, m w = (w', r) -> R w w'.

(** The module variables are as before. *)
Definition sameMemory : relation World :=
  fun w w' =>
    cachedData w' = cachedData w /\ userUploadedFiles w' = userUploadedFiles w.

(** [localStorage] is as before. *)
Definition sameStorage : relation World :=
  fun w w' => localStorage w' = localStorage w.

(** Calls were added to the log, all of them in [P]. *)
Definition logged (P : call -> Prop) : relation World :=
  fun w w' => exists l, calls w' = l ++ calls w /\ Forall P l.

(** The cache is a suffix of what it was. *)
Definition cachePruned : relation World :=
  fun w w' => cachedData w' `suffix_of` cachedData w.

(** The calls a restore makes when the store announces [count] chunks. *)
Definition restoreCall (count : loopCount) (c : call) : Prop :=
  match c with
  | GetItem FILES_KEY | GetItem CHUNK_COUNT_KEY => True
  | GetItem (CACHE_KEY i) => below i count
  | _ => False
  end.

(** The store is as before, and the calls added are those of a restore for
    the chunk count the store announces. *)
Definition restoring : relation World :=
  fun w w' =>
    sameStorage w w'
    /\ logged (restoreCall (persistedCount (localStorage w))) w w'.

(** No chunk blob sits at or beyond the chunk count of the store. *)
Definition noStaleChunk (st : Storage) : Prop :=
  forall i, is_Some (chunkItems st !! i) -> below i (persistedCount st).

(** The record [processCsvFile] makes of the [n]-th row [id: n] of an
    uploaded file, for the examples. *)
Definition sampleRecordOf (file : File) (n : nat) : DataEntry :=
  ERecord [(js "id", VStr (toString n)); (k_source, VStr (name file));
           (k_content, VStr (sourceRef n ++ js "id: " ++ toString n))].

(** [entry[k]] on an entry known to be a record. *)
Definition propOf (k : jstring) (e : DataEntry) : value :=
  match e with
  | ERecord o => getProp k o
  | ENull => VUndefined
  end.

(** The column headers of a record: its keys but [content] and [source]. *)
Definition columnsOf (e : DataEntry) : list jstring :=
  match e with
  | ERecord o => List.filter isColumn (List.map fst o)
  | ENull => []
  end.

(** The store stops throwing once [bound] calls have been made to it. *)
Definition quietAfter (fails : list call -> call -> bool) (bound : nat) : Prop :=
  forall l c, bound <= length l -> fails l c = false.

(** The log of calls has not become shorter. *)
Definition logNotShorter : relation World :=
  fun w w' => length (calls w) <= length (calls w').

(** ** Vocabulary of the further properties *)

(** The records of the chunks a restore can read: those below the chunk
    count [count] that hold an array of at most [maxArguments] entries,
    in index order. *)
Definition readableChunks (maxArguments count : nat) (st : Storage) : list DataEntry :=
  flat_map
    (fun i =>
       match chunkItems st !! i with
       | Some (Packed rs) => if maxArguments <? length rs then [] else rs
       | Some Unreadable | None => []
       end)
    (seq 0 count).

Definition isGetItem (c : call) : Prop :=
  match c with
  | GetItem _ => True
  | _ => False
  end.

(** A write of a chunk key stays below [MAX_CHUNKS]. *)
Definition chunkWriteInRange (c : call) : Prop :=
  forall i, c = SetItem (CACHE_KEY i) -> i < MAX_CHUNKS.

(** The chunk count is the one found, or one a persist computed. *)
Definition countWithinBudget : relation World :=
  fun w w' =>
    countItem (localStorage w') = countItem (localStorage w)
    \/ exists k, k <= MAX_CHUNKS /\ countItem (localStorage w') = Some (toString k).

(** The computation ends, by returning or by throwing, from every state. *)
Definition finishes {A} (m : M A) : Prop :=
  forall w w', m w <> (w', Running).

(** The list of file names is as before and a cache that held records
    still holds some. *)
Definition keepsFilesAndSomeRecords : relation World :=
  fun w w' =>
    userUploadedFiles w' = userUploadedFiles w
    /\ (cachedData w <> [] -> cachedData w' <> []).

(** A code unit a search term can hold: no white space, none of [. , ? !]
    and no upper-case ASCII letter. *)
Definition isTermUnit (c : N) : bool :=
  negb (isWhiteSpace c)
  && negb ((c =? 46)%N || (c =? 44)%N || (c =? 63)%N || (c =? 33)%N)
  && negb ((65 <=? c)%N && (c <=? 90)%N).

(** The term occurs in the lower-cased text of one of the columns of the
    entry, [content] and [source] not being columns. *)
Definition termInColumn {stringCase : StringCase} (term : jstring) (e : DataEntry) : bool :=
  match e with
  | ERecord o =>
      existsb
        (fun kv => isColumn (fst kv) && includes term (toLowerCase (String_ (snd kv))))
        o
  | ENull => false
  end.

(** ** The upload handler of the [FileUpload] component

    [handleFileProcess] of [components/FileUpload], the caller of
    [processFile].  What it tells its parent is the value returned here:
    the call of [onError] for a file it refuses, the call of [onError] for
    the error it caught, or the call of [onUploadComplete] with its text.
    The state setters of the component drive the display only. *)

Inductive uploadReport :=
| Refused           (* [onError('Only CSV and Excel files (xlsx, xls) are supported')] *)
| Failed (e : exn)  (* [onError(error.message || ...)] for the error caught *)
| Completed (text : jstring).  (* [onUploadComplete(`${file.name} (${data.length} records)`)] *)

Definition handleFileProcess {stringCase : StringCase} (fails : list call -> call -> bool)
    (fuel stack : nat) (file : File) : M uploadReport :=
  let fileExtension := toLowerCase (lastSegment (name file)) in
  if negb (bool_decide (fileExtension ∈ [js "csv"; js "xlsx"; js "xls"]))
  then ret Refused
  else
    tryCatch
      (data <- processFile fails fuel stack file ;;
       if length data =? 0
       then throw (Error "No valid data found in file")
       else ret (Completed (name file ++ js " (" ++ toString (length data)
                              ++ js " records)")))
      (fun error => ret (Failed error)).
(** * Properties *)

(** ** Strings and numbers *)

Lemma units_uint_uint_units d : units_uint (uint_units d) = d.
Proof. induction d; simpl; congruence. Qed.

Lemma to_uint_not_Nil n : N.to_uint n <> Nil.
Proof.
  intros H. pose proof (DecimalN.Unsigned.of_to n) as Hn.
  rewrite H in Hn. simpl in Hn. subst n. discriminate H.
Qed.

Lemma parseInt_uint_units d :
  d <> Nil -> parseInt (uint_units d) = Some (Z.of_N (N.of_uint d)).
Proof.
  intros Hd. unfold parseInt.
  destruct d; try congruence; simpl; rewrite units_uint_uint_units; reflexivity.
Qed.

Lemma parseInt_toString n : parseInt (toString n) = Some (Z.of_nat n).
Proof.
  unfold toString. rewrite parseInt_uint_units by apply to_uint_not_Nil.
  rewrite DecimalN.Unsigned.of_to. f_equal. lia.
Qed.

Lemma toString_not_empty n : toString n <> [].
Proof.
  unfold toString. pose proof (to_uint_not_Nil (N.of_nat n)) as H.
  destruct (N.to_uint (N.of_nat n)); simpl; congruence.
Qed.

Lemma orZero_toString n : orZero (Some (toString n)) = toString n.
Proof.
  unfold orZero. pose proof (toString_not_empty n).
  destruct (toString n); congruence.
Qed.

(** An integer of at most 53 bits is a double. *)
Lemma round53_small (z : Z) : (0 <= z < 2 ^ 53)%Z -> round53 z = z.
Proof.
  intros Hz. unfold round53.
  destruct (Z.leb_spec z 0); [lia |].
  assert (Z.log2 z < 53)%Z as Hlog by (apply Z.log2_lt_pow2; lia).
  destruct (Z.ltb_spec (Z.log2 z) 53); [reflexivity | lia].
Qed.

Lemma iterations_small (z : Z) :
  (0 <= z < 2 ^ 53)%Z -> iterations (Some z) = Finite (Z.to_nat z).
Proof.
  intros Hz. unfold iterations. cbv zeta. rewrite (round53_small z Hz).
  destruct (Z.leb_spec z (2 ^ 53)); [reflexivity | lia].
Qed.

Lemma iterations_toString n :
  (Z.of_nat n < 2 ^ 53)%Z ->
  iterations (parseInt (orZero (Some (toString n)))) = Finite n.
Proof.
  intros Hn. rewrite orZero_toString, parseInt_toString.
  rewrite iterations_small by lia. f_equal. lia.
Qed.

Example parseInt_examples :
  parseInt (js "12") = Some 12%Z
  /\ parseInt (js "  -7 chunks") = Some (-7)%Z
  /\ parseInt (js "0") = Some 0%Z
  /\ parseInt (js "chunks") = None
  /\ iterations (parseInt (js "-7")) = Finite 0
  /\ iterations (parseInt (js "NaN")) = Finite 0
  /\ iterations (parseInt (js "40")) = Finite 40
  /\ iterations (parseInt (js "99999999999999999999")) = Endless.
Proof. repeat split; reflexivity. Qed.

(** [90 * 0.7] is [62.99999999999999] in double arithmetic, so its floor
    is 62 and not 63; [10 * 0.7] is 7. *)
Example floorMul_examples :
  floorMul 90 double_0_7 = 62
  /\ floorMul 10 double_0_7 = 7
  /\ floorMul 1 double_0_7 = 0
  /\ floorMul 3 double_0_6 = 1
  /\ floorMul 5 double_0_6 = 3.
Proof. repeat split; reflexivity. Qed.

(** ** [Array.prototype.slice] on the index ranges the module uses *)

Lemma absIndex_of_nat len i : absIndex len (Z.of_nat i) = Nat.min i len.
Proof.
  unfold absIndex. destruct (Z.ltb_spec (Z.of_nat i) 0); [lia |].
  rewrite Nat2Z.id. reflexivity.
Qed.

Lemma Array_slice_range {A} (i p : nat) (a : list A) :
  Array_slice (Z.of_nat i) (Some (Z.of_nat (i + p))) a = take p (drop i a).
Proof.
  unfold Array_slice. rewrite !absIndex_of_nat.
  destruct (Nat.le_gt_cases i (length a)) as [Hi | Hi].
  - rewrite (Nat.min_l i) by lia.
    destruct (Nat.le_gt_cases (i + p) (length a)) as [Hp | Hp].
    + rewrite Nat.min_l by lia. f_equal. lia.
    + rewrite Nat.min_r by lia.
      rewrite (take_ge (drop i a) (length a - i)) by (rewrite length_drop; lia).
      rewrite (take_ge (drop i a) p) by (rewrite length_drop; lia).
      reflexivity.
  - rewrite !Nat.min_r by lia.
    rewrite (drop_ge a i) by lia. rewrite drop_all, !take_nil. reflexivity.
Qed.

Lemma Array_slice_first {A} (k : nat) (a : list A) :
  Array_slice 0 (Some (Z.of_nat k)) a = take k a.
Proof. apply (Array_slice_range 0 k a). Qed.

Lemma Array_slice_last {A} (k : nat) (a : list A) :
  Array_slice (- Z.of_nat k) None a =
  match k with
  | 0 => a
  | _ => drop (length a - k) a
  end.
Proof.
  unfold Array_slice, absIndex. destruct k as [| k].
  - simpl. rewrite Nat.sub_0_r. apply take_ge. lia.
  - destruct (Z.ltb_spec (- Z.of_nat (S k)) 0); [| lia].
    replace (Z.to_nat (Z.max (Z.of_nat (length a) + - Z.of_nat (S k)) 0))
      with (length a - S k) by lia.
    apply take_ge. rewrite length_drop. lia.
Qed.

Lemma Array_slice_last_suffix {A} (k : nat) (a : list A) :
  Array_slice (- Z.of_nat k) None a `suffix_of` a.
Proof.
  rewrite Array_slice_last. destruct k; [reflexivity | apply suffix_drop].
Qed.

(** ** The partition of [saveCachedData] *)

Lemma ceilDiv_pos n d : 1 <= n -> 1 <= d -> 1 <= ceilDiv n d.
Proof.
  intros Hn Hd. unfold ceilDiv.
  apply Nat.div_le_lower_bound; lia.
Qed.

Lemma ceilDiv_step n p : 1 <= p -> 1 <= n -> ceilDiv n p = S (ceilDiv (n - p) p).
Proof.
  intros Hp Hn. unfold ceilDiv.
  destruct (Nat.le_gt_cases p n) as [Hle | Hgt].
  - replace (n + (p - 1)) with ((n - p + (p - 1)) + 1 * p) by lia.
    rewrite Nat.div_add by lia. lia.
  - replace (n - p) with 0 by lia. simpl.
    rewrite (Nat.div_small (p - 1)) by lia.
    symmetry. apply Nat.div_unique with (r := n - 1); lia.
Qed.

Lemma ceilDiv_0 p : 1 <= p -> ceilDiv 0 p = 0.
Proof. intros Hp. unfold ceilDiv. simpl. apply Nat.div_small. lia. Qed.

Lemma ceilDiv_upper n d : 1 <= d -> n <= ceilDiv n d * d.
Proof.
  intros Hd. unfold ceilDiv.
  pose proof (Nat.div_mod_eq (n + (d - 1)) d) as E.
  pose proof (Nat.mod_upper_bound (n + (d - 1)) d ltac:(lia)) as U.
  nia.
Qed.

Lemma ceilDiv_le_bound n p b : 1 <= p -> n <= b * p -> ceilDiv n p <= b.
Proof.
  intros Hp Hn. unfold ceilDiv.
  assert (n + (p - 1) < (b + 1) * p) by nia.
  assert ((n + (p - 1)) / p < b + 1) by (apply Nat.Div0.div_lt_upper_bound; lia).
  lia.
Qed.

Section Partition.

Variable data : list DataEntry.
Variable p : nat.
Hypothesis p_pos : 1 <= p.

Lemma chunksFrom_unfold fuel i :
  length data <= fuel + i ->
  chunksFrom fuel i p data =
  if i <? length data
  then take p (drop i data) :: chunksFrom (fuel - 1) (i + p) p data
  else [].
Proof.
  intros Hfuel. destruct fuel as [| fuel]; simpl.
  - destruct (Nat.ltb_spec i (length data)); [lia | reflexivity].
  - rewrite Array_slice_range, Nat.sub_0_r. reflexivity.
Qed.

Lemma chunksFrom_concat fuel i :
  length data <= fuel + i -> concat (chunksFrom fuel i p data) = drop i data.
Proof.
  revert i. induction fuel as [| fuel IH]; intros i Hfuel.
  - simpl. destruct (Nat.ltb_spec i (length data)); [lia |].
    simpl. rewrite drop_ge by lia. reflexivity.
  - simpl. destruct (Nat.ltb_spec i (length data)) as [Hi | Hi].
    + simpl. rewrite Array_slice_range, IH by lia.
      rewrite <- drop_drop. apply take_drop.
    + simpl. rewrite drop_ge by lia. reflexivity.
Qed.

Lemma chunksFrom_length fuel i :
  length data <= fuel + i ->
  length (chunksFrom fuel i p data) = ceilDiv (length data - i) p.
Proof.
  revert i. induction fuel as [| fuel IH]; intros i Hfuel.
  - simpl. destruct (Nat.ltb_spec i (length data)); [lia |].
    replace (length data - i) with 0 by lia. rewrite ceilDiv_0 by lia. reflexivity.
  - simpl. destruct (Nat.ltb_spec i (length data)) as [Hi | Hi].
    + simpl. rewrite IH by lia.
      rewrite (ceilDiv_step (length data - i)) by lia. do 2 f_equal. lia.
    + replace (length data - i) with 0 by lia. rewrite ceilDiv_0 by lia. reflexivity.
Qed.

Lemma chunksFrom_lookup fuel i j chunk :
  length data <= fuel + i ->
  chunksFrom fuel i p data !! j = Some chunk ->
  chunk = take p (drop (i + j * p) data) /\ i + j * p < length data.
Proof.
  revert i j. induction fuel as [| fuel IH]; intros i j Hfuel.
  - simpl. destruct (Nat.ltb_spec i (length data)); [lia | discriminate].
  - simpl. destruct (Nat.ltb_spec i (length data)) as [Hi | Hi]; [| discriminate].
    destruct j as [| j]; simpl.
    + intros [= <-]. rewrite Array_slice_range, Nat.add_0_r. auto.
    + intros Hj. apply IH in Hj; [| lia].
      replace (i + (p + j * p)) with (i + p + j * p) by lia. exact Hj.
Qed.

End Partition.

(** ** Reasoning in the monad *)

#[local] Instance sameMemory_preorder : PreOrder sameMemory.
Proof.
  split.
  - intros w. split; reflexivity.
  - intros w1 w2 w3 [H1 H2] [H3 H4]. split; congruence.
Qed.

#[local] Instance sameStorage_preorder : PreOrder sameStorage.
Proof.
  split.
  - intros w. reflexivity.
  - intros w1 w2 w3 H1 H2. unfold sameStorage in *. congruence.
Qed.

#[local] Instance logged_preorder P : PreOrder (logged P).
Proof.
  split.
  - intros w. exists []. split; [reflexivity | constructor].
  - intros w1 w2 w3 (l1 & E1 & F1) (l2 & E2 & F2).
    exists (l2 ++ l1). split.
    + rewrite E2, E1, app_assoc. reflexivity.
    + apply Forall_app. split; assumption.
Qed.

#[local] Instance cachePruned_preorder : PreOrder cachePruned.
Proof.
  split.
  - intros w. unfold cachePruned. reflexivity.
  - intros w1 w2 w3 H1 H2. unfold cachePruned in *. etransitivity; eassumption.
Qed.

Section Respects.

Context (R : relation World) `{!PreOrder R}.

Lemma respects_ret {A} (a : A) : respects R (ret a).
Proof. intros w w' r [= <- _]. reflexivity. Qed.

Lemma respects_throw {A} e : respects R (@throw A e).
Proof. intros w w' r [= <- _]. reflexivity. Qed.

Lemma respects_gets {A} (f : World -> A) : respects R (gets f).
Proof. intros w w' r [= <- _]. reflexivity. Qed.

Lemma respects_modify f : (forall w, R w (f w)) -> respects R (modify f).
Proof. intros H w w' r [= <- _]. apply H. Qed.

Lemma respects_bind {A B} (m : M A) (f : A -> M B) :
  respects R m -> (forall a, respects R (f a)) -> respects R (bind m f).
Proof.
  intros Hm Hf w w' r. unfold bind.
  destruct (m w) as [w1 [[a | e] |]] eqn:E; intros H.
  - transitivity w1; [eapply Hm | eapply Hf]; eassumption.
  - injection H as <- _. eapply Hm; eassumption.
  - injection H as <- _. eapply Hm; eassumption.
Qed.

Lemma respects_tryCatch {A} (m : M A) (h : exn -> M A) :
  respects R m -> (forall e, respects R (h e)) -> respects R (tryCatch m h).
Proof.
  intros Hm Hh w w' r. unfold tryCatch.
  destruct (m w) as [w1 [[a | e] |]] eqn:E; intros H.
  - injection H as <- _. eapply Hm; eassumption.
  - transitivity w1; [eapply Hm | eapply Hh]; eassumption.
  - injection H as <- _. eapply Hm; eassumption.
Qed.

Lemma respects_forRange from n (body : nat -> M unit) :
  (forall i, respects R (body i)) -> respects R (forRange from n body).
Proof.
  intros Hb. revert from. induction n as [| n IH]; intros from; simpl.
  - apply respects_ret.
  - apply respects_bind; [apply Hb | intros _; apply IH].
Qed.

Lemma respects_stillRunning {A} : respects R (@stillRunning A).
Proof. intros w w' r [= <- _]. reflexivity. Qed.

Lemma respects_forCount fuel n (body : nat -> M unit) :
  (forall i, respects R (body i)) -> respects R (forCount fuel n body).
Proof.
  intros Hb. destruct n as [n |]; unfold forCount.
  - apply respects_forRange. exact Hb.
  - apply respects_bind.
    + apply respects_forRange. intros k. apply Hb.
    + intros _. apply respects_stillRunning.
Qed.

Lemma respects_forEachFrom {A} index (xs : list A) (body : A -> nat -> M unit) :
  (forall x i, respects R (body x i)) -> respects R (forEachFrom index xs body).
Proof.
  intros Hb. revert index. induction xs as [| x xs IH]; intros index; simpl.
  - apply respects_ret.
  - apply respects_bind; [apply Hb | intros _; apply IH].
Qed.

End Respects.

Lemma respects_weaken (R R' : relation World) {A} (m : M A) :
  (forall w w', R w w' -> R' w w') -> respects R m -> respects R' m.
Proof. intros HR Hm w w' r E. apply HR. eapply Hm. exact E. Qed.

(** The frame rules, applied along the structure of a computation;
    [base] closes what is left: the calls to the store and the assignments. *)
Ltac head_of t :=
  lazymatch t with
  | ?f _ => head_of f
  | _ => t
  end.

Ltac frame base :=
  intros; cbv zeta;
  lazymatch goal with
  | |- respects _ (bind _ _) =>
      apply respects_bind; [typeclasses eauto | frame base | frame base]
  | |- respects _ (tryCatch _ _) =>
      apply respects_tryCatch; [typeclasses eauto | frame base | frame base]
  | |- respects _ (forRange _ _ _) =>
      apply respects_forRange; [typeclasses eauto | frame base]
  | |- respects _ (forCount _ _ _) =>
      apply respects_forCount; [typeclasses eauto | frame base]
  | |- respects _ (forEachFrom _ _ _) =>
      apply respects_forEachFrom; [typeclasses eauto | frame base]
  | |- respects _ (ret _) => apply respects_ret; typeclasses eauto
  | |- respects _ (throw _) => apply respects_throw; typeclasses eauto
  | |- respects _ (gets _) => apply respects_gets; typeclasses eauto
  | |- respects _ (modify _) => apply respects_modify; intros; base
  | |- respects _ (storageCall _ _) => base
  | |- respects _ ?m => let h := head_of m in unfold h; frame base
  end.

(** ** What the calls to the store leave untouched *)

Section Frames.

Variable fails : list call -> call -> bool.
Variable fuel maxArguments : nat.
Context {stringCase : StringCase}.

Lemma storageCall_sameMemory c : respects sameMemory (storageCall fails c).
Proof.
  intros w w' r. unfold storageCall.
  destruct (fails (calls w) c); intros [= <- _]; split; reflexivity.
Qed.

Ltac sameMemory_base :=
  first [apply storageCall_sameMemory | split; reflexivity].

Lemma removeItem_sameMemory k write : respects sameMemory (removeItem fails k write).
Proof. frame sameMemory_base. Qed.

(** A pass of [saveCachedData] reads the module variables and never
    assigns them, whether it completes or throws. *)
Lemma savePass_sameMemory : respects sameMemory (savePass fails fuel).
Proof. frame sameMemory_base. Qed.

End Frames.

(** ** Chunk keys after the two loops of a pass *)

Lemma deleteRange_lookup from n (m : gmap nat chunkItem) i :
  deleteRange from n m !! i =
  if bool_decide (from <= i < from + n) then None else m !! i.
Proof.
  revert from m. induction n as [| n IH]; intros from m; simpl.
  - rewrite bool_decide_eq_false_2 by lia. reflexivity.
  - rewrite IH. destruct (decide (i = from)) as [-> | Hne].
    + rewrite lookup_delete_eq.
      rewrite (bool_decide_eq_true_2 (from <= from < from + S n)) by lia.
      destruct (bool_decide _); reflexivity.
    + rewrite lookup_delete_ne by congruence.
      rewrite (bool_decide_ext (S from <= i < S from + n) (from <= i < from + S n)) by lia.
      reflexivity.
Qed.

Lemma insertChunks_lookup_lt index cs (m : gmap nat chunkItem) i :
  i < index -> insertChunks index cs m !! i = m !! i.
Proof.
  revert index m. induction cs as [| c cs IH]; intros index m Hi; simpl.
  - reflexivity.
  - rewrite IH by lia. apply lookup_insert_ne. lia.
Qed.

Lemma insertChunks_lookup_ge index cs (m : gmap nat chunkItem) i :
  index + length cs <= i -> insertChunks index cs m !! i = m !! i.
Proof.
  revert index m. induction cs as [| c cs IH]; intros index m Hi; simpl in *.
  - reflexivity.
  - rewrite IH by lia. apply lookup_insert_ne. lia.
Qed.

Lemma insertChunks_lookup index cs (m : gmap nat chunkItem) j c :
  cs !! j = Some c -> insertChunks index cs m !! (index + j) = Some (Packed c).
Proof.
  revert index m j. induction cs as [| c0 cs IH]; intros index m j Hj.
  - discriminate.
  - destruct j as [| j]; simpl in *.
    + injection Hj as ->. rewrite Nat.add_0_r.
      rewrite insertChunks_lookup_lt by lia. apply lookup_insert_eq.
    + replace (index + S j) with (S index + j) by lia. apply IH. exact Hj.
Qed.

Lemma size_of_initial_segment (m : gmap nat chunkItem) k :
  (forall i, is_Some (m !! i) <-> i < k) -> size m = k.
Proof.
  intros H. rewrite <- size_dom.
  assert (dom m = set_seq 0 k) as ->.
  { apply set_eq. intros i. rewrite elem_of_dom, elem_of_set_seq, H. lia. }
  apply size_set_seq.
Qed.

(** ** A pass in which no call throws *)

Lemma bind_run {A B} (m : M A) (f : A -> M B) w w1 a :
  m w = (w1, Returns a) -> bind m f w = f a w1.
Proof. intros E. unfold bind. rewrite E. reflexivity. Qed.

Lemma bind_inv {A B} (m : M A) (f : A -> M B) w w2 (o : outcome B) :
  bind m f w = (w2, Ended o) ->
  (exists w1 a, m w = (w1, Returns a) /\ f a w1 = (w2, Ended o))
  \/ (exists e, m w = (w2, Throws e) /\ o = Throws e).
Proof.
  unfold bind. destruct (m w) as [w1 [[a | e] |]]; intros H.
  - left. exists w1, a. auto.
  - right. injection H as <- <-. exists e. auto.
  - discriminate H.
Qed.

Lemma bind_cases {A B} (m : M A) (f : A -> M B) w w2 (r : progress B) :
  bind m f w = (w2, r) ->
  (exists w1 a, m w = (w1, Returns a) /\ f a w1 = (w2, r))
  \/ (exists e, m w = (w2, Throws e) /\ r = Throws e)
  \/ (m w = (w2, Running) /\ r = Running).
Proof.
  unfold bind. destruct (m w) as [w1 [[a | e] |]]; intros H.
  - left. exists w1, a. auto.
  - right. left. injection H as <- <-. exists e. auto.
  - right. right. injection H as <- <-. auto.
Qed.

Lemma tryCatch_run {A} (m : M A) h w w1 a :
  m w = (w1, Returns a) -> tryCatch m h w = (w1, Returns a).
Proof. intros E. unfold tryCatch. rewrite E. reflexivity. Qed.

Lemma tryCatch_throws {A} (m : M A) h w w1 e :
  m w = (w1, Throws e) -> tryCatch m h w = h e w1.
Proof. intros E. unfold tryCatch. rewrite E. reflexivity. Qed.

Section Reliable.

Variable fails : list call -> call -> bool.
Variable fuel maxArguments : nat.
Context {stringCase : StringCase}.

Lemma reliableSince_cons since c :
  reliableSince fails since -> reliableSince fails (c :: since).
Proof.
  intros H l c'.
  replace (l ++ c :: since) with ((l ++ [c]) ++ since)
    by (rewrite <- app_assoc; reflexivity).
  apply H.
Qed.

Lemma storageCall_run w c :
  reliableSince fails (calls w) ->
  storageCall fails c w = (logCall c w, Returns tt).
Proof.
  intros H. unfold storageCall.
  pose proof (H [] c) as E. simpl in E. rewrite E. reflexivity.
Qed.

Lemma getItem_run {A} k (read : Storage -> A) w :
  reliableSince fails (calls w) ->
  getItem fails k read w = (logCall (GetItem k) w, Returns (read (localStorage w))).
Proof.
  intros H. unfold getItem.
  rewrite (bind_run _ _ _ _ _ (storageCall_run _ _ H)). reflexivity.
Qed.

Lemma setItem_run k write w :
  reliableSince fails (calls w) ->
  setItem fails k write w =
  (setStorage (write (localStorage w)) (logCall (SetItem k) w), Returns tt).
Proof.
  intros H. unfold setItem.
  rewrite (bind_run _ _ _ _ _ (storageCall_run _ _ H)). reflexivity.
Qed.

Lemma removeItem_run k write w :
  reliableSince fails (calls w) ->
  removeItem fails k write w =
  (setStorage (write (localStorage w)) (logCall (RemoveItem k) w), Returns tt).
Proof.
  intros H. unfold removeItem.
  rewrite (bind_run _ _ _ _ _ (storageCall_run _ _ H)). reflexivity.
Qed.

Lemma removeLoop_run from n w :
  reliableSince fails (calls w) ->
  exists w',
    forRange from n (removeItemChunk fails) w = (w', Returns tt)
    /\ filesItem_ (localStorage w') = filesItem_ (localStorage w)
    /\ countItem (localStorage w') = countItem (localStorage w)
    /\ chunkItems (localStorage w') = deleteRange from n (chunkItems (localStorage w))
    /\ reliableSince fails (calls w').
Proof.
  revert from w. induction n as [| n IH]; intros from w Hrel; simpl.
  - exists w. repeat split; auto.
  - unfold removeItemChunk at 1.
    rewrite (bind_run _ _ _ _ _ (removeItem_run _ _ _ Hrel)).
    edestruct (IH (S from)) as (w' & E & Hf & Hc & Hk & Hr);
      [| exists w'; split; [exact E |]].
    + simpl. apply reliableSince_cons. exact Hrel.
    + rewrite Hf, Hc, Hk. simpl. repeat split; auto.
Qed.

Lemma saveChunk_run chunk index w :
  reliableSince fails (calls w) ->
  saveChunk fails chunk index w =
  (setStorage
     {| filesItem_ := filesItem_ (localStorage w);
        countItem := countItem (localStorage w);
        chunkItems := <[index := Packed chunk]> (chunkItems (localStorage w)) |}
     (logCall (SetItem (CACHE_KEY index)) w),
   Returns tt).
Proof.
  intros H. unfold saveChunk, setItemChunk.
  apply tryCatch_run. apply setItem_run. exact H.
Qed.

Lemma writeLoop_run index chunks w :
  reliableSince fails (calls w) ->
  exists w',
    forEachFrom index chunks (saveChunk fails) w = (w', Returns tt)
    /\ filesItem_ (localStorage w') = filesItem_ (localStorage w)
    /\ countItem (localStorage w') = countItem (localStorage w)
    /\ chunkItems (localStorage w') = insertChunks index chunks (chunkItems (localStorage w))
    /\ reliableSince fails (calls w').
Proof.
  revert index w. induction chunks as [| c cs IH]; intros index w Hrel; simpl.
  - exists w. repeat split; auto.
  - rewrite (bind_run _ _ _ _ _ (saveChunk_run _ _ _ Hrel)).
    edestruct (IH (S index)) as (w' & E & Hf & Hc & Hk & Hr);
      [| exists w'; split; [exact E |]].
    + simpl. apply reliableSince_cons. exact Hrel.
    + rewrite Hf, Hc, Hk. simpl. repeat split; auto.
Qed.

(** The turns of a removal loop that does not end. *)
Lemma removeTurns_run from n w :
  reliableSince fails (calls w) ->
  exists w',
    forRange from n (fun k => removeItemChunk fails (loopIndex k)) w = (w', Returns tt)
    /\ filesItem_ (localStorage w') = filesItem_ (localStorage w)
    /\ countItem (localStorage w') = countItem (localStorage w)
    /\ chunkItems (localStorage w') = deleteTurns from n (chunkItems (localStorage w))
    /\ reliableSince fails (calls w').
Proof.
  revert from w. induction n as [| n IH]; intros from w Hrel; cbn [forRange deleteTurns].
  - exists w. repeat split; auto.
  - unfold removeItemChunk at 1.
    rewrite (bind_run _ _ _ _ _ (removeItem_run _ _ _ Hrel)).
    edestruct (IH (S from)) as (w' & E & Hf & Hc & Hk & Hr);
      [| exists w'; split; [exact E |]].
    + cbn [calls setStorage logCall]. apply reliableSince_cons. exact Hrel.
    + rewrite Hf, Hc, Hk. cbn [localStorage setStorage filesItem_ countItem chunkItems].
      repeat split; auto.
Qed.

(** The start of a pass when no call throws: the list of file names is
    written and the chunk count read. *)
Lemma savePass_start w :
  reliableSince fails (calls w) ->
  let w2 :=
    logCall (GetItem CHUNK_COUNT_KEY)
      (setStorage
         {| filesItem_ := Some (FilesJson (userUploadedFiles w));
            countItem := countItem (localStorage w);
            chunkItems := chunkItems (localStorage w) |}
         (logCall (SetItem FILES_KEY) w)) in
  reliableSince fails (calls w2)
  /\ savePass fails fuel w
     = (forCount fuel (persistedCount (localStorage w)) (removeItemChunk fails) ;;
        data <- gets cachedData ;;
        forEach (partition data) (saveChunk fails) ;;
        setItemCount fails (toString (length (partition data)))) w2.
Proof.
  intros Hrel w2.
  assert (reliableSince fails (calls w2)) as H2
    by (do 2 apply reliableSince_cons; exact Hrel).
  split; [exact H2 |].
  unfold savePass.
  rewrite (bind_run _ _ w w (userUploadedFiles w)) by reflexivity.
  unfold setItemFiles. rewrite (bind_run _ _ _ _ _ (setItem_run _ _ _ Hrel)).
  set (w1 := setStorage _ _).
  assert (reliableSince fails (calls w1)) as H1
    by (apply reliableSince_cons; exact Hrel).
  unfold getItemCount. rewrite (bind_run _ _ _ _ _ (getItem_run _ _ _ H1)).
  reflexivity.
Qed.

(** When no call throws and the chunk count found lets the removal loop
    end, a pass returns, leaves the module variables alone and leaves
    [savedStorage] in the store. *)
Lemma savePass_run w oldCount :
  reliableSince fails (calls w) ->
  persistedCount (localStorage w) = Finite oldCount ->
  exists w',
    savePass fails fuel w = (w', Returns tt)
    /\ localStorage w' =
       savedStorage (userUploadedFiles w) (cachedData w) oldCount (localStorage w)
    /\ sameMemory w w'
    /\ reliableSince fails (calls w').
Proof.
  intros Hrel Hcount.
  assert (exists w', savePass fails fuel w = (w', Returns tt)
            /\ localStorage w' =
               savedStorage (userUploadedFiles w) (cachedData w) oldCount (localStorage w)
            /\ reliableSince fails (calls w')) as (w' & E & Hst & Hr).
  { destruct (savePass_start w Hrel) as [H2 ->]. rewrite Hcount.
    set (w2 := logCall _ _) in *. unfold forCount.
    destruct (removeLoop_run 0 oldCount w2 H2) as (w3 & E3 & Hf3 & Hc3 & Hk3 & H3).
    rewrite (bind_run _ _ _ _ _ E3).
    assert (cachedData w3 = cachedData w) as Hdata.
    { pose proof (respects_forRange sameMemory _ _ _
                    (fun i => removeItem_sameMemory fails _ _) _ _ _ E3) as [Hd _].
      exact Hd. }
    rewrite (bind_run _ _ w3 w3 (cachedData w3)) by reflexivity.
    rewrite Hdata. unfold forEach.
    destruct (writeLoop_run 0 (partition (cachedData w)) w3 H3)
      as (w4 & E4 & Hf4 & Hc4 & Hk4 & H4).
    rewrite (bind_run _ _ _ _ _ E4).
    unfold setItemCount. rewrite (setItem_run _ _ _ H4).
    eexists. split; [reflexivity |]. split.
    - cbn [localStorage setStorage logCall]. unfold savedStorage.
      rewrite Hf4, Hk4, Hf3, Hk3. reflexivity.
    - cbn [calls setStorage logCall]. apply reliableSince_cons. exact H4. }
  exists w'. repeat split; auto; eapply savePass_sameMemory; exact E.
Qed.

(** When no call throws and the chunk count found is one the removal loop
    cannot reach, a pass does not end: after [fuel] turns it has written
    the list of file names and removed chunk keys, and is still running. *)
Lemma savePass_endless w :
  reliableSince fails (calls w) ->
  persistedCount (localStorage w) = Endless ->
  exists w',
    savePass fails fuel w = (w', Running)
    /\ localStorage w' =
       {| filesItem_ := Some (FilesJson (userUploadedFiles w));
          countItem := countItem (localStorage w);
          chunkItems := deleteTurns 0 fuel (chunkItems (localStorage w)) |}
    /\ sameMemory w w'
    /\ reliableSince fails (calls w').
Proof.
  intros Hrel Hcount.
  destruct (savePass_start w Hrel) as [H2 E]. rewrite Hcount in E.
  set (w2 := logCall _ _) in *. unfold forCount in E.
  destruct (removeTurns_run 0 fuel w2 H2) as (w3 & E3 & Hf3 & Hc3 & Hk3 & H3).
  assert (savePass fails fuel w = (w3, Running)) as E'.
  { rewrite E. unfold bind at 1. unfold bind at 1. rewrite E3. reflexivity. }
  exists w3. split; [exact E' |]. split; [| split; [| exact H3]].
  - destruct (localStorage w3) as [f c k]. cbn [filesItem_ countItem chunkItems] in *.
    rewrite Hf3, Hc3, Hk3. reflexivity.
  - eapply savePass_sameMemory. exact E'.
Qed.

(** When no call throws, a pass does not throw. *)
Lemma savePass_reliable w :
  reliableSince fails (calls w) ->
  exists w', savePass fails fuel w = (w', Returns tt)
             \/ savePass fails fuel w = (w', Running).
Proof.
  intros Hrel. destruct (persistedCount (localStorage w)) as [k |] eqn:Hcount.
  - destruct (savePass_run w k Hrel Hcount) as (w' & E & _). exists w'. left. exact E.
  - destruct (savePass_endless w Hrel Hcount) as (w' & E & _). exists w'. right. exact E.
Qed.

(** Then [saveCachedData] is that pass: its [catch] block is not entered. *)
Lemma saveCachedData_run stack w :
  reliableSince fails (calls w) ->
  saveCachedData fails fuel stack w = savePass fails fuel w.
Proof.
  intros Hrel. destruct (savePass_reliable w Hrel) as (w' & [E | E]);
    destruct stack; simpl; unfold tryCatch; rewrite E; reflexivity.
Qed.

End Reliable.

Lemma partition_concat data : concat (partition data) = data.
Proof.
  unfold partition. destruct data as [| x data].
  - reflexivity.
  - rewrite chunksFrom_concat; [reflexivity | | lia].
    apply ceilDiv_pos; unfold MAX_CHUNKS; simpl; lia.
Qed.

Lemma partition_length data :
  length (partition data) =
  ceilDiv (length data) (ceilDiv (length data) MAX_CHUNKS).
Proof.
  unfold partition. destruct data as [| x data].
  - reflexivity.
  - rewrite chunksFrom_length; [f_equal; lia | | lia].
    apply ceilDiv_pos; unfold MAX_CHUNKS; simpl; lia.
Qed.

Lemma partition_bound data : length (partition data) <= MAX_CHUNKS.
Proof.
  rewrite partition_length. destruct data as [| x data].
  - unfold MAX_CHUNKS. simpl. lia.
  - assert (1 <= ceilDiv (length (x :: data)) MAX_CHUNKS)
      by (apply ceilDiv_pos; unfold MAX_CHUNKS; simpl; lia).
    apply ceilDiv_le_bound; [assumption |].
    rewrite Nat.mul_comm.
    pose proof (ceilDiv_upper (length (x :: data)) MAX_CHUNKS) as U.
    unfold MAX_CHUNKS in *. lia.
Qed.

(** ** Restoring what a pass saved *)

Section Restore.

Variable fails : list call -> call -> bool.
Variable fuel maxArguments : nat.
Context {stringCase : StringCase}.

Lemma readsSucceedSince_cons since c :
  readsSucceedSince fails since -> readsSucceedSince fails (c :: since).
Proof.
  intros H l k.
  replace (l ++ c :: since) with ((l ++ [c]) ++ since)
    by (rewrite <- app_assoc; reflexivity).
  apply H.
Qed.

Lemma getItem_read {A} k (read : Storage -> A) w :
  readsSucceedSince fails (calls w) ->
  getItem fails k read w = (logCall (GetItem k) w, Returns (read (localStorage w))).
Proof.
  intros H. unfold getItem, bind, storageCall.
  pose proof (H [] k) as E. simpl in E. rewrite E. reflexivity.
Qed.

Lemma loadChunk_run i w c :
  readsSucceedSince fails (calls w) ->
  chunkItems (localStorage w) !! i = Some (Packed c) ->
  length c <= maxArguments ->
  loadChunk fails maxArguments i w =
  (setCachedData (cachedData w ++ c) (logCall (GetItem (CACHE_KEY i)) w), Returns tt).
Proof.
  intros Hrel Hc Hlen. unfold loadChunk, getItemChunk.
  apply tryCatch_run.
  rewrite (bind_run _ _ _ _ _ (getItem_read _ _ _ Hrel)).
  rewrite Hc. destruct (Nat.ltb_spec maxArguments (length c)); [lia | reflexivity].
Qed.

Lemma loadLoop_run from cs w :
  readsSucceedSince fails (calls w) ->
  (forall j c, cs !! j = Some c ->
               chunkItems (localStorage w) !! (from + j) = Some (Packed c)) ->
  Forall (fun c => length c <= maxArguments) cs ->
  exists w',
    forRange from (length cs) (loadChunk fails maxArguments) w = (w', Returns tt)
    /\ cachedData w' = cachedData w ++ concat cs
    /\ userUploadedFiles w' = userUploadedFiles w
    /\ localStorage w' = localStorage w.
Proof.
  revert from w. induction cs as [| c cs IH]; intros from w Hrel Hcs Hlen; simpl.
  - exists w. rewrite app_nil_r. auto.
  - apply Forall_cons in Hlen as [Hc Hlen].
    rewrite (bind_run _ _ _ _ _ (loadChunk_run from w c Hrel
                                   ltac:(rewrite <- (Nat.add_0_r from); apply Hcs; reflexivity)
                                   Hc)).
    edestruct (IH (S from)) as (w' & E & Hd & Hf & Hst);
      [| | exact Hlen | exists w'; split; [exact E |]].
    + simpl. apply readsSucceedSince_cons. exact Hrel.
    + intros j c' Hj. simpl. rewrite <- Nat.add_succ_r. apply Hcs. exact Hj.
    + rewrite Hd, Hf, Hst. simpl. rewrite <- app_assoc. auto.
Qed.

Lemma loadCachedData_run w names cs :
  readsSucceedSince fails (calls w) ->
  filesItem_ (localStorage w) = Some (FilesJson names) ->
  countItem (localStorage w) = Some (toString (length cs)) ->
  (Z.of_nat (length cs) < 2 ^ 53)%Z ->
  (forall j c, cs !! j = Some c -> chunkItems (localStorage w) !! j = Some (Packed c)) ->
  Forall (fun c => length c <= maxArguments) cs ->
  exists w',
    loadCachedData fails fuel maxArguments w = (w', Returns tt)
    /\ cachedData w' = concat cs
    /\ userUploadedFiles w' = names
    /\ localStorage w' = localStorage w.
Proof.
  intros Hrel Hfiles Hcount Hsmall Hcs Hlen. unfold loadCachedData.
  match goal with
  | |- exists w', tryCatch ?m ?h w = _ /\ _ =>
      assert (exists w', m w = (w', Returns tt)
                /\ cachedData w' = concat cs
                /\ userUploadedFiles w' = names
                /\ localStorage w' = localStorage w) as (w' & E & H)
  end.
  { unfold getItemFiles, getItemCount.
    rewrite (bind_run _ _ _ _ _ (getItem_read _ _ _ Hrel)).
    rewrite Hfiles.
    set (w1 := logCall _ w).
    rewrite (bind_run _ _ w1 (setUserUploadedFiles names w1) tt) by reflexivity.
    set (w2 := setUserUploadedFiles names w1).
    assert (readsSucceedSince fails (calls w2)) as H2
      by (apply readsSucceedSince_cons; exact Hrel).
    rewrite (bind_run _ _ _ _ _ (getItem_read _ _ _ H2)).
    set (w3 := logCall _ w2).
    change (countItem (localStorage w2)) with (countItem (localStorage w)).
    rewrite Hcount, iterations_toString by exact Hsmall.
    rewrite (bind_run _ _ w3 (setCachedData [] w3) tt) by reflexivity.
    unfold forCount.
    destruct (loadLoop_run 0 cs (setCachedData [] w3)) as (w' & E & Hd & Hf & Hst).
    - simpl. do 2 apply readsSucceedSince_cons. exact Hrel.
    - intros j c Hj. simpl. apply Hcs. exact Hj.
    - exact Hlen.
    - exists w'. split; [exact E |]. rewrite Hd, Hf, Hst. auto. }
  exists w'. split; [apply tryCatch_run; exact E | exact H].
Qed.

End Restore.

(** ** A pass that runs to its end *)

Section Completes.

Variable fails : list call -> call -> bool.
Variable fuel : nat.

Lemma setItem_inv k write w w' :
  setItem fails k write w = (w', Returns tt) ->
  w' = setStorage (write (localStorage w)) (logCall (SetItem k) w).
Proof.
  unfold setItem, bind, storageCall, modify.
  destruct (fails (calls w) (SetItem k)); intros [= <-]. reflexivity.
Qed.

Lemma removeItem_inv k write w w' :
  removeItem fails k write w = (w', Returns tt) ->
  w' = setStorage (write (localStorage w)) (logCall (RemoveItem k) w).
Proof.
  unfold removeItem, bind, storageCall, modify.
  destruct (fails (calls w) (RemoveItem k)); intros [= <-]. reflexivity.
Qed.

Lemma getItem_inv {A} k (read : Storage -> A) w w' a :
  getItem fails k read w = (w', Returns a) ->
  w' = logCall (GetItem k) w /\ a = read (localStorage w).
Proof.
  unfold getItem, bind, storageCall, gets.
  destruct (fails (calls w) (GetItem k)); intros [= <- <-]. auto.
Qed.

Lemma removeLoop_inv from n w w' :
  forRange from n (removeItemChunk fails) w = (w', Returns tt) ->
  filesItem_ (localStorage w') = filesItem_ (localStorage w)
  /\ countItem (localStorage w') = countItem (localStorage w)
  /\ chunkItems (localStorage w') = deleteRange from n (chunkItems (localStorage w)).
Proof.
  revert from w. induction n as [| n IH]; intros from w; cbn [forRange deleteRange].
  - intros [= <-]. auto.
  - intros H. apply bind_inv in H as [(w1 & [] & E1 & H) | (e & _ & [=])].
    apply removeItem_inv in E1. subst w1.
    apply IH in H as (Hf & Hc & Hk). rewrite Hf, Hc, Hk. auto.
Qed.

Lemma saveChunk_inv chunk index w w' :
  saveChunk fails chunk index w = (w', Returns tt) ->
  exists stored,
    storedAs chunk stored
    /\ filesItem_ (localStorage w') = filesItem_ (localStorage w)
    /\ countItem (localStorage w') = countItem (localStorage w)
    /\ chunkItems (localStorage w')
       = <[index := Packed stored]> (chunkItems (localStorage w)).
Proof.
  unfold saveChunk, setItemChunk, setItem, tryCatch, bind, storageCall, modify.
  destruct (fails (calls w) (SetItem (CACHE_KEY index))).
  - cbn [calls logCall].
    destruct (fails (SetItem (CACHE_KEY index) :: calls w) (SetItem (CACHE_KEY index)));
      intros [= <-].
    eexists. split; [right; reflexivity |]. auto.
  - intros [= <-]. eexists. split; [left; reflexivity |]. auto.
Qed.

Lemma writeLoop_inv index chunks w w' :
  forEachFrom index chunks (saveChunk fails) w = (w', Returns tt) ->
  exists stored,
    Forall2 storedAs chunks stored
    /\ filesItem_ (localStorage w') = filesItem_ (localStorage w)
    /\ countItem (localStorage w') = countItem (localStorage w)
    /\ chunkItems (localStorage w')
       = insertChunks index stored (chunkItems (localStorage w)).
Proof.
  revert index w. induction chunks as [| c cs IH]; intros index w; cbn [forEachFrom].
  - intros [= <-]. exists []. split; [constructor | auto].
  - intros H. apply bind_inv in H as [(w1 & [] & E1 & H) | (e & _ & [=])].
    apply saveChunk_inv in E1 as (s1 & Hs1 & Hf1 & Hc1 & Hk1).
    apply IH in H as (ss & Hss & Hf & Hc & Hk).
    exists (s1 :: ss). split; [constructor; assumption |].
    rewrite Hf, Hc, Hk, Hf1, Hc1, Hk1. auto.
Qed.

Lemma storageCall_logged (P : call -> Prop) c :
  P c -> respects (logged P) (storageCall fails c).
Proof.
  intros HP w w' r. unfold storageCall.
  destruct (fails (calls w) c); intros [= <- _];
    (exists [c]; split; [reflexivity | repeat constructor; exact HP]).
Qed.

Lemma writesSucceedSince_logged P w w' :
  logged P w w' ->
  writesSucceedSince fails (calls w) -> writesSucceedSince fails (calls w').
Proof.
  intros (l & -> & _) H l' k. rewrite app_assoc. apply H.
Qed.

Lemma removeLoop_logged from n :
  respects (logged (fun _ => True)) (forRange from n (removeItemChunk fails)).
Proof.
  frame ltac:(first [ apply storageCall_logged; exact I
                    | exists []; split; [reflexivity | constructor] ]).
Qed.

(** A chunk is stored whole when its first write does not throw. *)
Lemma saveChunk_whole chunk index w :
  writesSucceedSince fails (calls w) ->
  saveChunk fails chunk index w =
  (setStorage
     {| filesItem_ := filesItem_ (localStorage w);
        countItem := countItem (localStorage w);
        chunkItems := <[index := Packed chunk]> (chunkItems (localStorage w)) |}
     (logCall (SetItem (CACHE_KEY index)) w),
   Returns tt).
Proof.
  intros H. unfold saveChunk, setItemChunk, setItem, tryCatch, bind, storageCall.
  pose proof (H [] (CACHE_KEY index)) as E. simpl in E. rewrite E. reflexivity.
Qed.

Lemma writeLoop_whole index chunks w :
  writesSucceedSince fails (calls w) ->
  exists w',
    forEachFrom index chunks (saveChunk fails) w = (w', Returns tt)
    /\ filesItem_ (localStorage w') = filesItem_ (localStorage w)
    /\ countItem (localStorage w') = countItem (localStorage w)
    /\ chunkItems (localStorage w') = insertChunks index chunks (chunkItems (localStorage w)).
Proof.
  revert index w. induction chunks as [| c cs IH]; intros index w Hw; simpl.
  - exists w. repeat split; auto.
  - rewrite (bind_run _ _ _ _ _ (saveChunk_whole _ _ _ Hw)).
    edestruct (IH (S index)) as (w' & E & Hf & Hc & Hk);
      [| exists w'; split; [exact E |]].
    + intros l k. cbn [calls setStorage logCall].
      replace (l ++ SetItem (CACHE_KEY index) :: calls w)
        with ((l ++ [SetItem (CACHE_KEY index)]) ++ calls w)
        by (rewrite <- app_assoc; reflexivity).
      apply Hw.
    + rewrite Hf, Hc, Hk. simpl. repeat split; auto.
Qed.

(** A pass that runs to its end found a chunk count its removal loop could
    reach, and leaves under the chunk keys the chunks of the partition,
    each one whole or reduced by its second attempt. *)
Lemma savePass_returns_inv w w' :
  savePass fails fuel w = (w', Returns tt) ->
  exists oldCount stored,
    persistedCount (localStorage w) = Finite oldCount
    /\ Forall2 storedAs (partition (cachedData w)) stored
    /\ localStorage w'
       = {| filesItem_ := Some (FilesJson (userUploadedFiles w));
            countItem := Some (toString (length (partition (cachedData w))));
            chunkItems :=
              insertChunks 0 stored
                (deleteRange 0 oldCount (chunkItems (localStorage w))) |}.
Proof.
  unfold savePass. intros H.
  apply bind_inv in H as [(w0 & files & [= <- <-] & H) | (e & [=] & _)].
  apply bind_inv in H as [(w1 & [] & E1 & H) | (e & _ & [=])].
  apply setItem_inv in E1.
  apply bind_inv in H as [(w2 & stored & E2 & H) | (e & _ & [=])].
  apply getItem_inv in E2 as [E2 Hstored].
  apply bind_inv in H as [(w3 & [] & E3 & H) | (e & _ & [=])].
  apply bind_inv in H as [(w4 & data & [= <- <-] & H) | (e & [=] & _)].
  apply bind_inv in H as [(w5 & [] & E5 & H) | (e & _ & [=])].
  apply setItem_inv in H.
  assert (countItem (localStorage w1) = countItem (localStorage w)) as Hc1
    by (subst w1; reflexivity).
  assert (persistedCount (localStorage w) = iterations (parseInt (orZero stored))) as Hcount.
  { unfold persistedCount. rewrite Hstored, Hc1. reflexivity. }
  destruct (iterations (parseInt (orZero stored))) as [oldCount |]; unfold forCount in E3.
  - exists oldCount.
    assert (cachedData w3 = cachedData w) as Hdata.
    { pose proof (respects_forRange sameMemory _ _ _
                    (fun i => removeItem_sameMemory fails _ _) _ _ _ E3) as [Hd _].
      rewrite Hd. subst w2 w1. reflexivity. }
    apply removeLoop_inv in E3 as (Hf3 & Hc3 & Hk3).
    rewrite Hdata in *. fold (partition (cachedData w)) in *.
    apply writeLoop_inv in E5 as (ss & Hss & Hf5 & Hc5 & Hk5).
    exists ss. split; [exact Hcount |]. split; [exact Hss |].
    subst w'. cbn [localStorage setStorage logCall].
    rewrite Hf5, Hk5, Hf3, Hk3. subst w2 w1. reflexivity.
  - apply bind_inv in E3 as [(w6 & [] & _ & [=]) | (e & _ & [=])].
Qed.

(** When no write throws, a pass that runs to its end leaves the chunks of
    the partition whole. *)
Lemma savePass_returns_whole w w' :
  savePass fails fuel w = (w', Returns tt) ->
  writesSucceedSince fails (calls w) ->
  exists oldCount,
    persistedCount (localStorage w) = Finite oldCount
    /\ localStorage w'
       = savedStorage (userUploadedFiles w) (cachedData w) oldCount (localStorage w).
Proof.
  intros H Hw.
  destruct (savePass_returns_inv w w' H) as (oldCount & stored & Hcount & _ & Hst).
  exists oldCount. split; [exact Hcount |].
  unfold savePass in H.
  apply bind_inv in H as [(w0 & files & [= <- <-] & H) | (e & [=] & _)].
  apply bind_inv in H as [(w1 & [] & E1 & H) | (e & _ & [=])].
  apply setItem_inv in E1.
  apply bind_inv in H as [(w2 & stored' & E2 & H) | (e & _ & [=])].
  apply getItem_inv in E2 as [E2 Hstored].
  assert (persistedCount (localStorage w) = iterations (parseInt (orZero stored'))) as Hc.
  { unfold persistedCount. rewrite Hstored. subst w1. reflexivity. }
  cbv zeta in H. rewrite <- Hc, Hcount in H. unfold forCount in H.
  apply bind_inv in H as [(w3 & [] & E3 & H) | (e & _ & [=])].
  apply bind_inv in H as [(w4 & data & [= <- <-] & H) | (e & [=] & _)].
  apply bind_inv in H as [(w5 & [] & E5 & H) | (e & _ & [=])].
  apply setItem_inv in H.
  assert (cachedData w3 = cachedData w) as Hdata.
  { pose proof (respects_forRange sameMemory _ _ _
                  (fun i => removeItem_sameMemory fails _ _) _ _ _ E3) as [Hd _].
    rewrite Hd. subst w2 w1. reflexivity. }
  assert (writesSucceedSince fails (calls w3)) as Hw3.
  { apply (writesSucceedSince_logged _ w2 w3 (removeLoop_logged _ _ _ _ _ E3)).
    subst w2 w1. intros l k. cbn [calls setStorage logCall].
    replace (l ++ GetItem CHUNK_COUNT_KEY :: SetItem FILES_KEY :: calls w)
      with ((l ++ [GetItem CHUNK_COUNT_KEY; SetItem FILES_KEY]) ++ calls w)
      by (rewrite <- app_assoc; reflexivity).
    apply Hw. }
  apply removeLoop_inv in E3 as (Hf3 & Hc3 & Hk3).
  rewrite Hdata in E5. fold (partition (cachedData w)) in E5. unfold forEach in E5.
  destruct (writeLoop_whole 0 (partition (cachedData w)) w3 Hw3)
    as (w5' & E5' & Hf5 & Hc5 & Hk5).
  rewrite E5' in E5. injection E5 as ->.
  subst w'. cbn [localStorage setStorage logCall]. unfold savedStorage.
  rewrite Hdata, Hf5, Hk5, Hf3, Hk3. subst w2 w1. reflexivity.
Qed.

(** [saveCachedData] is its first pass when that pass runs to its end. *)
Lemma saveCachedData_of_pass stack w w' :
  savePass fails fuel w = (w', Returns tt) ->
  saveCachedData fails fuel stack w = (w', Returns tt).
Proof.
  intros E. destruct stack; simpl; apply tryCatch_run; exact E.
Qed.

(** Every throwing call of [saveCachedData] sits in one of its [try]
    blocks, and its two [catch] blocks do not throw. *)
Lemma saveRetry_never_throws (again : M unit) w w' e :
  saveRetry again w <> (w', Ended (Throws e)).
Proof.
  unfold saveRetry, tryCatch.
  destruct (bind _ _ w) as [w1 [[[] | e1] |]]; intros [=].
Qed.

Lemma saveCachedData_no_throw stack w w' e :
  saveCachedData fails fuel stack w <> (w', Ended (Throws e)).
Proof.
  destruct stack; simpl; unfold tryCatch;
    destruct (savePass fails fuel w) as [w1 [[[] | e1] |]];
    intros H; try discriminate H; exact (saveRetry_never_throws _ _ _ _ H).
Qed.

End Completes.

Lemma insertChunks_keys index stored (m : gmap nat chunkItem) i :
  is_Some (insertChunks index stored m !! i)
  <-> (index <= i < index + length stored) \/ is_Some (m !! i).
Proof.
  revert index m. induction stored as [| c cs IH]; intros index m; cbn [insertChunks length].
  - split; [auto | intros [H | H]; [lia | exact H]].
  - rewrite IH. destruct (decide (i = index)) as [-> | Hne].
    + rewrite lookup_insert_eq. split; [intros _; left; lia | intros _; right; eauto].
    + rewrite lookup_insert_ne by congruence.
      split; (intros [H | H]; [left; lia | right; exact H]).
Qed.

Lemma insertChunks_stored index chunks stored (m : gmap nat chunkItem) j chunk :
  Forall2 storedAs chunks stored ->
  chunks !! j = Some chunk ->
  exists s, insertChunks index stored m !! (index + j) = Some (Packed s)
            /\ storedAs chunk s.
Proof.
  intros H Hj.
  destruct (Forall2_lookup_l _ _ _ _ _ H Hj) as (s & Hs & Hst).
  exists s. split; [apply insertChunks_lookup; exact Hs | exact Hst].
Qed.

(** ** Claims about the chunk store *)

(** C4. A cache of [n >= 1] records is cut into contiguous slices of
    [itemsPerChunk = ceil(n / 40)] records (the last one may be shorter but
    is not empty), there are exactly [ceil(n / itemsPerChunk)] of them, at
    most [MAX_CHUNKS = 40].  These slices are what a persist stores: when
    its pass runs to its end, that number is the chunk count it leaves in
    the store and the key of index [j] holds slice [j], or the first
    [floor(0.7 * length)] records of it when the first write of the key
    threw; when no call throws and the chunk count found lets the removal
    loop end, the pass runs to its end and every key holds its slice. *)
Theorem partition_within_MAX_CHUNKS (data : list DataEntry) :
  1 <= length data ->
  let n := length data in
  let itemsPerChunk := ceilDiv n MAX_CHUNKS in
  let chunks := partition data in
  itemsPerChunk = (n + 39) / 40
  /\ concat chunks = data
  /\ (forall j chunk,
        chunks !! j = Some chunk ->
        chunk = take itemsPerChunk (drop (j * itemsPerChunk) data)
        /\ 1 <= length chunk <= itemsPerChunk)
  /\ length chunks = ceilDiv n itemsPerChunk
  /\ ceilDiv n itemsPerChunk <= 40
  /\ (forall fails fuel stack w w',
        cachedData w = data ->
        savePass fails fuel w = (w', Returns tt) ->
        saveCachedData fails fuel stack w = (w', Returns tt)
        /\ countItem (localStorage w') = Some (toString (length chunks))
        /\ persistedCount (localStorage w') = Finite (length chunks)
        /\ forall j chunk,
             chunks !! j = Some chunk ->
             exists stored,
               chunkItems (localStorage w') !! j = Some (Packed stored)
               /\ (stored = chunk
                   \/ stored = take (floorMul (length chunk) double_0_7) chunk))
  /\ (forall fails fuel stack w,
        cachedData w = data ->
        reliableSince fails (calls w) ->
        persistedCount (localStorage w) <> Endless ->
        exists w',
          saveCachedData fails fuel stack w = (w', Returns tt)
          /\ persistedCount (localStorage w') = Finite (length chunks)
          /\ forall j chunk,
               chunks !! j = Some chunk ->
               chunkItems (localStorage w') !! j = Some (Packed chunk)).
Proof.
  intros Hn n itemsPerChunk chunks.
  assert (1 <= itemsPerChunk) as Hp
    by (apply ceilDiv_pos; [exact Hn | unfold MAX_CHUNKS; lia]).
  assert (length chunks <= 40) as Hmax by apply partition_bound.
  assert (forall st, countItem st = Some (toString (length chunks)) ->
                     persistedCount st = Finite (length chunks)) as Hcount.
  { intros st Hst. unfold persistedCount. rewrite Hst.
    apply iterations_toString. lia. }
  split; [reflexivity |].
  split; [apply partition_concat |].
  split.
  { intros j chunk Hj.
    apply (chunksFrom_lookup data itemsPerChunk Hp) in Hj; [| lia].
    simpl in Hj. destruct Hj as [-> Hlt]. split; [reflexivity |].
    rewrite length_take, length_drop. fold n. lia. }
  split; [apply partition_length |].
  split.
  { subst n itemsPerChunk. rewrite <- partition_length. apply partition_bound. }
  split.
  - intros fails fuel stack w w' Hdata E.
    split; [apply saveCachedData_of_pass; exact E |].
    apply savePass_returns_inv in E as (oldCount & stored & _ & Hstored & Hst).
    rewrite Hdata in Hstored, Hst. fold chunks in Hstored, Hst.
    assert (countItem (localStorage w') = Some (toString (length chunks))) as Hc
      by (rewrite Hst; reflexivity).
    split; [exact Hc |]. split; [apply Hcount; exact Hc |].
    intros j chunk Hj. rewrite Hst. cbn [chunkItems].
    destruct (insertChunks_stored 0 chunks stored
                (deleteRange 0 oldCount (chunkItems (localStorage w)))
                j chunk Hstored Hj)
      as (s & Hs & [-> | ->]).
    + exists chunk. split; [exact Hs | left; reflexivity].
    + eexists. split; [exact Hs |]. right. apply Array_slice_first.
  - intros fails fuel stack w Hdata Hrel Hends.
    destruct (persistedCount (localStorage w)) as [oldCount |] eqn:Hold; [| congruence].
    destruct (savePass_run fails fuel w oldCount Hrel Hold) as (w' & E & Hst & _).
    exists w'. split; [apply saveCachedData_of_pass; exact E |].
    rewrite Hdata in Hst. fold chunks in Hst.
    split; [apply Hcount; rewrite Hst; reflexivity |].
    intros j chunk Hj. rewrite Hst. unfold savedStorage. cbn [chunkItems].
    apply (insertChunks_lookup 0). exact Hj.
Qed.

Lemma partition_within_MAX_CHUNKS_witness :
  let data := sampleCache (js "a.csv") 85 in
  let w := sampleWorld data in
  1 <= length data
  /\ length (partition data) = ceilDiv 85 3
  /\ ceilDiv 85 3 <= 40
  /\ exists w',
       saveCachedData neverFails 0 0 w = (w', Returns tt)
       /\ chunkItems (localStorage w') !! 28
          = Some (Packed [sampleRecord (js "a.csv") 84]).
Proof.
  intros data w.
  assert (1 <= length data) as Hn by (vm_compute; lia).
  split; [exact Hn |].
  destruct (partition_within_MAX_CHUNKS data Hn) as (_ & _ & _ & Hlen & Hmax & _ & Hsave).
  split; [exact Hlen |]. split; [exact Hmax |].
  destruct (Hsave neverFails 0 0 w eq_refl) as (w' & E & _ & Hkeys).
  - intros l c. reflexivity.
  - vm_compute. discriminate.
  - exists w'. split; [exact E |]. apply Hkeys. vm_compute. reflexivity.
Defined.

(** C5, where the claim does not hold: every write of the persist
    succeeds, but its first read of the chunk count throws.  The pass
    throws, the [catch] block keeps the last three of the five records and
    saves them, and the restore gives back three records. *)
Lemma round_trip_needs_more_than_successful_writes :
  ~ (forall fails fuel maxArguments stack w,
       (forall l k, fails l (SetItem k) = false) ->
       let saved := fst (saveCachedData fails fuel stack w) in
       let restored :=
         fst (loadCachedData fails fuel maxArguments
                (freshProcess (localStorage saved) (calls saved))) in
       length (cachedData restored) = length (cachedData w)
       /\ forall source,
            List.filter (sourceIs source) (cachedData restored)
            = List.filter (sourceIs source) (cachedData w)).
Proof.
  intros H.
  specialize (H countReadFailsOnce 0 1000 1 (sampleWorld (sampleCache (js "a.csv") 5))).
  assert (forall (l : list call) (k : key), countReadFailsOnce l (SetItem k) = false) as Hw
    by reflexivity.
  destruct (H Hw) as [Hlen _]. vm_compute in Hlen. discriminate Hlen.
Qed.

(** The restore has its own conditions: a read of a chunk that throws
    skips the chunk, and a chunk of more entries than a call can take
    arguments is skipped too. *)
Example restore_can_skip_a_stored_chunk :
  let w := sampleWorld (sampleCache (js "a.csv") 3) in
  let saved := fst (saveCachedData neverFails 0 0 w) in
  let fresh := freshProcess (localStorage saved) (calls saved) in
  cachedData (fst (loadCachedData (chunkReadFails 1) 0 1000 fresh))
  = [sampleRecord (js "a.csv") 0; sampleRecord (js "a.csv") 2]
  /\ cachedData (fst (loadCachedData neverFails 0 0 fresh)) = [].
Proof. split; vm_compute; reflexivity. Qed.

(** The slices of the partition have at most [ceil(n / 40)] records. *)
Lemma partition_slice_length data chunk :
  chunk ∈ partition data -> length chunk <= ceilDiv (length data) MAX_CHUNKS.
Proof.
  intros Hc. apply list_elem_of_lookup in Hc as [j Hj].
  destruct data as [| x data]; [discriminate Hj |].
  assert (1 <= ceilDiv (length (x :: data)) MAX_CHUNKS) as Hp
    by (apply ceilDiv_pos; [simpl; lia | unfold MAX_CHUNKS; lia]).
  unfold partition in Hj.
  apply (chunksFrom_lookup (x :: data) _ Hp) in Hj; [| lia].
  destruct Hj as [-> _]. rewrite length_take. lia.
Qed.

(** C5 (amended). Round trip: when the first pass of the persist runs to
    its end with every write succeeding (no [setItem] made from the start
    of the persist on throws), no read of the restore throws, and a chunk
    has no more records than a call can take arguments, a restore into a
    process that has just started returns with the cache as it was before
    the persist: the same records in the same order, hence the same number
    of records and the same records for every [source]; the value of
    [userUploadedFiles] comes back too. *)
Theorem persist_restore_round_trip fails fuel maxArguments stack (w saved : World) :
  savePass fails fuel w = (saved, Returns tt) ->
  writesSucceedSince fails (calls w) ->
  readsSucceedSince fails (calls saved) ->
  ceilDiv (length (cachedData w)) MAX_CHUNKS <= maxArguments ->
  saveCachedData fails fuel stack w = (saved, Returns tt)
  /\ exists restored,
       loadCachedData fails fuel maxArguments
         (freshProcess (localStorage saved) (calls saved))
       = (restored, Returns tt)
       /\ cachedData restored = cachedData w
       /\ length (cachedData restored) = length (cachedData w)
       /\ (forall source,
             List.filter (sourceIs source) (cachedData restored)
             = List.filter (sourceIs source) (cachedData w))
       /\ userUploadedFiles restored = userUploadedFiles w.
Proof.
  intros E Hwrites Hreads Hargs.
  split; [apply saveCachedData_of_pass; exact E |].
  destruct (savePass_returns_whole fails fuel w saved E Hwrites) as (oldCount & _ & Hst).
  assert (Forall (fun c => length c <= maxArguments) (partition (cachedData w))) as Hlen.
  { apply Forall_forall. intros c Hc.
    pose proof (partition_slice_length _ _ Hc). lia. }
  destruct (loadCachedData_run fails fuel maxArguments
              (freshProcess (localStorage saved) (calls saved))
              (userUploadedFiles w) (partition (cachedData w)))
    as (restored & E2 & Hd2 & Hf2 & _).
  - exact Hreads.
  - simpl. rewrite Hst. reflexivity.
  - simpl. rewrite Hst. reflexivity.
  - pose proof (partition_bound (cachedData w)). unfold MAX_CHUNKS in *. lia.
  - intros j c Hj. simpl. rewrite Hst. simpl.
    apply (insertChunks_lookup 0). exact Hj.
  - exact Hlen.
  - exists restored. split; [exact E2 |].
    rewrite Hd2, Hf2, partition_concat. auto.
Qed.

(** The hypotheses are met on a store of which every [removeItem] throws:
    the store is empty, so that the persist removes nothing. *)
Lemma persist_restore_round_trip_witness :
  let w := sampleWorld (sampleCache (js "a.csv") 3) in
  exists saved restored,
    savePass removalsFail 0 w = (saved, Returns tt)
    /\ writesSucceedSince removalsFail (calls w)
    /\ readsSucceedSince removalsFail (calls saved)
    /\ ceilDiv (length (cachedData w)) MAX_CHUNKS <= 1000
    /\ saveCachedData removalsFail 0 0 w = (saved, Returns tt)
    /\ loadCachedData removalsFail 0 1000
         (freshProcess (localStorage saved) (calls saved))
       = (restored, Returns tt)
    /\ cachedData restored = sampleCache (js "a.csv") 3.
Proof.
  intros w.
  destruct (savePass removalsFail 0 w) as [saved r] eqn:E.
  assert (r = Returns tt) as -> by (vm_compute in E; injection E as _ <-; reflexivity).
  assert (writesSucceedSince removalsFail (calls w)) as Hwrites by (intros l k; reflexivity).
  assert (readsSucceedSince removalsFail (calls saved)) as Hreads by (intros l k; reflexivity).
  assert (ceilDiv (length (cachedData w)) MAX_CHUNKS <= 1000) as Hargs
    by (vm_compute; lia).
  destruct (persist_restore_round_trip removalsFail 0 1000 0 w saved E Hwrites Hreads Hargs)
    as (E1 & restored & E2 & Hd & _).
  exists saved, restored.
  split; [reflexivity |]. split; [exact Hwrites |]. split; [exact Hreads |].
  split; [exact Hargs |]. split; [exact E1 |]. split; [exact E2 | exact Hd].
Defined.

(** ** The calls a restore makes *)

Lemma logged_weaken (P Q : call -> Prop) w w' :
  (forall c, P c -> Q c) -> logged P w w' -> logged Q w w'.
Proof.
  intros HPQ (l & E & F). exists l. split; [exact E |].
  eapply Forall_impl; eassumption.
Qed.

#[local] Instance restoring_preorder : PreOrder restoring.
Proof.
  split.
  - intros w. split; reflexivity.
  - intros w1 w2 w3 [S1 L1] [S2 L2]. split.
    + etransitivity; eassumption.
    + unfold sameStorage in S1. rewrite S1 in L2.
      etransitivity; eassumption.
Qed.

Lemma restoring_memory w w' :
  localStorage w' = localStorage w -> calls w' = calls w -> restoring w w'.
Proof.
  intros Hs Hc. split; [exact Hs |].
  exists []. split; [exact Hc | constructor].
Qed.

Section RestoreCalls.

Variable fails : list call -> call -> bool.
Variable fuel maxArguments : nat.
Context {stringCase : StringCase}.

Lemma getItem_restoring {A} k (read : Storage -> A) w w1 r :
  (forall w0, restoreCall (persistedCount (localStorage w0)) (GetItem k)) ->
  getItem fails k read w = (w1, r) ->
  restoring w w1
  /\ (r = Returns (read (localStorage w)) \/ exists e, r = Throws e).
Proof.
  intros Hk. unfold getItem, bind, storageCall.
  destruct (fails (calls w) (GetItem k)); intros [= <- <-].
  - split; [| right; eexists; reflexivity].
    split; [reflexivity |].
    exists [GetItem k]. split; [reflexivity | repeat constructor; apply Hk].
  - split; [| left; reflexivity].
    split; [reflexivity |].
    exists [GetItem k]. split; [reflexivity | repeat constructor; apply Hk].
Qed.

Lemma loadChunk_log i :
  respects (fun w w' => sameStorage w w'
                        /\ logged (fun c => c = GetItem (CACHE_KEY i)) w w')
    (loadChunk fails maxArguments i).
Proof.
  intros w w' r. unfold loadChunk, getItemChunk, getItem, tryCatch, bind, storageCall.
  destruct (fails (calls w) (GetItem (CACHE_KEY i))).
  - intros [= <- _]. split; [reflexivity |].
    exists [GetItem (CACHE_KEY i)]. split; [reflexivity | repeat constructor].
  - simpl. destruct (chunkItems (localStorage w) !! i) as [[rs |] |];
      [destruct (maxArguments <? length rs) | |];
      simpl; intros [= <- _]; (split; [reflexivity |]);
      exists [GetItem (CACHE_KEY i)]; (split; [reflexivity | repeat constructor]).
Qed.

Lemma loadLoop_log (g : nat -> nat) from n :
  respects (fun w w' =>
              sameStorage w w'
              /\ logged (fun c => exists k, c = GetItem (CACHE_KEY (g k))) w w')
    (forRange from n (fun k => loadChunk fails maxArguments (g k))).
Proof.
  revert from. induction n as [| n IH]; intros from w w' r; cbn [forRange].
  - intros [= <- _]. split; reflexivity.
  - intros H. apply bind_cases in H as [(w1 & [] & E1 & E2) | [(e & E1 & _) | (E1 & _)]].
    + apply loadChunk_log in E1 as [S1 L1]. apply IH in E2 as [S2 L2]. split.
      * etransitivity; eassumption.
      * transitivity w1; [| exact L2].
        eapply logged_weaken; [| exact L1].
        intros c ->. exists from. reflexivity.
    + apply loadChunk_log in E1 as [S1 L1]. split; [exact S1 |].
      eapply logged_weaken; [| exact L1].
      intros c ->. exists from. reflexivity.
    + apply loadChunk_log in E1 as [S1 L1]. split; [exact S1 |].
      eapply logged_weaken; [| exact L1].
      intros c ->. exists from. reflexivity.
Qed.

Lemma loadLoop_log_below from n :
  respects (fun w w' =>
              sameStorage w w'
              /\ logged (fun c => exists i, c = GetItem (CACHE_KEY i) /\ i < from + n) w w')
    (forRange from n (loadChunk fails maxArguments)).
Proof.
  revert from. induction n as [| n IH]; intros from w w' r; cbn [forRange].
  - intros [= <- _]. split; reflexivity.
  - intros H. apply bind_cases in H as [(w1 & [] & E1 & E2) | [(e & E1 & _) | (E1 & _)]].
    + apply loadChunk_log in E1 as [S1 L1]. apply IH in E2 as [S2 L2]. split.
      * etransitivity; eassumption.
      * transitivity w1.
        -- eapply logged_weaken; [| exact L1].
           intros c ->. exists from. split; [reflexivity | lia].
        -- eapply logged_weaken; [| exact L2].
           intros c (i & -> & Hi). exists i. split; [reflexivity | lia].
    + apply loadChunk_log in E1 as [S1 L1]. split; [exact S1 |].
      eapply logged_weaken; [| exact L1].
      intros c ->. exists from. split; [reflexivity | lia].
    + apply loadChunk_log in E1 as [S1 L1]. split; [exact S1 |].
      eapply logged_weaken; [| exact L1].
      intros c ->. exists from. split; [reflexivity | lia].
Qed.

Lemma loopIndex_bound k : (Z.of_nat (loopIndex k) <= 2 ^ 53)%Z.
Proof.
  unfold loopIndex. destruct (Z.ltb_spec (Z.of_nat k) (2 ^ 53)); [lia |].
  rewrite Z2Nat.id; lia.
Qed.

(** The chunk keys a loop over a chunk count reads are below the count. *)
Lemma loadCount_log count :
  respects (fun w w' =>
              sameStorage w w'
              /\ logged (fun c => exists i, c = GetItem (CACHE_KEY i) /\ below i count) w w')
    (forCount fuel count (loadChunk fails maxArguments)).
Proof.
  intros w w' r. destruct count as [n |]; unfold forCount.
  - intros H. apply loadLoop_log_below in H as [S1 L1]. split; [exact S1 |].
    eapply logged_weaken; [| exact L1].
    intros c (i & -> & Hi). exists i. split; [reflexivity | simpl; lia].
  - intros H.
    assert (exists r1, forRange 0 fuel (fun k => loadChunk fails maxArguments (loopIndex k)) w
                       = (w', r1)) as [r1 E1].
    { apply bind_cases in H as [(w1 & [] & E1 & [= <- _]) | [(e & E1 & _) | (E1 & _)]];
        eexists; exact E1. }
    apply (loadLoop_log loopIndex) in E1 as [S1 L1]. split; [exact S1 |].
    eapply logged_weaken; [| exact L1].
    intros c (k & ->). exists (loopIndex k). split; [reflexivity |].
    apply loopIndex_bound.
Qed.

(** A restore leaves the store as it is, and the only chunk keys it reads
    are those below the chunk count the store announces. *)
Lemma loadCachedData_restoring : respects restoring (loadCachedData fails fuel maxArguments).
Proof.
  assert (forall w w1 r,
             (stored <- getItemCount fails ;;
              modify (setCachedData []) ;;
              forCount fuel (iterations (parseInt (orZero stored)))
                (loadChunk fails maxArguments)) w
             = (w1, r) -> restoring w w1) as Hcount.
  { intros w w1 r H. unfold getItemCount in H.
    apply bind_cases in H as [(w2 & stored & E1 & E2) | [(e & E1 & _) | (E1 & _)]].
    - apply getItem_restoring in E1 as [R1 [[= ->] | [e [=]]]]; [| intros; exact I].
      transitivity w2; [exact R1 |].
      apply bind_cases in E2 as [(w3 & [] & E2 & E3) | [(e & [=] & _) | ([=] & _)]].
      injection E2 as <-.
      apply loadCount_log in E3 as [S3 L3]. split; [exact S3 |].
      eapply logged_weaken; [| exact L3].
      intros c (i & -> & Hi). cbn [restoreCall].
      destruct R1 as [S1 _]. unfold sameStorage in S1.
      cbn [localStorage setCachedData] in *.
      unfold persistedCount. rewrite S1. exact Hi.
    - apply getItem_restoring in E1 as [R1 _]; [exact R1 | intros; exact I].
    - apply getItem_restoring in E1 as [R1 _]; [exact R1 | intros; exact I]. }
  assert (forall w w1 r,
             (savedFiles <- getItemFiles fails ;;
              match savedFiles with
              | Some (FilesJson value) => modify (setUserUploadedFiles value)
              | Some FilesBroken => throw SyntaxError
              | Some FilesEmpty | None => ret tt
              end ;;
              stored <- getItemCount fails ;;
              modify (setCachedData []) ;;
              forCount fuel (iterations (parseInt (orZero stored)))
                (loadChunk fails maxArguments)) w
             = (w1, r) -> restoring w w1) as Hbody.
  { intros w w1 r H. unfold getItemFiles in H.
    apply bind_cases in H as [(w2 & savedFiles & E1 & E2) | [(e & E1 & _) | (E1 & _)]].
    - apply getItem_restoring in E1 as [R1 _]; [| intros; exact I].
      transitivity w2; [exact R1 |].
      apply bind_cases in E2 as [(w3 & [] & E2 & E3) | [(e & E2 & _) | (E2 & _)]].
      + transitivity w3; [| eapply Hcount; exact E3].
        destruct savedFiles as [[| names |] |]; injection E2 as <-;
          apply restoring_memory; reflexivity.
      + destruct savedFiles as [[| names |] |]; injection E2 as <-;
          apply restoring_memory; reflexivity.
      + destruct savedFiles as [[| names |] |]; discriminate E2.
    - apply getItem_restoring in E1 as [R1 _]; [exact R1 | intros; exact I].
    - apply getItem_restoring in E1 as [R1 _]; [exact R1 | intros; exact I]. }
  intros w w' r. unfold loadCachedData, tryCatch.
  match goal with |- context [match ?b w with _ => _ end] =>
    destruct (b w) as [w1 [[[] | e] |]] eqn:E end.
  - intros [= <- _]. eapply Hbody. exact E.
  - intros [= <- _]. transitivity w1; [eapply Hbody; exact E |].
    apply restoring_memory; reflexivity.
  - intros [= <- _]. eapply Hbody. exact E.
Qed.

End RestoreCalls.

(** C2, on the store the claim does not hold for: a cache of three records,
    an empty store, and a store with room for two chunks.  The first pass
    writes chunks 0 and 1 and throws on chunk 2; the retry saves the one
    record left as chunk 0 and writes the count 1, while the blob of
    chunk 1 is still in the store. *)
Lemma chunk_count_can_miss_blobs :
  ~ (forall fails fuel stack w,
       let st' := localStorage (fst (saveCachedData fails fuel stack w)) in
       persistedCount st' = Finite (blobsPresent st')).
Proof.
  intros H.
  specialize (H roomForTwo 0 5 (sampleWorld (sampleCache (js "a.csv") 3))).
  vm_compute in H. discriminate H.
Qed.

(** The store matters too: a blob left at index 7 of a store without
    count is not removed by a persist in which nothing throws. *)
Example stale_chunk_survives_a_persist :
  let st := {| filesItem_ := None; countItem := None;
               chunkItems := {[ 7 := Unreadable ]} |} in
  let w := {| localStorage := st; calls := []; userUploadedFiles := FArr [];
              cachedData := sampleCache (js "a.csv") 1 |} in
  let st' := localStorage (fst (saveCachedData neverFails 0 0 w)) in
  persistedCount st' = Finite 1 /\ blobsPresent st' = 2.
Proof. split; vm_compute; reflexivity. Qed.

(** C2 (amended). When the first pass of a persist runs to its end, that
    is when no exception reaches the [catch] block of [saveCachedData] (a
    write of a chunk may have thrown once, the reduced chunk being written
    in its place), and the store it started from held no chunk blob at or
    beyond its chunk count, the persisted chunk count equals the number of
    chunk blobs present, which sit at exactly the indices below it.  And a
    restore, from any store and whatever calls throw, reads no chunk key at
    an index greater than or equal to the persisted chunk count. *)
Theorem chunk_count_matches_blobs fails fuel stack (w w' : World) :
  savePass fails fuel w = (w', Returns tt) ->
  noStaleChunk (localStorage w) ->
  let st' := localStorage w' in
  saveCachedData fails fuel stack w = (w', Returns tt)
  /\ persistedCount st' = Finite (blobsPresent st')
  /\ (forall i, is_Some (chunkItems st' !! i) <-> below i (persistedCount st'))
  /\ (forall fails' fuel' maxArguments w0 w1 r,
        loadCachedData fails' fuel' maxArguments w0 = (w1, r) ->
        exists l,
          calls w1 = l ++ calls w0
          /\ forall i, GetItem (CACHE_KEY i) ∈ l ->
                       below i (persistedCount (localStorage w0))).
Proof.
  intros E Hstale st'.
  split; [apply saveCachedData_of_pass; exact E |].
  apply savePass_returns_inv in E as (oldCount & stored & Hold & Hstored & Hst).
  set (k := length (partition (cachedData w))) in *.
  assert (k <= 40) as Hk by apply partition_bound.
  assert (persistedCount st' = Finite k) as Ecount.
  { subst st'. rewrite Hst. unfold persistedCount. cbn [countItem].
    apply iterations_toString. lia. }
  assert (forall i, is_Some (chunkItems st' !! i) <-> i < k) as Hkeys.
  { intros i. subst st'. rewrite Hst. cbn [chunkItems].
    rewrite insertChunks_keys, <- (Forall2_length _ _ _ Hstored). fold k.
    split; [intros [Hi | Hi]; [lia |] | intros Hi; left; lia].
    rewrite deleteRange_lookup in Hi.
    destruct (bool_decide_reflect (0 <= i < 0 + oldCount)) as [Hlt | Hge].
    - destruct Hi as [x [=]].
    - apply Hstale in Hi. rewrite Hold in Hi. simpl in Hi. lia. }
  split; [| split].
  - rewrite Ecount. f_equal. symmetry. apply size_of_initial_segment. exact Hkeys.
  - intros i. rewrite Ecount. apply Hkeys.
  - intros fails' fuel' maxArguments w0 w1 r E.
    apply loadCachedData_restoring in E as [_ (l & El & Fl)].
    exists l. split; [exact El |].
    intros i Hi. rewrite Forall_forall in Fl. apply (Fl _ Hi).
Qed.

Lemma chunk_count_matches_blobs_witness :
  let w := sampleWorld (sampleCache (js "a.csv") 3) in
  let fails := chunkWriteFailsOnce 1 in
  let w' := fst (savePass fails 0 w) in
  savePass fails 0 w = (w', Returns tt)
  /\ noStaleChunk (localStorage w)
  /\ chunkItems (localStorage w') !! 1 = Some (Packed [])
  /\ persistedCount (localStorage w') = Finite (blobsPresent (localStorage w')).
Proof.
  intros w fails w'.
  assert (savePass fails 0 w = (w', Returns tt)) as E by (vm_compute; reflexivity).
  assert (noStaleChunk (localStorage w)) as Hstale.
  { intros i [x Hx]. simpl in Hx. rewrite lookup_empty in Hx. discriminate Hx. }
  split; [exact E |]. split; [exact Hstale |].
  split; [vm_compute; reflexivity |].
  apply (chunk_count_matches_blobs fails 0 0 w w' E Hstale).
Defined.

(** ** [Math.floor(n * 0.6)] in double arithmetic *)

(** From [2^53] on, [round53] gives a multiple of the unit in the last
    place [P] that is nearest to its argument. *)
Lemma round53_nearest (m : Z) :
  (2 ^ 53 <= m)%Z ->
  exists P q' : Z,
    P = (2 ^ (Z.log2 m - 52))%Z
    /\ round53 m = (q' * P)%Z
    /\ (2 * Z.abs (q' * P - m) <= P)%Z
    /\ (P * 2 ^ 52 <= m < P * 2 ^ 53)%Z.
Proof.
  intros Hm. assert (0 < m)%Z as Hpos by lia.
  assert (53 <= Z.log2 m)%Z as Hb by (apply Z.log2_le_pow2; lia).
  pose proof (Z.log2_spec m Hpos) as [Hlo Hhi].
  set (b := Z.log2 m) in *. set (sh := (b - 52)%Z).
  assert (1 <= sh)%Z as Hsh by (subst sh; lia).
  set (half := (2 ^ (sh - 1))%Z). set (P := (2 ^ sh)%Z).
  assert (P = 2 * half)%Z as HP.
  { subst P half. replace sh with (Z.succ (sh - 1)) at 1 by lia.
    apply Z.pow_succ_r. lia. }
  assert (0 < half)%Z as Hhalf by (subst half; apply Z.pow_pos_nonneg; lia).
  assert (2 ^ b = P * 2 ^ 52)%Z as Hpb.
  { subst P sh. rewrite <- Z.pow_add_r by lia. f_equal. lia. }
  assert (2 ^ Z.succ b = P * 2 ^ 53)%Z as Hpb1.
  { rewrite Z.pow_succ_r by lia. rewrite Hpb.
    change (2 ^ 53)%Z with (2 * 2 ^ 52)%Z. ring. }
  pose proof (Z.div_mod m P ltac:(lia)) as Hdm.
  pose proof (Z.mod_pos_bound m P ltac:(lia)) as Hr.
  set (q := (m / P)%Z) in *. set (r := (m mod P)%Z) in *.
  assert (round53 m =
          ((if (r <? half)%Z then q
            else if (half <? r)%Z then q + 1
            else if Z.even q then q else q + 1) * P)%Z) as Hround.
  { unfold round53.
    destruct (Z.leb_spec m 0); [lia |].
    fold b. destruct (Z.ltb_spec b 53); [lia |].
    fold sh. rewrite Z.shiftr_div_pow2 by lia. fold P q.
    rewrite !Z.shiftl_mul_pow2 by lia. fold P half.
    replace (m - q * P)%Z with r by lia.
    rewrite Z.mul_1_l. fold half. reflexivity. }
  exists P. eexists. split; [reflexivity |]. split; [exact Hround |].
  split; [| lia].
  destruct (Z.ltb_spec r half); [lia |].
  destruct (Z.ltb_spec half r); [lia |].
  destruct (Z.even q); lia.
Qed.

Lemma floorMul_0_6 (n : nat) :
  (Z.of_nat n < 2 ^ 32)%Z -> floorMul n double_0_6 = 3 * n / 5.
Proof.
  intros Hn. destruct n as [| [| n]]; [reflexivity | reflexivity |].
  set (N := S (S n)) in *. unfold floorMul.
  set (m := (Z.of_nat N * double_0_6)%Z).
  assert (2 ^ 53 <= m)%Z as Hm by (subst m; unfold double_0_6; lia).
  destruct (round53_nearest m Hm) as (P & q' & HP & -> & Hnear & HPlo & HPhi).
  pose proof (Nat.div_mod_eq (3 * N) 5) as Hdiv.
  pose proof (Nat.mod_upper_bound (3 * N) 5 ltac:(lia)) as Hmod.
  set (I := 3 * N / 5) in *. set (t := (3 * N) mod 5) in *.
  rewrite Z.shiftr_div_pow2 by lia.
  assert (5 * m = (5 * Z.of_nat I + Z.of_nat t) * 2 ^ 53 - Z.of_nat N)%Z as H5m.
  { subst m. unfold double_0_6. lia. }
  assert ((q' * P / 2 ^ 53)%Z = Z.of_nat I) as ->; [| lia].
  destruct (Nat.eq_dec t 0) as [Ht | Ht].
  - (* [3 * N] is a multiple of 5: the product rounds to the integer *)
    assert (1 <= Z.log2 m - 52 <= 53)%Z as Hsh.
    { assert (53 <= Z.log2 m)%Z by (apply Z.log2_le_pow2; lia).
      assert (Z.log2 m < 106)%Z; [| lia].
      apply Z.log2_lt_pow2; [lia |]. subst m. unfold double_0_6. lia. }
    assert (2 ^ 53 = P * 2 ^ (53 - (Z.log2 m - 52)))%Z as Hdiv53.
    { rewrite HP, <- Z.pow_add_r by lia. f_equal. lia. }
    set (Q := (Z.of_nat I * 2 ^ (53 - (Z.log2 m - 52)))%Z).
    assert (Z.of_nat I * 2 ^ 53 = Q * P)%Z as HQ by (subst Q; rewrite Hdiv53; ring).
    assert (q' = Q) as ->.
    { assert (0 < P)%Z by lia.
      assert (2 * Z.of_nat N < 5 * P)%Z by lia.
      assert (Z.abs ((q' - Q) * P) < P)%Z as Habs by lia.
      rewrite Z.abs_mul, (Z.abs_eq P) in Habs by lia.
      assert (Z.abs (q' - Q) < 1)%Z by nia. lia. }
    rewrite <- HQ. apply Z.div_mul. lia.
  - (* otherwise the product is far from an integer *)
    symmetry. apply Z.div_unique with (r := (q' * P - Z.of_nat I * 2 ^ 53)%Z); lia.
Qed.

(** ** The retry of [saveCachedData] *)

Lemma saveRetry_run again w :
  saveRetry again w =
  (let retried :=
     setCachedData
       (Array_slice (- Z.of_nat (floorMul (length (cachedData w)) double_0_6)) None
          (cachedData w)) w in
   match again retried with
   | (w', Ended _) => (w', Returns tt)
   | (w', Running) => (w', Running)
   end).
Proof.
  unfold saveRetry, tryCatch, bind, gets, modify, ret. simpl.
  destruct (again _) as [w' [[[] | e] |]]; reflexivity.
Qed.

Lemma saveRetry_cachePruned again :
  respects cachePruned again -> respects cachePruned (saveRetry again).
Proof.
  intros Hagain w w' r. rewrite saveRetry_run. cbv zeta.
  destruct (again _) as [w1 [o |]] eqn:E; intros [= <- _];
    apply Hagain in E; unfold cachePruned in *; simpl in E;
    (etransitivity; [exact E | apply Array_slice_last_suffix]).
Qed.

(** Whatever throws, [saveCachedData] only ever drops records from the
    front of the cache. *)
Lemma saveCachedData_cachePruned fails fuel stack :
  respects cachePruned (saveCachedData fails fuel stack).
Proof.
  assert (respects cachePruned (savePass fails fuel)) as Hpass.
  { eapply respects_weaken; [| apply savePass_sameMemory].
    intros w w' [Hd _]. unfold cachePruned. rewrite Hd. reflexivity. }
  induction stack as [| stack IH]; simpl.
  - apply respects_tryCatch; [typeclasses eauto | exact Hpass |].
    intros _. apply saveRetry_cachePruned. apply respects_throw. typeclasses eauto.
  - apply respects_tryCatch; [typeclasses eauto | exact Hpass |].
    intros _. apply saveRetry_cachePruned. exact IH.
Qed.

(** *** The depth of the recursion

    Each pass makes at least one call to the store, so a store that stops
    throwing after [bound] calls lets at most [bound] passes throw: with
    that much stack left the result of [saveCachedData] no longer depends
    on the stack, and no [RangeError] is involved. *)

#[local] Instance logNotShorter_preorder : PreOrder logNotShorter.
Proof.
  split.
  - intros w. unfold logNotShorter. lia.
  - intros w1 w2 w3. unfold logNotShorter. lia.
Qed.

Section Depth.

Variable fails : list call -> call -> bool.
Variable fuel maxArguments : nat.
Context {stringCase : StringCase}.

Lemma storageCall_logs c w w' r :
  storageCall fails c w = (w', r) -> length (calls w') = S (length (calls w)).
Proof.
  unfold storageCall. destruct (fails (calls w) c); intros [= <- _]; reflexivity.
Qed.

Lemma storageCall_logNotShorter c : respects logNotShorter (storageCall fails c).
Proof.
  intros w w' r H. apply storageCall_logs in H. unfold logNotShorter. lia.
Qed.

Ltac logNotShorter_base :=
  first [apply storageCall_logNotShorter | unfold logNotShorter; simpl; lia].

Lemma setItem_logs k write w w' r :
  setItem fails k write w = (w', r) -> length (calls w) < length (calls w').
Proof.
  unfold setItem. intros H.
  apply bind_cases in H as [(w1 & [] & Hc & [= <- _]) | [(e & Hc & _) | (Hc & _)]];
    apply storageCall_logs in Hc; simpl; lia.
Qed.

Lemma bind_logs {A B} (m : M A) (f : A -> M B) w w' r :
  (forall w0 w1 r0, m w0 = (w1, r0) -> length (calls w0) < length (calls w1)) ->
  (forall a, respects logNotShorter (f a)) ->
  bind m f w = (w', r) -> length (calls w) < length (calls w').
Proof.
  intros Hm Hf H.
  apply bind_cases in H as [(w1 & a & E1 & E2) | [(e & E1 & _) | (E1 & _)]].
  - apply Hm in E1. apply Hf in E2. unfold logNotShorter in E2. lia.
  - apply Hm in E1. exact E1.
  - apply Hm in E1. exact E1.
Qed.

Lemma savePass_logs_a_call w w' r :
  savePass fails fuel w = (w', r) -> length (calls w) < length (calls w').
Proof.
  unfold savePass. intros H.
  apply bind_cases in H as [(w1 & files & [= <- _] & H) | [(e & [=] & _) | ([=] & _)]].
  revert H. apply bind_logs; [intros w0 w1 r0; apply setItem_logs |].
  frame logNotShorter_base.
Qed.

Lemma quietAfter_reliable bound w :
  quietAfter fails bound -> bound <= length (calls w) ->
  reliableSince fails (calls w).
Proof.
  intros Hq Hb l c. apply Hq. rewrite length_app. lia.
Qed.

Lemma saveCachedData_stack_irrelevant bound :
  quietAfter fails bound ->
  forall d w stack1 stack2,
    bound <= length (calls w) + d -> d <= stack1 -> d <= stack2 ->
    saveCachedData fails fuel stack1 w = saveCachedData fails fuel stack2 w.
Proof.
  intros Hq. induction d as [| d IH]; intros w stack1 stack2 Hb H1 H2.
  - rewrite !saveCachedData_run
      by (apply (quietAfter_reliable bound); [exact Hq | lia]).
    reflexivity.
  - destruct (savePass fails fuel w) as [w1 [[[] | e] |]] eqn:E.
    + destruct stack1, stack2; simpl;
        rewrite !(tryCatch_run _ _ _ _ _ E); reflexivity.
    + destruct stack1 as [| stack1]; [lia |].
      destruct stack2 as [| stack2]; [lia |]. simpl.
      rewrite !(tryCatch_throws _ _ _ _ _ E), !saveRetry_run. cbv zeta.
      apply savePass_logs_a_call in E.
      rewrite (IH _ stack1 stack2); [reflexivity | simpl; lia | lia | lia].
    + destruct stack1, stack2; simpl; unfold tryCatch; rewrite E; reflexivity.
Qed.

End Depth.

(** C9, where the bound of the claim fails: with three records in the
    cache and a store with room for two chunks, the first pass throws and
    the persist ends with one record in memory; two of three records are
    gone, more than 40%. *)
Lemma failed_persist_can_remove_more_than_40_percent :
  ~ (forall fails fuel stack w w1 e,
       savePass fails fuel w = (w1, Throws e) ->
       let n := length (cachedData w) in
       let final := cachedData (fst (saveCachedData fails fuel stack w)) in
       5 * (n - length final) <= 2 * n).
Proof.
  intros H.
  specialize (H roomForTwo 0 5 (sampleWorld (sampleCache (js "a.csv") 3))).
  vm_compute in H. specialize (H _ _ eq_refl). lia.
Qed.

(** C9 (amended). If the first pass of a persist throws, with [n] records
    in the cache ([n] below [2^32], as the length of an array is), the
    [catch] block replaces the in-memory cache itself by
    its last [floor(3n/5)] records (by the whole cache when that number is
    zero, that is for [n <= 1]) and runs the whole save again on it.  So a
    failed pass removes [n - floor(3n/5)] records from the memory of the
    session, which is 40% of them or more (two of three, one of two), and
    never all of them; a retry that throws in turn removes records again,
    and what is left at the end is always a suffix of what the first retry
    kept. *)
Theorem failed_pass_prunes_memory fails fuel stack (w w1 : World) e :
  savePass fails fuel w = (w1, Throws e) ->
  (Z.of_nat (length (cachedData w)) < 2 ^ 32)%Z ->
  let data := cachedData w in
  let n := length data in
  let kept := if 3 * n / 5 =? 0 then data else drop (n - 3 * n / 5) data in
  let retried := setCachedData kept w1 in
  cachedData w1 = data
  /\ saveCachedData fails fuel 0 w = (retried, Returns tt)
  /\ saveCachedData fails fuel (S stack) w = saveCachedData fails fuel stack retried
  /\ length kept = (if n <=? 1 then n else 3 * n / 5)
  /\ (2 <= n -> 2 * n <= 5 * (n - length kept) < 2 * n + 5)
  /\ (1 <= n -> 1 <= length kept)
  /\ cachedData (fst (saveCachedData fails fuel stack w)) `suffix_of` kept.
Proof.
  intros E Hn data n kept retried.
  assert (cachedData w1 = data) as Hdata
    by (apply (savePass_sameMemory fails fuel _ _ _ E)).
  assert (Array_slice (- Z.of_nat (floorMul (length (cachedData w1)) double_0_6)) None
            (cachedData w1) = kept) as Hkept.
  { rewrite Hdata. fold n. rewrite floorMul_0_6 by exact Hn.
    rewrite Array_slice_last. subst kept. fold n.
    destruct (3 * n / 5); reflexivity. }
  assert (saveCachedData fails fuel 0 w = (retried, Returns tt)) as H0.
  { simpl. rewrite (tryCatch_throws _ _ _ _ _ E), saveRetry_run. cbv zeta.
    rewrite Hkept. reflexivity. }
  assert (forall stack', saveCachedData fails fuel (S stack') w
            = saveCachedData fails fuel stack' retried) as HS.
  { intros stack'. cbn [saveCachedData].
    rewrite (tryCatch_throws _ _ _ _ _ E), saveRetry_run. cbv zeta.
    rewrite Hkept. fold retried.
    pose proof (saveCachedData_no_throw fails fuel stack' retried) as Hno.
    destruct (saveCachedData fails fuel stack' retried) as [w' [[[] | e'] |]];
      [reflexivity | | reflexivity].
    exfalso. apply (Hno w' e'). reflexivity. }
  assert (length kept = (if n <=? 1 then n else 3 * n / 5)) as Hlen.
  { subst kept. pose proof (Nat.div_mod_eq (3 * n) 5) as Hd.
    pose proof (Nat.mod_upper_bound (3 * n) 5 ltac:(lia)) as Hm.
    destruct (Nat.leb_spec n 1).
    - replace (3 * n / 5) with 0 by lia. reflexivity.
    - destruct (Nat.eqb_spec (3 * n / 5) 0); [lia |].
      rewrite length_drop. fold n. lia. }
  split; [exact Hdata |]. split; [exact H0 |]. split; [apply HS |].
  split; [exact Hlen |].
  pose proof (Nat.div_mod_eq (3 * n) 5) as Hd.
  pose proof (Nat.mod_upper_bound (3 * n) 5 ltac:(lia)) as Hm.
  split; [| split].
  - intros H2. rewrite Hlen. destruct (Nat.leb_spec n 1); lia.
  - intros H1. rewrite Hlen. destruct (Nat.leb_spec n 1); lia.
  - destruct stack as [| stack'].
    + rewrite H0. reflexivity.
    + rewrite HS.
      destruct (saveCachedData fails fuel stack' retried) as [w' r] eqn:E'.
      apply saveCachedData_cachePruned in E'. exact E'.
Qed.

Lemma failed_pass_prunes_memory_witness :
  let w := sampleWorld (sampleCache (js "a.csv") 3) in
  let w1 := fst (savePass roomForTwo 0 w) in
  savePass roomForTwo 0 w = (w1, Throws StorageError)
  /\ (Z.of_nat (length (cachedData w)) < 2 ^ 32)%Z
  /\ saveCachedData roomForTwo 0 0 w
     = (setCachedData [sampleRecord (js "a.csv") 2] w1, Returns tt).
Proof.
  intros w w1.
  assert (savePass roomForTwo 0 w = (w1, Throws StorageError)) as E
    by (vm_compute; reflexivity).
  assert (Z.of_nat (length (cachedData w)) < 2 ^ 32)%Z as Hn
    by (vm_compute; reflexivity).
  split; [exact E |]. split; [exact Hn |].
  apply (failed_pass_prunes_memory roomForTwo 0 0 w w1 StorageError E Hn).
Defined.

(** ** Whether a persist ends *)

#[local] Instance countWithinBudget_preorder : PreOrder countWithinBudget.
Proof.
  split.
  - intros w. left. reflexivity.
  - intros w1 w2 w3 [H1 | H1] [H2 | H2]; unfold countWithinBudget.
    + left. congruence.
    + right. exact H2.
    + right. destruct H1 as (k & Hk & E). exists k. split; [exact Hk | congruence].
    + right. exact H2.
Qed.

Section PersistEnds.

Variable fails : list call -> call -> bool.
Variable fuel : nat.

Ltac budget_base :=
  first [ intros ? ? ?; unfold storageCall;
          match goal with |- context [fails ?l ?c] => destruct (fails l c) end;
          intros [= <- _]; left; reflexivity
        | left; reflexivity
        | right; eexists; split; [apply partition_bound | reflexivity] ].

(** The chunk count a pass leaves is the one it found or the number of
    chunks it wrote, which is at most [MAX_CHUNKS]. *)
Lemma savePass_within_budget : respects countWithinBudget (savePass fails fuel).
Proof. frame budget_base. Qed.

Lemma finishes_bind {A B} (m : M A) (f : A -> M B) :
  finishes m -> (forall a, finishes (f a)) -> finishes (bind m f).
Proof.
  intros Hm Hf w w' H.
  apply bind_cases in H as [(w1 & a & _ & E) | [(e & _ & [=]) | (E & _)]].
  - exact (Hf a _ _ E).
  - exact (Hm _ _ E).
Qed.

Lemma finishes_tryCatch {A} (m : M A) (h : exn -> M A) :
  finishes m -> (forall e, finishes (h e)) -> finishes (tryCatch m h).
Proof.
  intros Hm Hh w w'. unfold tryCatch.
  destruct (m w) as [w1 [[a | e] |]] eqn:E; intros H.
  - discriminate H.
  - exact (Hh e _ _ H).
  - exact (Hm _ _ E).
Qed.

Lemma finishes_storageCall c : finishes (storageCall fails c).
Proof.
  intros w w'. unfold storageCall. destruct (fails (calls w) c); discriminate.
Qed.

Lemma finishes_setItem k write : finishes (setItem fails k write).
Proof.
  apply finishes_bind; [apply finishes_storageCall |]. intros _ w w'. discriminate.
Qed.

Lemma finishes_removeItem k write : finishes (removeItem fails k write).
Proof.
  apply finishes_bind; [apply finishes_storageCall |]. intros _ w w'. discriminate.
Qed.

Lemma finishes_getItem {A} k (read : Storage -> A) : finishes (getItem fails k read).
Proof.
  apply finishes_bind; [apply finishes_storageCall |]. intros _ w w'. discriminate.
Qed.

Lemma finishes_forRange from n (body : nat -> M unit) :
  (forall i, finishes (body i)) -> finishes (forRange from n body).
Proof.
  intros Hbody. revert from. induction n as [| n IH]; intros from; cbn [forRange].
  - intros w w'. discriminate.
  - apply finishes_bind; [apply Hbody | intros _; apply IH].
Qed.

Lemma finishes_saveChunk chunk index : finishes (saveChunk fails chunk index).
Proof.
  apply finishes_tryCatch; [| intros _]; apply finishes_setItem.
Qed.

Lemma finishes_writeLoop index chunks :
  finishes (forEachFrom index chunks (saveChunk fails)).
Proof.
  revert index. induction chunks as [| c cs IH]; intros index; cbn [forEachFrom].
  - intros w w'. discriminate.
  - apply finishes_bind; [apply finishes_saveChunk | intros _; apply IH].
Qed.

(** A pass ends when the chunk count it finds lets the removal loop end. *)
Lemma savePass_ends w w' :
  persistedCount (localStorage w) <> Endless ->
  savePass fails fuel w <> (w', Running).
Proof.
  intros Hcount H. unfold savePass in H.
  apply bind_cases in H as [(w0 & files & [= <- <-] & H) | [(e & _ & [=]) | ([=] & _)]].
  apply bind_cases in H as [(w1 & [] & E1 & H) | [(e & _ & [=]) | (E & _)]];
    [| exact (finishes_setItem _ _ _ _ E)].
  apply setItem_inv in E1.
  apply bind_cases in H as [(w2 & stored & E2 & H) | [(e & _ & [=]) | (E & _)]];
    [| exact (finishes_getItem _ _ _ _ E)].
  apply getItem_inv in E2 as [E2 Hstored].
  assert (persistedCount (localStorage w) = iterations (parseInt (orZero stored))) as Hc.
  { unfold persistedCount. rewrite Hstored. subst w1. reflexivity. }
  cbv zeta in H. rewrite <- Hc in H.
  destruct (persistedCount (localStorage w)) as [n |]; [| congruence].
  revert H. apply finishes_bind.
  - apply finishes_forRange. intros i. apply finishes_removeItem.
  - intros _. apply finishes_bind; [intros v v'; discriminate |].
    intros data. cbv zeta. apply finishes_bind; [apply finishes_writeLoop |].
    intros _. apply finishes_setItem.
Qed.

(** A chunk count that lets the loops end is followed by one that does. *)
Lemma countWithinBudget_finite w w' :
  countWithinBudget w w' ->
  persistedCount (localStorage w) <> Endless ->
  persistedCount (localStorage w') <> Endless.
Proof.
  intros [E | (k & Hk & E)] Hcount; unfold persistedCount in *; rewrite E.
  - exact Hcount.
  - rewrite iterations_toString; [discriminate |].
    unfold MAX_CHUNKS in Hk. lia.
Qed.

(** A persist returns when the chunk count it finds lets its removal loop
    end, whatever the store does. *)
Lemma saveCachedData_ends stack w :
  persistedCount (localStorage w) <> Endless ->
  exists w', saveCachedData fails fuel stack w = (w', Returns tt).
Proof.
  revert w. induction stack as [| stack IH]; intros w Hcount; simpl; unfold tryCatch;
    destruct (savePass fails fuel w) as [w1 [[[] | e] |]] eqn:E;
    try (exists w1; reflexivity);
    try (exfalso; exact (savePass_ends _ _ Hcount E)).
  - rewrite saveRetry_run. eexists. reflexivity.
  - rewrite saveRetry_run. cbv zeta.
    edestruct IH as [w' ->]; [| eexists; reflexivity].
    cbn [localStorage setCachedData].
    apply savePass_within_budget in E.
    exact (countWithinBudget_finite _ _ E Hcount).
Qed.

(** A persist that is still running found a chunk count above [2^53]. *)
Lemma saveCachedData_running stack w w' :
  saveCachedData fails fuel stack w = (w', Running) ->
  persistedCount (localStorage w) = Endless.
Proof.
  intros E. destruct (persistedCount (localStorage w)) as [n |] eqn:Hcount;
    [| reflexivity].
  destruct (saveCachedData_ends stack w) as [w1 E1]; [congruence |].
  rewrite E1 in E. discriminate E.
Qed.

End PersistEnds.

(** C3, where the claim fails.  The store holds the chunk count
    [99999999999999999999], which [parseInt] gives as a double above
    [2^53]; no call throws.  The index of the removal loop stops growing at
    [2^53], where [i++] leaves it as it is, and stays below the count: the
    persist is still running after any number of turns and does not
    return. *)
Lemma persist_does_not_end_on_a_huge_chunk_count :
  ~ (forall fails stack w,
       exists fuel w', saveCachedData fails fuel stack w = (w', Returns tt)).
Proof.
  intros H.
  set (st := {| filesItem_ := None;
                countItem := Some (js "99999999999999999999");
                chunkItems := ∅ |}).
  destruct (H neverFails 0 (freshProcess st [])) as (fuel & w' & E).
  assert (reliableSince neverFails (calls (freshProcess st []))) as Hrel
    by (intros l c; reflexivity).
  rewrite (saveCachedData_run neverFails fuel 0 _ Hrel) in E.
  destruct (savePass_endless neverFails fuel (freshProcess st []) Hrel) as (w1 & E1 & _).
  - vm_compute. reflexivity.
  - rewrite E1 in E. discriminate E.
Qed.

(** C3 (amended).  For every state of the module and of [localStorage],
    every behaviour of the store (any call may throw, at any point and any
    number of times) and every depth of stack left, [saveCachedData] never
    passes an exception to its caller, and it returns normally unless the
    chunk count it finds in the store is a number above [2^53], the one
    case in which its removal loop may not end.  The cache it leaves in
    memory is a suffix of the one it was given. *)
Theorem saveCachedData_never_throws fails fuel stack (w : World) :
  exists w' r,
    saveCachedData fails fuel stack w = (w', r)
    /\ (r = Returns tt
        \/ (r = Running /\ persistedCount (localStorage w) = Endless))
    /\ (forall e, r <> Throws e)
    /\ cachedData w' `suffix_of` cachedData w.
Proof.
  destruct (saveCachedData fails fuel stack w) as [w' r] eqn:E.
  exists w', r. split; [reflexivity |].
  pose proof (saveCachedData_cachePruned fails fuel stack _ _ _ E) as Hsuffix.
  destruct r as [[[] | e] |].
  - split; [left; reflexivity |]. split; [discriminate | exact Hsuffix].
  - exfalso. exact (saveCachedData_no_throw fails fuel stack w w' e E).
  - split; [right; split; [reflexivity |] |].
    + exact (saveCachedData_running fails fuel stack w w' E).
    + split; [discriminate | exact Hsuffix].
Qed.

(** ** Records made by the ingestion *)

Lemma jstring_eqb_eq a b : jstring_eqb a b = true <-> a = b.
Proof. unfold jstring_eqb. apply bool_decide_eq_true. Qed.

Lemma getProp_setProp_eq k v o : getProp k (setProp k v o) = v.
Proof.
  induction o as [| [k' v'] o IH]; simpl.
  - unfold jstring_eqb. rewrite bool_decide_eq_true_2; reflexivity.
  - destruct (jstring_eqb k k') eqn:E; simpl; rewrite E; [reflexivity | exact IH].
Qed.

Lemma getProp_setProp_ne k k' v o :
  k <> k' -> getProp k (setProp k' v o) = getProp k o.
Proof.
  intros Hne. induction o as [| [k0 v0] o IH]; simpl.
  - unfold jstring_eqb. rewrite bool_decide_eq_false_2; [reflexivity | exact Hne].
  - destruct (jstring_eqb k' k0) eqn:E; simpl.
    + apply jstring_eqb_eq in E. subst k0.
      unfold jstring_eqb. rewrite !bool_decide_eq_false_2; [reflexivity | exact Hne].
    + rewrite IH. reflexivity.
Qed.

Lemma k_source_not_k_content : k_source <> k_content.
Proof. discriminate. Qed.

(** The record either path builds from a row: [source] then [content]
    are set, whatever columns the row has. *)
Lemma made_record_props row source content :
  let o := setProp k_content (VStr content) (setProp k_source (VStr source) row) in
  getProp k_source o = VStr source /\ getProp k_content o = VStr content.
Proof.
  split.
  - rewrite getProp_setProp_ne by apply k_source_not_k_content.
    apply getProp_setProp_eq.
  - apply getProp_setProp_eq.
Qed.

Lemma sourceIs_made_record row source content :
  sourceIs source
    (ERecord (setProp k_content (VStr content) (setProp k_source (VStr source) row)))
  = true.
Proof.
  unfold sourceIs. destruct (made_record_props row source content) as [-> _].
  simpl. unfold jstring_eqb. rewrite bool_decide_eq_true_2; reflexivity.
Qed.

Lemma processExcelFile_inv file data :
  processExcelFile file = Returns data ->
  exists jsonData,
    rows file = Some jsonData
    /\ data =
       List.map
         (fun row =>
            ERecord (setProp k_content (VStr (describe row))
                       (setProp k_source (VStr (name file)) row)))
         (List.filter hasValue jsonData).
Proof.
  unfold processExcelFile. destruct (rows file) as [[| row jsonData] |]; try discriminate.
  intros [= <-]. eexists. split; reflexivity.
Qed.

Lemma processCsvFile_inv file fetched data :
  processCsvFile file fetched = Returns data ->
  exists parsed,
    match file with inl f => rows f | inr _ => fetched end = Some parsed
    /\ data =
       imap
         (fun index row =>
            ERecord
              (setProp k_content (VStr (sourceRef index ++ describe row))
                 (setProp k_source
                    (VStr match file with inl f => name f | inr _ => PharmAlchemy end)
                    row)))
         (List.filter hasValue parsed).
Proof.
  unfold processCsvFile.
  destruct (match file with inl f => rows f | inr _ => fetched end)
    as [[| row parsed] |]; try discriminate.
  intros [= <-]. eexists. split; reflexivity.
Qed.

Lemma imap_Forall {A B} (P : B -> Prop) (f : nat -> A -> B) (l : list A) :
  (forall i x, P (f i x)) -> Forall P (imap f l).
Proof.
  revert f. induction l as [| x l IH]; intros f H; simpl.
  - constructor.
  - constructor; [apply H | apply IH; intros; apply H].
Qed.

Lemma processExcelFile_sources file data :
  processExcelFile file = Returns data ->
  Forall (fun e => sourceIs (name file) e = true) data.
Proof.
  intros H. apply processExcelFile_inv in H as (jsonData & _ & ->).
  apply Forall_map. apply Forall_forall. intros row _.
  apply sourceIs_made_record.
Qed.

Lemma processCsvFile_sources file fetched data :
  processCsvFile file fetched = Returns data ->
  Forall
    (fun e =>
       sourceIs match file with inl f => name f | inr _ => PharmAlchemy end e = true)
    data.
Proof.
  intros H. apply processCsvFile_inv in H as (parsed & _ & ->).
  apply imap_Forall. intros i row. apply sourceIs_made_record.
Qed.

Section AsciiMarker.

#[local] Existing Instance asciiCase.

(** C1, on the input the claim does not hold for: an uploaded CSV file of
    one row.  [processFile] hands it to [processCsvFile], which puts the
    marker in front of the content of every row it is given. *)
Lemma uploaded_csv_receives_the_marker :
  let row := [(js "x", VStr (js "1"))] in
  let file := {| name := js "a.csv"; rows := Some [row] |} in
  exists o,
    snd (processFile neverFails 0 0 file (sampleWorld [])) = Returns [ERecord o]
    /\ getProp k_source o = VStr (js "a.csv")
    /\ getProp k_content o = VStr (sourceRef 0 ++ describe row)
    /\ getProp k_content o <> VStr (describe row).
Proof.
  eexists. split; [vm_compute; reflexivity |].
  split; [reflexivity |]. split; [reflexivity |]. discriminate.
Qed.

End AsciiMarker.

(** C1 (amended). Every record [processCsvFile] produces, from the data
    set of the backend or from an uploaded CSV file alike, has a [content]
    that starts with the marker [【N:1†source】], [N] being the one-based
    position of the record in the batch (the rows that hold a value), and
    a [source] that is the backend identifier for the backend and the file
    name for an upload.  The records [processExcelFile] produces from an
    uploaded spreadsheet have the file name as [source] and a [content]
    without marker. *)
Theorem marker_follows_the_csv_path :
  (forall (file : File + jstring) fetched data,
      processCsvFile file fetched = Returns data ->
      exists parsed,
        match file with inl f => rows f | inr _ => fetched end = Some parsed
        /\ length data = length (List.filter hasValue parsed)
        /\ forall index row,
             List.filter hasValue parsed !! index = Some row ->
             exists o,
               data !! index = Some (ERecord o)
               /\ getProp k_content o
                  = VStr ([12304%N] ++ toString (index + 1) ++ js ":1"
                            ++ [8224%N] ++ js "source" ++ [12305%N]
                            ++ describe row)
               /\ getProp k_source o
                  = VStr match file with inl f => name f | inr _ => PharmAlchemy end)
  /\ (forall (file : File) data,
         processExcelFile file = Returns data ->
         exists jsonData,
           rows file = Some jsonData
           /\ length data = length (List.filter hasValue jsonData)
           /\ forall index row,
                List.filter hasValue jsonData !! index = Some row ->
                exists o,
                  data !! index = Some (ERecord o)
                  /\ getProp k_content o = VStr (describe row)
                  /\ getProp k_source o = VStr (name file)).
Proof.
  split.
  - intros file fetched data H.
    apply processCsvFile_inv in H as (parsed & Hparsed & ->).
    exists parsed. split; [exact Hparsed |]. split; [apply length_imap |].
    intros index row Hrow. eexists. split.
    + rewrite list_lookup_imap, Hrow. reflexivity.
    + split.
      * rewrite getProp_setProp_eq. unfold sourceRef.
        rewrite <- !app_assoc. reflexivity.
      * rewrite getProp_setProp_ne by apply k_source_not_k_content.
        apply getProp_setProp_eq.
  - intros file data H.
    apply processExcelFile_inv in H as (jsonData & Hrows & ->).
    exists jsonData. split; [exact Hrows |]. split; [apply length_map |].
    intros index row Hrow. eexists. split.
    + rewrite list_lookup_fmap, Hrow. reflexivity.
    + apply and_comm. apply made_record_props.
Qed.

Lemma marker_follows_the_csv_path_witness :
  let row := [(js "drug", VStr (js "Aspirin"))] in
  processCsvFile (inr (js "ttd_drug_disease.csv")) (Some [row])
  = Returns
      [ERecord [(js "drug", VStr (js "Aspirin"));
                (k_source, VStr PharmAlchemy);
                (k_content, VStr (sourceRef 0 ++ js "drug: Aspirin"))]]
  /\ exists o,
       [ERecord [(js "drug", VStr (js "Aspirin"));
                 (k_source, VStr PharmAlchemy);
                 (k_content, VStr (sourceRef 0 ++ js "drug: Aspirin"))]] !! 0
       = Some (ERecord o)
       /\ getProp k_source o = VStr PharmAlchemy.
Proof.
  intros row.
  assert (processCsvFile (inr (js "ttd_drug_disease.csv")) (Some [row])
          = Returns
              [ERecord [(js "drug", VStr (js "Aspirin"));
                        (k_source, VStr PharmAlchemy);
                        (k_content, VStr (sourceRef 0 ++ js "drug: Aspirin"))]]) as E
    by reflexivity.
  split; [exact E |].
  destruct (proj1 marker_follows_the_csv_path _ _ _ E) as (parsed & Hp & _ & Hrec).
  injection Hp as <-.
  destruct (Hrec 0 row eq_refl) as (o & Ho & _ & Hs).
  exists o. split; [exact Ho | exact Hs].
Defined.

(** ** Replacing the batch of a file *)

Lemma withoutSource_inv s data kept :
  withoutSource s data = Returns kept ->
  kept = List.filter (fun e => negb (sourceIs s e)) data.
Proof.
  unfold withoutSource. revert kept.
  induction data as [| e data IH]; intros kept; simpl.
  - intros [= <-]. reflexivity.
  - destruct e as [| o]; simpl; [discriminate |].
    destruct (filterM _ data) as [r | err]; [| discriminate].
    intros [= <-]. rewrite negb_involutive, (IH r eq_refl). reflexivity.
Qed.

Lemma filter_all {A} (p : A -> bool) l :
  Forall (fun x => p x = true) l -> List.filter p l = l.
Proof.
  induction 1 as [| x l Hx _ IH]; simpl; [reflexivity |].
  rewrite Hx, IH. reflexivity.
Qed.

Lemma filter_none {A} (p : A -> bool) l :
  Forall (fun x => p x = false) l -> List.filter p l = [].
Proof.
  induction 1 as [| x l Hx _ IH]; simpl; [reflexivity |].
  rewrite Hx, IH. reflexivity.
Qed.

Lemma Forall_filter_true {A} (p : A -> bool) l :
  Forall (fun x => p x = true) (List.filter p l).
Proof.
  induction l as [| x l IH]; simpl; [constructor |].
  destruct (p x) eqn:E; [constructor; assumption | assumption].
Qed.

Section Ingest.

Variable fails : list call -> call -> bool.
Variable fuel maxArguments : nat.
Context {stringCase : StringCase}.

(** What an ingest that returns has done. *)
Lemma processFile_inv stack file w w' data :
  processFile fails fuel stack file w = (w', Returns data) ->
  Forall (fun e => sourceIs (name file) e = true) data
  /\ (processExcelFile file = Returns data
      \/ processCsvFile (inl file) None = Returns data)
  /\ (exists files, registered (name file) (userUploadedFiles w) = Returns files)
  /\ saveCachedData fails fuel stack (ingested file data w) = (w', Returns tt).
Proof.
  unfold processFile. intros H.
  apply bind_inv in H as [(w1 & data' & E1 & H) | (e & _ & [=])].
  assert (w1 = w
          /\ Forall (fun e => sourceIs (name file) e = true) data'
          /\ (processExcelFile file = Returns data'
              \/ processCsvFile (inl file) None = Returns data'))
    as (-> & Hsrc & Hparse).
  { destruct (_ || _).
    - injection E1 as <- E1. split; [reflexivity |].
      split; [apply processExcelFile_sources; exact E1 | auto].
    - destruct (jstring_eqb _ (js "csv")); [| discriminate E1].
      injection E1 as <- E1. split; [reflexivity |].
      split; [apply (processCsvFile_sources (inl file) None); exact E1 | auto]. }
  apply bind_inv in H as [(w2 & old & [= <- <-] & H) | (e & [=] & _)].
  apply bind_inv in H as [(w2 & kept & E2 & H) | (e & _ & [=])].
  injection E2 as <- E2. apply withoutSource_inv in E2. subst kept.
  apply bind_inv in H as [(w3 & [] & [= <-] & H) | (e & [=] & _)].
  apply bind_inv in H as [(w4 & [] & [= <-] & H) | (e & [=] & _)].
  apply bind_inv in H as [(w5 & files & [= <- <-] & H) | (e & [=] & _)].
  apply bind_inv in H as [(w6 & [] & E6 & H) | (e & _ & [=])].
  apply bind_inv in H as [(w7 & [] & E7 & [= <- <-]) | (e & _ & [=])].
  split; [exact Hsrc |]. split; [exact Hparse |].
  cbn [userUploadedFiles setCachedData cachedData] in E6.
  assert ((exists files, registered (name file) (userUploadedFiles w) = Returns files)
          /\ w6 = ingested file data' w) as [Hreg ->].
  { unfold ingested, registered.
    destruct (userUploadedFiles w) as [items | s | tag] eqn:Hfiles.
    - split; [eexists; reflexivity |].
      destruct (bool_decide (IStr (name file) ∈ items)); injection E6 as <-;
        unfold setUserUploadedFiles, setCachedData; cbn; rewrite ?Hfiles; reflexivity.
    - destruct (includes (name file) s); [| discriminate E6].
      split; [eexists; reflexivity |]. injection E6 as <-.
      unfold setCachedData; cbn; rewrite Hfiles; reflexivity.
    - discriminate E6. }
  split; [exact Hreg | exact E7].
Qed.

(** The cache an ingest leaves when the first pass of its persist runs to
    its end. *)
Lemma processFile_cache_pass stack file w w' data :
  processFile fails fuel stack file w = (w', Returns data) ->
  passCompletes fails fuel (ingested file data w) ->
  cachedData w'
  = List.filter (fun e => negb (sourceIs (name file) e)) (cachedData w) ++ data
  /\ Forall (fun e => sourceIs (name file) e = true) data.
Proof.
  intros H [w'' Hpass].
  apply processFile_inv in H as (Hsrc & _ & _ & Hsave).
  split; [| exact Hsrc].
  rewrite (saveCachedData_of_pass fails fuel stack _ _ Hpass) in Hsave.
  injection Hsave as <-.
  apply savePass_sameMemory in Hpass as [-> _]. reflexivity.
Qed.

(** The cache an ingest leaves when no call of its persist throws. *)
Lemma processFile_cache stack file w w' data :
  processFile fails fuel stack file w = (w', Returns data) ->
  reliableSince fails (calls w) ->
  cachedData w'
  = List.filter (fun e => negb (sourceIs (name file) e)) (cachedData w) ++ data
  /\ Forall (fun e => sourceIs (name file) e = true) data.
Proof.
  intros H Hrel.
  apply processFile_inv in H as (Hsrc & _ & _ & Hsave).
  split; [| exact Hsrc].
  rewrite saveCachedData_run in Hsave by exact Hrel.
  apply savePass_sameMemory in Hsave as [-> _]. reflexivity.
Qed.

Lemma replaced_cache f (old data : list DataEntry) :
  Forall (fun e => sourceIs f e = true) data ->
  let cache := List.filter (fun e => negb (sourceIs f e)) old ++ data in
  List.filter (sourceIs f) cache = data
  /\ List.filter (fun e => negb (sourceIs f e)) cache
     = List.filter (fun e => negb (sourceIs f e)) old.
Proof.
  intros Hdata cache. subst cache. rewrite !List.filter_app. split.
  - rewrite (filter_all _ data Hdata).
    rewrite filter_none; [reflexivity |].
    eapply Forall_impl; [apply Forall_filter_true |].
    intros e He. simpl in He. apply negb_true_iff. exact He.
  - rewrite (filter_none _ data).
    + rewrite app_nil_r. apply filter_all. apply Forall_filter_true.
    + eapply Forall_impl; [exact Hdata |].
      intros e He. simpl. rewrite He. reflexivity.
Qed.

End Ingest.

Section AsciiReingest.

#[local] Existing Instance asciiCase.

(** C6, on the run the claim does not hold for: the file [f.csv], of three
    rows, ingested twice into a store with room for two chunks.  Both
    ingests return their three records, and each persist, whose first pass
    throws, leaves one record in the cache: after the second ingest one
    record has the source [f.csv], not three. *)
Lemma reingest_with_failed_persist_loses_records :
  ~ (forall fails fuel stack file1 file2 w w1 w2 data1 data2,
       name file1 = name file2 ->
       processFile fails fuel stack file1 w = (w1, Returns data1) ->
       processFile fails fuel stack file2 w1 = (w2, Returns data2) ->
       length (List.filter (sourceIs (name file2)) (cachedData w2)) = length data2).
Proof.
  intros H.
  set (file :=
         {| name := js "f.csv";
            rows := Some (List.map (fun n => [(js "id", VStr (toString n))]) (seq 0 3)) |}).
  set (r1 := processFile roomForTwo 0 5 file (sampleWorld [])).
  set (r2 := processFile roomForTwo 0 5 file (fst r1)).
  specialize (H roomForTwo 0 5 file file (sampleWorld []) (fst r1) (fst r2)
                (List.map (sampleRecordOf file) (seq 0 3))
                (List.map (sampleRecordOf file) (seq 0 3)) eq_refl).
  vm_compute in H. specialize (H eq_refl eq_refl). discriminate H.
Qed.

End AsciiReingest.

(** C6 (amended). Take two successive ingests of files of the same name
    [f] that both return, and suppose the first pass of the persist of the
    second one runs to its end: no exception reaches the [catch] block of
    [saveCachedData] (a write of a chunk may throw once, its reduced chunk
    being written in its place).  After the second ingest the cached
    records with [source = f] are exactly the records it produced, so
    their number is the record count of the second ingest alone, and the
    records with another source are those the cache held before the second
    ingest, in the same order; they are those it held before the first
    ingest when the first pass of the persist of the first ingest ran to
    its end too. *)
Theorem reingest_replaces_batch {stringCase : StringCase} fails fuel stack
    file1 file2 (w w1 w2 : World) data1 data2 :
  name file1 = name file2 ->
  processFile fails fuel stack file1 w = (w1, Returns data1) ->
  processFile fails fuel stack file2 w1 = (w2, Returns data2) ->
  passCompletes fails fuel (ingested file2 data2 w1) ->
  let f := name file2 in
  List.filter (sourceIs f) (cachedData w2) = data2
  /\ length (List.filter (sourceIs f) (cachedData w2)) = length data2
  /\ List.filter (fun e => negb (sourceIs f e)) (cachedData w2)
     = List.filter (fun e => negb (sourceIs f e)) (cachedData w1)
  /\ (passCompletes fails fuel (ingested file1 data1 w) ->
      List.filter (fun e => negb (sourceIs f e)) (cachedData w2)
      = List.filter (fun e => negb (sourceIs f e)) (cachedData w)).
Proof.
  intros Hname H1 H2 Hpass f.
  destruct (processFile_cache_pass fails fuel stack file2 w1 w2 data2 H2 Hpass)
    as [E2 Hsrc2].
  destruct (replaced_cache f (cachedData w1) data2 Hsrc2) as [Hf Hother].
  fold f in E2. rewrite <- E2 in Hf, Hother.
  split; [exact Hf |]. split; [rewrite Hf; reflexivity |].
  split; [exact Hother |].
  intros Hpass0. rewrite Hother.
  destruct (processFile_cache_pass fails fuel stack file1 w w1 data1 H1 Hpass0)
    as [E1 Hsrc1].
  rewrite Hname in E1, Hsrc1. fold f in E1, Hsrc1.
  destruct (replaced_cache f (cachedData w) data1 Hsrc1) as [_ Hother1].
  rewrite E1. exact Hother1.
Qed.

Section AsciiReingestWitness.

#[local] Existing Instance asciiCase.

Lemma reingest_replaces_batch_witness :
  let file :=
    {| name := js "f.csv";
       rows := Some (List.map (fun n => [(js "id", VStr (toString n))]) (seq 0 3)) |} in
  let batch := List.map (sampleRecordOf file) (seq 0 3) in
  let fails := chunkWriteFailsOnce 1 in
  let w := sampleWorld (sampleCache (js "other.csv") 2) in
  let r1 := processFile fails 0 0 file w in
  let r2 := processFile fails 0 0 file (fst r1) in
  name file = name file
  /\ r1 = (fst r1, Returns batch)
  /\ r2 = (fst r2, Returns batch)
  /\ passCompletes fails 0 (ingested file batch (fst r1))
  /\ List.filter (sourceIs (js "f.csv")) (cachedData (fst r2)) = batch.
Proof.
  intros file batch fails w r1 r2.
  assert (r1 = (fst r1, Returns batch)) as E1 by (vm_compute; reflexivity).
  assert (r2 = (fst r2, Returns batch)) as E2 by (vm_compute; reflexivity).
  assert (passCompletes fails 0 (ingested file batch (fst r1))) as Hpass
    by (eexists; vm_compute; reflexivity).
  split; [reflexivity |]. split; [exact E1 |]. split; [exact E2 |].
  split; [exact Hpass |].
  pose proof (reingest_replaces_batch fails 0 0 file file w (fst r1) (fst r2)
                batch batch eq_refl) as Hreplace.
  exact (proj1 (Hreplace E1 E2 Hpass)).
Defined.

End AsciiReingestWitness.

(** ** The query engine *)

Lemma searchPass_state {stringCase : StringCase} query w : fst (searchPass query w) = w.
Proof.
  unfold searchPass, bind, gets, lift.
  destruct (extractRowsCommand query) as [[t count] |]; [reflexivity |].
  destruct (searchLocalData _ _); reflexivity.
Qed.

Lemma searchPass_ended {stringCase : StringCase} query w :
  exists o, searchPass query w = (w, Ended o).
Proof.
  unfold searchPass, bind, gets, lift.
  destruct (extractRowsCommand query) as [[t count] |]; [eexists; reflexivity |].
  destruct (searchLocalData _ _); eexists; reflexivity.
Qed.

Lemma searchPass_command {stringCase : StringCase} query t count w :
  extractRowsCommand query = Some (t, count) ->
  searchPass query w = (w, rowsResult t (selectRows t count (cachedData w))).
Proof. intros E. unfold searchPass, bind, gets, lift. rewrite E. reflexivity. Qed.

Lemma mapM_readProp k rows :
  Forall (fun e => isRecord e = true) rows ->
  mapM (readProp k) rows = Returns (List.map (propOf k) rows).
Proof.
  induction 1 as [| e rows He _ IH]; simpl; [reflexivity |].
  destruct e as [| o]; [discriminate He |]. simpl. rewrite IH. reflexivity.
Qed.

(** The result of a row command on rows that are records. *)
Lemma rowsResult_records t first rest :
  Forall (fun e => isRecord e = true) (first :: rest) ->
  rowsResult t (first :: rest) =
  Returns
    {| text :=
         VStr (js "Showing "
                 ++ match t with RowsTop => js "first" | RowsBottom => js "last" end
                 ++ js " " ++ toString (length (first :: rest))
                 ++ js " rows from the dataset.");
       foundInKnowledgeBase := true;
       searchDetails :=
         {| totalRecords := length (first :: rest); searchTerms := [];
            conditions := [];
            requestedColumns := columnsOf first; availableColumns := columnsOf first;
            sources := distinct [] (List.map (propOf k_source) (first :: rest)) |} |}.
Proof.
  intros Hrec. unfold rowsResult. rewrite (mapM_readProp _ _ Hrec).
  inversion Hrec as [| e l He _]; subst.
  destruct first as [| o]; [discriminate He |]. reflexivity.
Qed.

Lemma searchKnowledgeBase_command {stringCase : StringCase} query t count w r :
  extractRowsCommand query = Some (t, count) ->
  rowsResult t (selectRows t count (cachedData w)) = Returns r ->
  searchKnowledgeBase query w = (w, Returns r).
Proof.
  intros E Hr. unfold searchKnowledgeBase.
  apply tryCatch_run. rewrite (searchPass_command _ _ _ _ E), Hr. reflexivity.
Qed.

Lemma selectRows_nat t (n : nat) (data : list DataEntry) :
  selectRows t (Some (Z.of_nat n)) data =
  match t with
  | RowsTop => take n data
  | RowsBottom => match n with 0 => data | _ => drop (length data - n) data end
  end.
Proof.
  destruct t; simpl.
  - apply Array_slice_first.
  - apply Array_slice_last.
Qed.

Lemma firstMatch_first ps1 p ps2 query m1 :
  Forall (fun p' => regex p' query = None) ps1 ->
  regex p query = Some m1 ->
  firstMatch (ps1 ++ p :: ps2) query = Some (type_ p, parseInt m1).
Proof.
  intros Hnone Hp. induction Hnone as [| p' ps1 Hp' _ IH]; simpl.
  - rewrite Hp. reflexivity.
  - rewrite Hp'. exact IH.
Qed.

(** *** The count of a row command is a natural number *)

Lemma matchAlt_result words s k c :
  matchAlt words s k = Some c -> exists r, k r = Some c.
Proof.
  induction words as [| w ws IH]; simpl; [discriminate |].
  destruct (matchWord w s) as [rest |]; [| exact IH].
  destruct (k rest) as [c' |] eqn:E; [| exact IH].
  intros [= <-]. exists rest. exact E.
Qed.

Lemma spacesThen_result s k c :
  spacesThen s k = Some c -> exists r, k r = Some c.
Proof.
  induction s as [| x s IH]; simpl; [discriminate |].
  destruct (isWhiteSpace x); [| discriminate].
  destruct (spacesThen s k) as [c' |] eqn:E.
  - intros [= <-]. apply IH. reflexivity.
  - intros H. exists s. exact H.
Qed.

Lemma searchFrom_result p s c :
  searchFrom p s = Some c -> exists s', p s' = Some c.
Proof.
  induction s as [| x s IH]; simpl.
  - destruct (p []) as [c' |] eqn:E; [| discriminate].
    intros [= <-]. exists []. exact E.
  - destruct (p (x :: s)) as [c' |] eqn:E.
    + intros [= <-]. exists (x :: s). exact E.
    + exact IH.
Qed.

Lemma rangeAt_result words s c :
  rangeAt words s = Some c -> exists r, digitsCapture r = Some c.
Proof.
  unfold rangeAt. intros H.
  apply matchAlt_result in H as [r H]. apply spacesThen_result in H. exact H.
Qed.

Lemma verbRangeAt_result words s c :
  verbRangeAt words s = Some c -> exists r, digitsCapture r = Some c.
Proof.
  unfold verbRangeAt. intros H.
  apply matchAlt_result in H as [r H]. apply spacesThen_result in H as [r' H].
  apply rangeAt_result in H. exact H.
Qed.

Lemma isDigit_cases c :
  isDigit c = true ->
  (c = 48 \/ c = 49 \/ c = 50 \/ c = 51 \/ c = 52
   \/ c = 53 \/ c = 54 \/ c = 55 \/ c = 56 \/ c = 57)%N.
Proof.
  unfold isDigit. intros H. apply andb_true_iff in H as [H1 H2].
  apply N.leb_le in H1, H2. lia.
Qed.

Lemma parseInt_digits c d :
  isDigit c = true ->
  parseInt (c :: d) = Some (Z.of_N (N.of_uint (units_uint (c :: d)))).
Proof.
  intros Hc. apply isDigit_cases in Hc.
  repeat (destruct Hc as [-> | Hc]); try subst c; reflexivity.
Qed.

Lemma digitsCapture_count r m1 :
  digitsCapture r = Some m1 -> exists n, parseInt m1 = Some (Z.of_nat n).
Proof.
  unfold digitsCapture. destruct r as [| c r]; simpl; [discriminate |].
  destruct (isDigit c) eqn:Hc; [| discriminate].
  intros [= <-]. rewrite (parseInt_digits _ _ Hc).
  eexists. rewrite N_nat_Z. reflexivity.
Qed.

Lemma firstMatch_inv ps query t count :
  firstMatch ps query = Some (t, count) ->
  exists p m1,
    In p ps /\ regex p query = Some m1 /\ t = type_ p /\ count = parseInt m1.
Proof.
  induction ps as [| p ps IH]; simpl; [discriminate |].
  destruct (regex p query) as [m1 |] eqn:E.
  - intros [= <- <-]. exists p, m1. auto.
  - intros H. destruct (IH H) as (p' & m1 & Hin & Hrest).
    exists p', m1. auto.
Qed.

Lemma extractRowsCommand_count query t count :
  extractRowsCommand query = Some (t, count) ->
  exists n, count = Some (Z.of_nat n).
Proof.
  intros H. apply firstMatch_inv in H as (p & m1 & Hin & Hm & _ & ->).
  assert (exists r, digitsCapture r = Some m1) as [r Hr].
  { unfold patterns in Hin. simpl in Hin.
    destruct Hin as [<- | [<- | [<- | [<- | []]]]]; simpl in Hm.
    - apply searchFrom_result in Hm as [s' Hm]. eapply verbRangeAt_result, Hm.
    - apply searchFrom_result in Hm as [s' Hm]. eapply verbRangeAt_result, Hm.
    - eapply rangeAt_result, Hm.
    - eapply rangeAt_result, Hm. }
  eapply digitsCapture_count, Hr.
Qed.

(** C7. For every query and every state of the cache, records or not,
    [searchKnowledgeBase] returns a result and leaves the state alone; when
    something throws while the rows are scanned or the result is built, the
    result is the error result, which has [foundInKnowledgeBase = false]
    and [totalRecords = 0]; otherwise it is the result that was built. *)
Theorem searchKnowledgeBase_never_throws {stringCase : StringCase} query (w : World) :
  exists r,
    searchKnowledgeBase query w = (w, Returns r)
    /\ (forall w' e, searchPass query w = (w', Throws e) -> r = errorResult)
    /\ (forall w' r', searchPass query w = (w', Returns r') -> r = r')
    /\ foundInKnowledgeBase errorResult = false
    /\ totalRecords (searchDetails errorResult) = 0.
Proof.
  unfold searchKnowledgeBase, tryCatch.
  destruct (searchPass_ended query w) as [[r | e] ->].
  - exists r. split; [reflexivity |]. split; [discriminate |].
    split; [| split; reflexivity]. intros w' r' [= _ <-]. reflexivity.
  - exists errorResult. split; [reflexivity |]. split; [reflexivity |].
    split; [discriminate | split; reflexivity].
Qed.

Section AsciiSearch.

#[local] Existing Instance asciiCase.

(** A [null] among the entries makes the scan throw, and the search
    answers with the error result. *)
Example search_over_a_damaged_cache :
  let w := sampleWorld [sampleRecord (js "a.csv") 0; ENull] in
  searchPass (js "aspirin") w = (w, Throws TypeError)
  /\ searchKnowledgeBase (js "aspirin") w = (w, Returns errorResult).
Proof. split; reflexivity. Qed.

(** A query of stop words has no search term and finds nothing; the
    query ["aspirin"] finds the record whose column holds ["Aspirin"] and
    answers with its [content]. *)
Example free_text_search_examples :
  let aspirin :=
    ERecord [(js "drug_name", VStr (js "Aspirin"));
             (k_source, VStr (js "drugs.xlsx"));
             (k_content, VStr (js "drug_name: Aspirin"))] in
  let w := sampleWorld [sampleRecord (js "a.csv") 0; aspirin] in
  extractSearchTerms (js "show me the data") = []
  /\ searchKnowledgeBase (js "show me the data") w = (w, Returns (noMatchResult []))
  /\ extractSearchTerms (js "Aspirin?") = [js "aspirin"]
  /\ exists r,
       searchKnowledgeBase (js "aspirin") w = (w, Returns r)
       /\ foundInKnowledgeBase r = true
       /\ text r = VStr (js "drug_name: Aspirin")
       /\ totalRecords (searchDetails r) = 1.
Proof.
  repeat split; try reflexivity.
  eexists. split; [reflexivity |]. repeat split; reflexivity.
Qed.

End AsciiSearch.

(** C8. On a cache of 20 records, ["show top 5"] reports the records at
    positions 0 to 4, in cache order, with [foundInKnowledgeBase = true]
    and [totalRecords = 5], and ["show bottom 3"] reports those at
    positions 17 to 19.  The patterns are tried in the order of their
    declaration and the first that matches decides, also when a later one
    matches too; the rows of a command are the first or the last [n]
    records of the cache as they are, none left out. *)
Theorem row_commands_on_twenty_records {stringCase : StringCase} (w : World) :
  length (cachedData w) = 20 ->
  Forall (fun e => isRecord e = true) (cachedData w) ->
  let data := cachedData w in
  (exists r,
      searchKnowledgeBase (js "show top 5") w = (w, Returns r)
      /\ rowsResult RowsTop (take 5 data) = Returns r
      /\ foundInKnowledgeBase r = true
      /\ totalRecords (searchDetails r) = 5
      /\ text r = VStr (js "Showing first 5 rows from the dataset.")
      /\ sources (searchDetails r)
         = distinct [] (List.map (propOf k_source) (take 5 data)))
  /\ (exists r,
         searchKnowledgeBase (js "show bottom 3") w = (w, Returns r)
         /\ rowsResult RowsBottom (drop 17 data) = Returns r
         /\ foundInKnowledgeBase r = true
         /\ totalRecords (searchDetails r) = 3
         /\ text r = VStr (js "Showing last 3 rows from the dataset.")
         /\ sources (searchDetails r)
            = distinct [] (List.map (propOf k_source) (drop 17 data)))
  /\ (forall query ps1 p ps2 m1,
         Forall (fun p' => regex p' query = None) ps1 ->
         regex p query = Some m1 ->
         firstMatch (ps1 ++ p :: ps2) query = Some (type_ p, parseInt m1))
  /\ extractRowsCommand (js "last 2, show top 1") = Some (RowsTop, Some 1%Z)
  /\ (forall query t count,
         extractRowsCommand query = Some (t, count) ->
         exists n : nat,
           count = Some (Z.of_nat n)
           /\ searchPass query w =
              (w, rowsResult t
                    match t with
                    | RowsTop => take n data
                    | RowsBottom =>
                        match n with 0 => data | _ => drop (length data - n) data end
                    end)).
Proof.
  intros Hlen Hrec data. subst data.
  split; [| split; [| split; [| split]]].
  - assert (extractRowsCommand (js "show top 5") = Some (RowsTop, Some (Z.of_nat 5))) as E
      by reflexivity.
    assert (selectRows RowsTop (Some (Z.of_nat 5)) (cachedData w)
            = take 5 (cachedData w)) as Hsel
      by apply selectRows_nat.
    assert (Forall (fun e => isRecord e = true) (take 5 (cachedData w))) as Hrec5
      by (apply Forall_take; exact Hrec).
    assert (length (take 5 (cachedData w)) = 5) as Hlen5
      by (rewrite length_take; lia).
    destruct (take 5 (cachedData w)) as [| first rest] eqn:Etake; [discriminate Hlen5 |].
    pose proof (rowsResult_records RowsTop first rest Hrec5) as Hr.
    eexists. split.
    { eapply searchKnowledgeBase_command; [exact E |].
      rewrite Hsel. exact Hr. }
    split; [exact Hr |].
    cbn [text foundInKnowledgeBase searchDetails totalRecords sources].
    rewrite Hlen5. repeat split; reflexivity.
  - assert (extractRowsCommand (js "show bottom 3") = Some (RowsBottom, Some (Z.of_nat 3))) as E
      by reflexivity.
    assert (selectRows RowsBottom (Some (Z.of_nat 3)) (cachedData w)
            = drop 17 (cachedData w)) as Hsel.
    { rewrite selectRows_nat, Hlen. reflexivity. }
    assert (Forall (fun e => isRecord e = true) (drop 17 (cachedData w))) as Hrec3
      by (apply Forall_drop; exact Hrec).
    assert (length (drop 17 (cachedData w)) = 3) as Hlen3
      by (rewrite length_drop; lia).
    destruct (drop 17 (cachedData w)) as [| first rest] eqn:Edrop; [discriminate Hlen3 |].
    pose proof (rowsResult_records RowsBottom first rest Hrec3) as Hr.
    eexists. split.
    { eapply searchKnowledgeBase_command; [exact E |].
      rewrite Hsel. exact Hr. }
    split; [exact Hr |].
    cbn [text foundInKnowledgeBase searchDetails totalRecords sources].
    rewrite Hlen3. repeat split; reflexivity.
  - intros query ps1 p ps2 m1. apply firstMatch_first.
  - reflexivity.
  - intros query t count E.
    destruct (extractRowsCommand_count _ _ _ E) as [n ->].
    exists n. split; [reflexivity |].
    rewrite (searchPass_command _ _ _ _ E), selectRows_nat. reflexivity.
Qed.

Section AsciiRows.

#[local] Existing Instance asciiCase.

Lemma row_commands_on_twenty_records_witness :
  let w := sampleWorld (sampleCache (js "a.csv") 20) in
  length (cachedData w) = 20
  /\ Forall (fun e => isRecord e = true) (cachedData w)
  /\ exists r,
       searchKnowledgeBase (js "show top 5") w = (w, Returns r)
       /\ rowsResult RowsTop (sampleCache (js "a.csv") 5) = Returns r.
Proof.
  intros w.
  assert (length (cachedData w) = 20) as Hlen by reflexivity.
  assert (Forall (fun e => isRecord e = true) (cachedData w)) as Hrec
    by (repeat constructor).
  split; [exact Hlen |]. split; [exact Hrec |].
  destruct (row_commands_on_twenty_records w Hlen Hrec)
    as [(r & Hsearch & Hrows & _) _].
  exists r. split; [exact Hsearch | exact Hrows].
Defined.

End AsciiRows.

(** C10. A row command whose count is 0 behaves differently in its two
    branches.  With [top], as in ["show top 0"], the slice is empty and
    the result is "No data available to display." with
    [foundInKnowledgeBase = false] and [totalRecords = 0].  With [bottom],
    as in ["show bottom 0"], [slice(-0)] is [slice(0)]: the rows are the
    whole cache and, the cache being non-empty, the result has
    [foundInKnowledgeBase = true] and counts every record. *)
Theorem zero_rows_top_and_bottom_differ {stringCase : StringCase} query (w : World) :
  cachedData w <> [] ->
  Forall (fun e => isRecord e = true) (cachedData w) ->
  (extractRowsCommand query = Some (RowsTop, Some 0%Z) ->
   selectRows RowsTop (Some 0%Z) (cachedData w) = []
   /\ searchKnowledgeBase query w = (w, Returns noDataResult))
  /\ (extractRowsCommand query = Some (RowsBottom, Some 0%Z) ->
      selectRows RowsBottom (Some 0%Z) (cachedData w) = cachedData w
      /\ exists r,
           searchKnowledgeBase query w = (w, Returns r)
           /\ rowsResult RowsBottom (cachedData w) = Returns r
           /\ foundInKnowledgeBase r = true
           /\ totalRecords (searchDetails r) = length (cachedData w))
  /\ extractRowsCommand (js "show top 0") = Some (RowsTop, Some 0%Z)
  /\ extractRowsCommand (js "show bottom 0") = Some (RowsBottom, Some 0%Z)
  /\ text noDataResult = VStr (js "No data available to display.")
  /\ foundInKnowledgeBase noDataResult = false
  /\ totalRecords (searchDetails noDataResult) = 0.
Proof.
  intros Hne Hrec.
  assert (selectRows RowsTop (Some 0%Z) (cachedData w) = []) as Htop
    by (rewrite (selectRows_nat RowsTop 0); reflexivity).
  assert (selectRows RowsBottom (Some 0%Z) (cachedData w) = cachedData w) as Hbottom
    by (rewrite (selectRows_nat RowsBottom 0); reflexivity).
  split; [| split; [| repeat split]].
  - intros E. split; [exact Htop |].
    eapply searchKnowledgeBase_command; [exact E |]. rewrite Htop. reflexivity.
  - intros E. split; [exact Hbottom |].
    destruct (cachedData w) as [| first rest] eqn:Edata; [congruence |].
    pose proof (rowsResult_records RowsBottom first rest Hrec) as Hr.
    eexists. split.
    { eapply searchKnowledgeBase_command; [exact E |].
      rewrite Edata, Hbottom. exact Hr. }
    split; [exact Hr |]. split; reflexivity.
Qed.

Section AsciiZeroRows.

#[local] Existing Instance asciiCase.

Lemma zero_rows_top_and_bottom_differ_witness :
  let w := sampleWorld (sampleCache (js "a.csv") 4) in
  cachedData w <> []
  /\ Forall (fun e => isRecord e = true) (cachedData w)
  /\ searchKnowledgeBase (js "show top 0") w = (w, Returns noDataResult)
  /\ exists r,
       searchKnowledgeBase (js "show bottom 0") w = (w, Returns r)
       /\ totalRecords (searchDetails r) = 4.
Proof.
  intros w.
  assert (cachedData w <> []) as Hne by discriminate.
  assert (Forall (fun e => isRecord e = true) (cachedData w)) as Hrec
    by (repeat constructor).
  split; [exact Hne |]. split; [exact Hrec |].
  destruct (zero_rows_top_and_bottom_differ (js "show top 0") w Hne Hrec)
    as (Htop & _).
  destruct (zero_rows_top_and_bottom_differ (js "show bottom 0") w Hne Hrec)
    as (_ & Hbottom & _).
  split; [apply (Htop eq_refl) |].
  destruct (Hbottom eq_refl) as (_ & r & Hsearch & _ & _ & Htotal).
  exists r. split; [exact Hsearch | exact Htotal].
Defined.

End AsciiZeroRows.

(** * Further properties of the module *)

(** ** Restore *)

Section RestoreMore.

Variable fails : list call -> call -> bool.
Variable fuel maxArguments : nat.
Context {stringCase : StringCase}.

(** The body of the loop has a [try] of its own: it returns whatever the
    store does. *)
Lemma loadChunk_returns i w :
  exists w', loadChunk fails maxArguments i w = (w', Returns tt).
Proof.
  unfold loadChunk, getItemChunk, getItem, tryCatch, bind, storageCall.
  destruct (fails (calls w) (GetItem (CACHE_KEY i))); [eexists; reflexivity |].
  simpl. destruct (chunkItems (localStorage w) !! i) as [[rs |] |];
    [destruct (maxArguments <? length rs) | |]; eexists; reflexivity.
Qed.

Lemma loadLoop_returns (g : nat -> nat) from n w :
  exists w', forRange from n (fun k => loadChunk fails maxArguments (g k)) w
             = (w', Returns tt).
Proof.
  revert from w. induction n as [| n IH]; intros from w; cbn [forRange].
  - exists w. reflexivity.
  - destruct (loadChunk_returns (g from) w) as [w1 E1].
    rewrite (bind_run _ _ _ _ _ E1). apply IH.
Qed.

Lemma loadCount_ends w :
  exists w' r,
    (stored <- getItemCount fails ;;
     modify (setCachedData []) ;;
     forCount fuel (iterations (parseInt (orZero stored)))
       (loadChunk fails maxArguments)) w = (w', r)
    /\ (r = Running -> persistedCount (localStorage w) = Endless).
Proof.
  destruct (fails (calls w) (GetItem CHUNK_COUNT_KEY)) eqn:F.
  - exists (logCall (GetItem CHUNK_COUNT_KEY) w), (Throws StorageError).
    split; [| discriminate].
    unfold getItemCount, getItem, bind, storageCall. rewrite F. reflexivity.
  - assert (getItemCount fails w
            = (logCall (GetItem CHUNK_COUNT_KEY) w,
               Ended (Returns (countItem (localStorage w))))) as E
      by (unfold getItemCount, getItem, bind, storageCall; rewrite F; reflexivity).
    rewrite (bind_run _ _ _ _ _ E).
    set (w1 := logCall _ w).
    rewrite (bind_run _ _ w1 (setCachedData [] w1) tt) by reflexivity.
    fold (persistedCount (localStorage w)).
    destruct (persistedCount (localStorage w)) as [n |]; unfold forCount.
    + destruct (loadLoop_returns (fun k => k) 0 n (setCachedData [] w1)) as [w' E'].
      exists w', (Returns tt). split; [exact E' | discriminate].
    + destruct (loadLoop_returns loopIndex 0 fuel (setCachedData [] w1)) as [w' E'].
      exists w', Running. split; [| reflexivity].
      rewrite (bind_run _ _ _ _ _ E'). reflexivity.
Qed.

(** A restore ends by returning, unless the chunk count it reads keeps its
    loop from ending. *)
Lemma loadCachedData_ends w :
  exists w',
    loadCachedData fails fuel maxArguments w = (w', Returns tt)
    \/ (loadCachedData fails fuel maxArguments w = (w', Running)
        /\ persistedCount (localStorage w) = Endless).
Proof.
  unfold loadCachedData, tryCatch.
  match goal with |- context [match ?m w with _ => _ end] =>
    assert (exists w' r, m w = (w', r)
              /\ (r = Running -> persistedCount (localStorage w) = Endless))
      as (w1 & r & E & Hr)
  end.
  { destruct (fails (calls w) (GetItem FILES_KEY)) eqn:F.
    - exists (logCall (GetItem FILES_KEY) w), (Throws StorageError).
      split; [| discriminate].
      unfold getItemFiles, getItem, bind, storageCall. rewrite F. reflexivity.
    - assert (getItemFiles fails w
              = (logCall (GetItem FILES_KEY) w,
                 Ended (Returns (filesItem_ (localStorage w))))) as E
        by (unfold getItemFiles, getItem, bind, storageCall; rewrite F; reflexivity).
      rewrite (bind_run _ _ _ _ _ E).
      set (w1 := logCall _ w).
      destruct (filesItem_ (localStorage w)) as [[| value |] |].
      + rewrite (bind_run _ _ w1 w1 tt) by reflexivity. apply (loadCount_ends w1).
      + rewrite (bind_run _ _ w1 (setUserUploadedFiles value w1) tt) by reflexivity.
        apply (loadCount_ends (setUserUploadedFiles value w1)).
      + exists w1, (Throws SyntaxError). split; [reflexivity | discriminate].
      + rewrite (bind_run _ _ w1 w1 tt) by reflexivity. apply (loadCount_ends w1). }
  rewrite E. destruct r as [[[] | e] |].
  - exists w1. left. reflexivity.
  - eexists. left. reflexivity.
  - exists w1. right. split; [reflexivity | apply Hr; reflexivity].
Qed.

(** X1. A restore never throws, whatever the store holds and whichever of
    its calls throw; it leaves [localStorage] as it is and the calls it
    makes are all [getItem].  It ends by returning, unless the chunk count
    it reads is a number above [2^53], for which its loop does not end. *)
Theorem loadCachedData_only_reads (w : World) :
  exists w' r,
    loadCachedData fails fuel maxArguments w = (w', r)
    /\ (r = Returns tt
        \/ (r = Running /\ persistedCount (localStorage w) = Endless))
    /\ localStorage w' = localStorage w
    /\ exists l, calls w' = l ++ calls w /\ Forall isGetItem l.
Proof.
  assert (forall w' r, loadCachedData fails fuel maxArguments w = (w', r) ->
            localStorage w' = localStorage w
            /\ exists l, calls w' = l ++ calls w /\ Forall isGetItem l) as Hreads.
  { intros w' r E.
    apply loadCachedData_restoring in E as [Hst (l & Hl & Fl)].
    split; [exact Hst |]. exists l. split; [exact Hl |].
    eapply Forall_impl; [exact Fl |].
    intros [k | k | k]; simpl; [intros _; exact I | intros [] | intros []]. }
  destruct (loadCachedData_ends w) as [w' [E | [E Hcount]]].
  - exists w', (Returns tt). split; [exact E |]. split; [left; reflexivity |].
    exact (Hreads _ _ E).
  - exists w', Running. split; [exact E |]. split; [right; split; [reflexivity | exact Hcount] |].
    exact (Hreads _ _ E).
Qed.

Lemma loadChunk_reliable i w :
  reliableSince fails (calls w) ->
  exists w',
    loadChunk fails maxArguments i w = (w', Returns tt)
    /\ cachedData w'
       = cachedData w
         ++ match chunkItems (localStorage w) !! i with
            | Some (Packed rs) => if maxArguments <? length rs then [] else rs
            | Some Unreadable | None => []
            end
    /\ userUploadedFiles w' = userUploadedFiles w
    /\ localStorage w' = localStorage w
    /\ reliableSince fails (calls w').
Proof.
  intros Hrel. unfold loadChunk, getItemChunk, tryCatch.
  rewrite (bind_run _ _ _ _ _ (getItem_run _ _ _ _ Hrel)).
  destruct (chunkItems (localStorage w) !! i) as [[rs |] |];
    [destruct (maxArguments <? length rs) | |]; simpl;
    eexists; (split; [reflexivity |]); simpl;
    rewrite ?app_nil_r; repeat split; try reflexivity;
    apply reliableSince_cons; exact Hrel.
Qed.

Lemma loadLoop_reliable from n w :
  reliableSince fails (calls w) ->
  exists w',
    forRange from n (loadChunk fails maxArguments) w = (w', Returns tt)
    /\ cachedData w'
       = cachedData w
         ++ flat_map
              (fun i =>
                 match chunkItems (localStorage w) !! i with
                 | Some (Packed rs) => if maxArguments <? length rs then [] else rs
                 | Some Unreadable | None => []
                 end)
              (seq from n)
    /\ userUploadedFiles w' = userUploadedFiles w
    /\ localStorage w' = localStorage w.
Proof.
  revert from w. induction n as [| n IH]; intros from w Hrel; simpl.
  - exists w. rewrite app_nil_r. auto.
  - destruct (loadChunk_reliable from w Hrel) as (w1 & E1 & Hd1 & Hf1 & Hs1 & Hr1).
    rewrite (bind_run _ _ _ _ _ E1).
    destruct (IH (S from) w1 Hr1) as (w' & E & Hd & Hf & Hs).
    exists w'. split; [exact E |].
    rewrite Hd, Hd1, Hf, Hf1, Hs, Hs1, <- app_assoc. auto.
Qed.

(** X2. When no call throws, the list of file names parses and the store
    announces [count] chunks, a restore returns with, in the cache, the
    records of the chunks below [count] that it can read, in index order.
    A chunk that is missing, that does not decode or that holds more
    entries than a call takes arguments is skipped, and the ones after it
    are still loaded.  The file list is the value stored, or stays as it
    was when none is stored. *)
Theorem loadCachedData_skips_unreadable_chunks (w : World) (count : nat) :
  reliableSince fails (calls w) ->
  filesItem_ (localStorage w) <> Some FilesBroken ->
  persistedCount (localStorage w) = Finite count ->
  exists w',
    loadCachedData fails fuel maxArguments w = (w', Returns tt)
    /\ cachedData w' = readableChunks maxArguments count (localStorage w)
    /\ userUploadedFiles w'
       = match filesItem_ (localStorage w) with
         | Some (FilesJson value) => value
         | _ => userUploadedFiles w
         end
    /\ localStorage w' = localStorage w.
Proof.
  intros Hrel Hfiles Hcount. unfold loadCachedData.
  match goal with
  | |- context [tryCatch ?m ?h w] =>
      assert (exists w1, m w = (w1, Returns tt)
                /\ cachedData w1 = readableChunks maxArguments count (localStorage w)
                /\ userUploadedFiles w1
                   = match filesItem_ (localStorage w) with
                     | Some (FilesJson value) => value
                     | _ => userUploadedFiles w
                     end
                /\ localStorage w1 = localStorage w) as (w1 & E & H)
  end.
  { unfold getItemFiles, getItemCount.
    rewrite (bind_run _ _ _ _ _ (getItem_run _ _ _ _ Hrel)).
    set (w1 := logCall _ w).
    set (names := match filesItem_ (localStorage w) with
                  | Some (FilesJson value) => value
                  | _ => userUploadedFiles w
                  end).
    rewrite (bind_run _ _ w1 (setUserUploadedFiles names w1) tt).
    2:{ subst names. destruct (filesItem_ (localStorage w)) as [[| ns |] |];
          try reflexivity. congruence. }
    set (w2 := setUserUploadedFiles names w1).
    assert (reliableSince fails (calls w2)) as H2
      by (apply reliableSince_cons; exact Hrel).
    rewrite (bind_run _ _ _ _ _ (getItem_run _ _ _ _ H2)).
    set (w3 := logCall _ w2).
    rewrite (bind_run _ _ w3 (setCachedData [] w3) tt) by reflexivity.
    change (localStorage w2) with (localStorage w).
    fold (persistedCount (localStorage w)). rewrite Hcount. unfold forCount.
    destruct (loadLoop_reliable 0 count (setCachedData [] w3)) as (w' & E & Hd & Hf & Hst).
    - simpl. do 2 apply reliableSince_cons. exact Hrel.
    - exists w'. split; [exact E |]. rewrite Hd, Hf, Hst. auto. }
  exists w1. rewrite (tryCatch_run _ _ _ _ _ E). split; [reflexivity | exact H].
Qed.

(** X3. When the stored list of file names is not valid JSON, a restore
    ends with an empty cache and an empty list of file names without
    reading the chunk count or any chunk, whatever the store holds. *)
Theorem loadCachedData_broken_file_list (w : World) :
  fails (calls w) (GetItem FILES_KEY) = false ->
  filesItem_ (localStorage w) = Some FilesBroken ->
  loadCachedData fails fuel maxArguments w =
  ({| localStorage := localStorage w;
      calls := GetItem FILES_KEY :: calls w;
      cachedData := [];
      userUploadedFiles := FArr [] |}, Returns tt).
Proof.
  intros Hget Hfiles.
  unfold loadCachedData, tryCatch, getItemFiles, getItem, bind, storageCall.
  rewrite Hget. simpl. rewrite Hfiles. reflexivity.
Qed.

End RestoreMore.

Lemma loadCachedData_skips_unreadable_chunks_witness :
  let st := {| filesItem_ := Some (FilesJson (FArr [IStr (js "a.csv")]));
               countItem := Some (js "5");
               chunkItems := {[ 0 := Packed (sampleCache (js "a.csv") 1);
                                1 := Unreadable;
                                2 := Packed [sampleRecord (js "a.csv") 7];
                                3 := Packed (sampleCache (js "a.csv") 4);
                                4 := Packed [sampleRecord (js "a.csv") 8];
                                5 := Packed [sampleRecord (js "a.csv") 9] ]} |} in
  let w := freshProcess st [] in
  reliableSince neverFails (calls w)
  /\ filesItem_ (localStorage w) <> Some FilesBroken
  /\ persistedCount (localStorage w) = Finite 5
  /\ exists w',
       loadCachedData neverFails 0 3 w = (w', Returns tt)
       /\ cachedData w'
          = [sampleRecord (js "a.csv") 0; sampleRecord (js "a.csv") 7;
             sampleRecord (js "a.csv") 8].
Proof.
  intros st w.
  assert (reliableSince neverFails (calls w)) as Hrel by (intros l c; reflexivity).
  assert (filesItem_ (localStorage w) <> Some FilesBroken) as Hfiles by discriminate.
  assert (persistedCount (localStorage w) = Finite 5) as Hcount by (vm_compute; reflexivity).
  split; [exact Hrel |]. split; [exact Hfiles |]. split; [exact Hcount |].
  destruct (loadCachedData_skips_unreadable_chunks neverFails 0 3 w 5 Hrel Hfiles Hcount)
    as (w' & E & Hd & _).
  exists w'. split; [exact E |]. rewrite Hd. vm_compute. reflexivity.
Defined.

Lemma loadCachedData_broken_file_list_witness :
  let st := {| filesItem_ := Some FilesBroken;
               countItem := Some (js "1");
               chunkItems := {[ 0 := Packed (sampleCache (js "a.csv") 2) ]} |} in
  let w := freshProcess st [] in
  neverFails (calls w) (GetItem FILES_KEY) = false
  /\ filesItem_ (localStorage w) = Some FilesBroken
  /\ readableChunks 1000 1 st = sampleCache (js "a.csv") 2
  /\ cachedData (fst (loadCachedData neverFails 0 1000 w)) = [].
Proof.
  intros st w. split; [reflexivity |]. split; [reflexivity |].
  split; [vm_compute; reflexivity |].
  rewrite (loadCachedData_broken_file_list neverFails 0 1000 w eq_refl eq_refl).
  reflexivity.
Defined.

(** ** Persist *)

#[local] Instance keepsFilesAndSomeRecords_preorder : PreOrder keepsFilesAndSomeRecords.
Proof.
  split.
  - intros w. split; [reflexivity | auto].
  - intros w1 w2 w3 [F1 N1] [F2 N2]. split; [congruence | auto].
Qed.

Lemma Array_slice_last_not_empty {A} (k : nat) (a : list A) :
  a <> [] -> Array_slice (- Z.of_nat k) None a <> [].
Proof.
  intros Ha. rewrite Array_slice_last. destruct k as [| k]; [exact Ha |].
  intros H. apply (f_equal length) in H. rewrite length_drop in H.
  destruct a as [| x a]; [congruence |]. simpl in H. lia.
Qed.

Section PersistMore.

Variable fails : list call -> call -> bool.
Variable fuel maxArguments : nat.
Context {stringCase : StringCase}.

Lemma saveRetry_keeps again :
  respects keepsFilesAndSomeRecords again ->
  respects keepsFilesAndSomeRecords (saveRetry again).
Proof.
  intros Hagain w w' r. rewrite saveRetry_run. cbv zeta.
  destruct (again _) as [w1 [o |]] eqn:E; intros [= <- _];
    apply Hagain in E as [Hf Hne]; simpl in Hf, Hne;
    (split; [exact Hf |]); intros Hw; apply Hne;
    apply Array_slice_last_not_empty; exact Hw.
Qed.

Lemma saveCachedData_keeps stack :
  respects keepsFilesAndSomeRecords (saveCachedData fails fuel stack).
Proof.
  assert (respects keepsFilesAndSomeRecords (savePass fails fuel)) as Hpass.
  { eapply respects_weaken; [| apply savePass_sameMemory].
    intros w w' [Hd Hf]. split; [exact Hf | rewrite Hd; auto]. }
  induction stack as [| stack IH]; simpl;
    (apply respects_tryCatch; [typeclasses eauto | exact Hpass |]);
    intros _; apply saveRetry_keeps; [| exact IH].
  apply respects_throw. typeclasses eauto.
Qed.

(** X4. Whatever the store does, a persist leaves the list of uploaded
    file names as it is, and a cache that held records still holds at
    least one afterwards: the pruning of the retry never empties it. *)
Theorem saveCachedData_keeps_files_and_some_records stack (w : World) :
  let w' := fst (saveCachedData fails fuel stack w) in
  userUploadedFiles w' = userUploadedFiles w
  /\ (cachedData w <> [] -> cachedData w' <> []).
Proof.
  intros w'. subst w'.
  destruct (saveCachedData fails fuel stack w) as [w' r] eqn:E.
  apply saveCachedData_keeps in E. exact E.
Qed.

(** *** The chunk budget *)

Ltac inRange_base :=
  first [ apply storageCall_logged; intros ? [=]
        | exists []; split; [reflexivity | constructor] ].

Lemma saveChunk_in_range chunk index :
  index < MAX_CHUNKS ->
  respects (logged chunkWriteInRange) (saveChunk fails chunk index).
Proof.
  intros Hi.
  frame ltac:(first [ apply storageCall_logged; intros ? [= <-]; exact Hi
                    | exists []; split; [reflexivity | constructor] ]).
Qed.

Lemma writeLoop_in_range index chunks :
  index + length chunks <= MAX_CHUNKS ->
  respects (logged chunkWriteInRange) (forEachFrom index chunks (saveChunk fails)).
Proof.
  revert index. induction chunks as [| c cs IH]; intros index Hi; simpl in *.
  - apply respects_ret. typeclasses eauto.
  - apply respects_bind; [typeclasses eauto | apply saveChunk_in_range; lia |].
    intros _. apply IH. lia.
Qed.

Lemma savePass_in_range : respects (logged chunkWriteInRange) (savePass fails fuel).
Proof.
  unfold savePass.
  apply respects_bind; [typeclasses eauto | frame inRange_base | intros files].
  apply respects_bind; [typeclasses eauto | frame inRange_base | intros _].
  apply respects_bind; [typeclasses eauto | frame inRange_base | intros stored].
  cbv zeta.
  apply respects_bind; [typeclasses eauto | frame inRange_base | intros _].
  apply respects_bind; [typeclasses eauto | frame inRange_base | intros data].
  cbv zeta.
  apply respects_bind; [typeclasses eauto | | intros _; frame inRange_base].
  apply writeLoop_in_range. apply (partition_bound data).
Qed.

Lemma saveCachedData_budget stack :
  respects (fun w w' => countWithinBudget w w' /\ logged chunkWriteInRange w w')
    (saveCachedData fails fuel stack).
Proof.
  assert (forall again,
             respects (fun w w' => countWithinBudget w w'
                                   /\ logged chunkWriteInRange w w') again ->
             respects (fun w w' => countWithinBudget w w'
                                   /\ logged chunkWriteInRange w w')
               (saveRetry again)) as Hretry.
  { intros again Hagain w w' r. rewrite saveRetry_run. cbv zeta.
    destruct (again _) as [w1 [o |]] eqn:E; intros [= <- _];
      apply Hagain in E as [Hc Hl]; (split; [exact Hc | exact Hl]). }
  assert (forall w w' r, savePass fails fuel w = (w', r) ->
                         countWithinBudget w w' /\ logged chunkWriteInRange w w')
    as Hpass.
  { intros w w' r E. split;
      [eapply savePass_within_budget | eapply savePass_in_range]; exact E. }
  assert (forall again w w' r,
             respects (fun w w' => countWithinBudget w w'
                                   /\ logged chunkWriteInRange w w') again ->
             tryCatch (savePass fails fuel) (fun _ => saveRetry again) w = (w', r) ->
             countWithinBudget w w' /\ logged chunkWriteInRange w w') as Hstep.
  { intros again w w' r Hagain. unfold tryCatch.
    destruct (savePass fails fuel w) as [w1 [[[] | e] |]] eqn:E.
    - intros [= <- _]. eapply Hpass. exact E.
    - intros H. apply Hpass in E as [Hc1 Hl1].
      apply (Hretry again Hagain) in H as [Hc2 Hl2].
      split; etransitivity; eassumption.
    - intros [= <- _]. eapply Hpass. exact E. }
  induction stack as [| stack IH]; simpl; intros w w' r; apply Hstep.
  - intros w0 w1 r0 [= <- _]. split; reflexivity.
  - exact IH.
Qed.

(** X5. Whatever the store does, a persist never writes a chunk key at
    index [MAX_CHUNKS = 40] or beyond, and the chunk count it leaves in
    the store is the one it found or the decimal text of a number that is
    at most 40. *)
Theorem saveCachedData_within_chunk_budget stack (w : World) :
  let w' := fst (saveCachedData fails fuel stack w) in
  (countItem (localStorage w') = countItem (localStorage w)
   \/ exists k, k <= 40 /\ countItem (localStorage w') = Some (toString k))
  /\ exists l,
       calls w' = l ++ calls w
       /\ forall i, SetItem (CACHE_KEY i) ∈ l -> i < 40.
Proof.
  intros w'. subst w'.
  destruct (saveCachedData fails fuel stack w) as [w' r] eqn:E.
  apply saveCachedData_budget in E as [Hc (l & Hl & Fl)].
  split; [exact Hc |]. exists l. split; [exact Hl |].
  intros i Hi. rewrite Forall_forall in Fl. apply (Fl _ Hi i eq_refl).
Qed.

End PersistMore.

(** *** The second attempt at a chunk *)

(** [Math.floor(n * 0.7)] is the floor of [7n/10] or one less (it is one
    less at [n = 90]). *)
Lemma floorMul_0_7_bounds (n : nat) :
  (Z.of_nat n < 2 ^ 32)%Z ->
  floorMul n double_0_7 <= 7 * n / 10 <= floorMul n double_0_7 + 1.
Proof.
  intros Hn. destruct n as [| [| n]]; [vm_compute; lia | vm_compute; lia |].
  set (N := S (S n)) in *. unfold floorMul.
  set (m := (Z.of_nat N * double_0_7)%Z).
  assert (2 ^ 53 <= m)%Z as Hm by (subst m; unfold double_0_7; lia).
  destruct (round53_nearest m Hm) as (P & q' & HP & -> & Hnear & HPlo & HPhi).
  pose proof (Nat.div_mod_eq (7 * N) 10) as Hdiv.
  pose proof (Nat.mod_upper_bound (7 * N) 10 ltac:(lia)) as Hmod.
  set (I := 7 * N / 10) in *. set (t := (7 * N) mod 10) in *.
  rewrite Z.shiftr_div_pow2 by lia.
  assert (10 * m = (10 * Z.of_nat I + Z.of_nat t) * 2 ^ 53 - 4 * Z.of_nat N)%Z as H10m.
  { subst m. unfold double_0_7. lia. }
  assert (m < Z.of_nat N * 2 ^ 53)%Z as Hlt by (subst m; unfold double_0_7; lia).
  assert (q' * P / 2 ^ 53 < Z.of_nat I + 1)%Z as Hup.
  { apply Z.div_lt_upper_bound; lia. }
  assert (Z.of_nat I - 1 <= q' * P / 2 ^ 53)%Z as Hlow.
  { apply Z.div_le_lower_bound; lia. }
  lia.
Qed.

Section SecondAttempt.

Variable fails : list call -> call -> bool.
Variable fuel maxArguments : nat.
Context {stringCase : StringCase}.

(** X6. When the first write of a chunk throws and the second does not,
    the chunk is stored cut to its first [Math.floor(length * 0.7)]
    records, at most seven tenths of them and so never all of a non-empty
    chunk, while the records stay in the cache; the persist goes on as if
    the write had succeeded. *)
Theorem saveChunk_second_attempt chunk index (w : World) :
  fails (calls w) (SetItem (CACHE_KEY index)) = true ->
  fails (SetItem (CACHE_KEY index) :: calls w) (SetItem (CACHE_KEY index)) = false ->
  (Z.of_nat (length chunk) < 2 ^ 32)%Z ->
  exists w' kept,
    saveChunk fails chunk index w = (w', Returns tt)
    /\ chunkItems (localStorage w') !! index = Some (Packed kept)
    /\ kept = take (floorMul (length chunk) double_0_7) chunk
    /\ 10 * length kept <= 7 * length chunk
    /\ (chunk <> [] -> length kept < length chunk)
    /\ cachedData w' = cachedData w
    /\ calls w' = SetItem (CACHE_KEY index) :: SetItem (CACHE_KEY index) :: calls w.
Proof.
  intros H1 H2 Hn.
  pose proof (floorMul_0_7_bounds (length chunk) Hn) as [Hk _].
  pose proof (Nat.div_mod_eq (7 * length chunk) 10) as Hdiv.
  assert (10 * length (take (floorMul (length chunk) double_0_7) chunk)
          <= 7 * length chunk) as Hlen
    by (rewrite length_take; lia).
  eexists. exists (take (floorMul (length chunk) double_0_7) chunk).
  split.
  { unfold saveChunk, setItemChunk, setItem, tryCatch, bind, storageCall.
    rewrite H1. simpl. rewrite H2. rewrite Array_slice_first. reflexivity. }
  cbn [chunkItems localStorage setStorage logCall cachedData calls].
  split; [apply lookup_insert_eq |]. split; [reflexivity |].
  split; [exact Hlen |]. split; [| split; reflexivity].
  intros Hne.
  assert (0 < length chunk) as Hpos
    by (destruct chunk; [congruence | cbn [length]; lia]).
  rewrite length_take. lia.
Qed.

End SecondAttempt.

Lemma saveChunk_second_attempt_witness :
  let fails := fun (log : list call) (c : call) => bool_decide (log = []) in
  let w := sampleWorld [] in
  let chunk := sampleCache (js "a.csv") 3 in
  fails (calls w) (SetItem (CACHE_KEY 0)) = true
  /\ fails (SetItem (CACHE_KEY 0) :: calls w) (SetItem (CACHE_KEY 0)) = false
  /\ (Z.of_nat (length chunk) < 2 ^ 32)%Z
  /\ exists w',
       saveChunk fails chunk 0 w = (w', Returns tt)
       /\ chunkItems (localStorage w') !! 0 = Some (Packed (sampleCache (js "a.csv") 2)).
Proof.
  intros fails w chunk.
  assert (fails (calls w) (SetItem (CACHE_KEY 0)) = true) as H1 by reflexivity.
  assert (fails (SetItem (CACHE_KEY 0) :: calls w) (SetItem (CACHE_KEY 0)) = false)
    as H2 by reflexivity.
  assert (Z.of_nat (length chunk) < 2 ^ 32)%Z as Hn by (vm_compute; reflexivity).
  split; [exact H1 |]. split; [exact H2 |]. split; [exact Hn |].
  destruct (saveChunk_second_attempt fails chunk 0 w H1 H2 Hn)
    as (w' & kept & E & Hlook & -> & _).
  exists w'. split; [exact E | exact Hlook].
Defined.

(** *** Persisting twice *)

Lemma deleteTurns_delete from n j (m : gmap nat chunkItem) :
  deleteTurns from n (delete j m) = delete j (deleteTurns from n m).
Proof.
  revert from m. induction n as [| n IH]; intros from m; cbn [deleteTurns].
  - reflexivity.
  - rewrite (delete_delete m). apply IH.
Qed.

Lemma deleteTurns_twice from n (m : gmap nat chunkItem) :
  deleteTurns from n (deleteTurns from n m) = deleteTurns from n m.
Proof.
  revert from m. induction n as [| n IH]; intros from m; cbn [deleteTurns].
  - reflexivity.
  - rewrite deleteTurns_delete, <- deleteTurns_delete, <- deleteTurns_delete.
    rewrite IH, delete_delete_eq. reflexivity.
Qed.

(** X7. When no call throws, a second persist of the same cache leaves
    the store exactly as the first one left it. *)
Theorem persist_twice_is_persist_once fails fuel stack1 stack2 (w : World) :
  reliableSince fails (calls w) ->
  let w1 := fst (saveCachedData fails fuel stack1 w) in
  let w2 := fst (saveCachedData fails fuel stack2 w1) in
  localStorage w2 = localStorage w1
  /\ cachedData w2 = cachedData w
  /\ userUploadedFiles w2 = userUploadedFiles w.
Proof.
  intros Hrel w1 w2. subst w2 w1.
  rewrite (saveCachedData_run fails fuel stack1 w Hrel).
  destruct (persistedCount (localStorage w)) as [oldCount |] eqn:Hcount.
  - destruct (savePass_run fails fuel w oldCount Hrel Hcount)
      as (w1 & E1 & Hst1 & [Hd1 Hf1] & Hrel1).
    rewrite E1. cbn [fst].
    rewrite (saveCachedData_run fails fuel stack2 w1 Hrel1).
    set (cs := partition (cachedData w)).
    assert (persistedCount (localStorage w1) = Finite (length cs)) as Hcount1.
    { rewrite Hst1. unfold persistedCount, savedStorage. cbn [countItem].
      apply iterations_toString.
      pose proof (partition_bound (cachedData w)) as Hb. unfold MAX_CHUNKS in Hb.
      subst cs. lia. }
    destruct (savePass_run fails fuel w1 (length cs) Hrel1 Hcount1)
      as (w2 & E2 & Hst2 & [Hd2 Hf2] & _).
    rewrite E2. cbn [fst].
    split; [| split; congruence].
    rewrite Hst2, Hf1, Hd1, Hst1. unfold savedStorage at 1.
    cbn [filesItem_ countItem chunkItems].
    symmetry. unfold savedStorage at 1. symmetry. f_equal.
    apply map_eq. intros i. fold cs.
    destruct (Nat.lt_ge_cases i (length cs)) as [Hi | Hi].
    + destruct (lookup_lt_is_Some_2 cs i Hi) as [c Hc].
      rewrite !(insertChunks_lookup 0 _ _ i c Hc). reflexivity.
    + rewrite (insertChunks_lookup_ge 0 cs _ i) by (simpl; lia).
      rewrite deleteRange_lookup, bool_decide_eq_false_2 by lia.
      unfold savedStorage. cbn [chunkItems]. reflexivity.
  - destruct (savePass_endless fails fuel w Hrel Hcount)
      as (w1 & E1 & Hst1 & [Hd1 Hf1] & Hrel1).
    rewrite E1. cbn [fst].
    rewrite (saveCachedData_run fails fuel stack2 w1 Hrel1).
    assert (persistedCount (localStorage w1) = Endless) as Hcount1.
    { rewrite Hst1. exact Hcount. }
    destruct (savePass_endless fails fuel w1 Hrel1 Hcount1)
      as (w2 & E2 & Hst2 & [Hd2 Hf2] & _).
    rewrite E2. cbn [fst].
    split; [| split; congruence].
    rewrite Hst2, Hf1, Hst1. cbn [filesItem_ countItem chunkItems].
    rewrite deleteTurns_twice. reflexivity.
Qed.

Lemma persist_twice_is_persist_once_witness :
  let w := sampleWorld (sampleCache (js "a.csv") 3) in
  let w1 := fst (saveCachedData neverFails 0 0 w) in
  reliableSince neverFails (calls w)
  /\ localStorage (fst (saveCachedData neverFails 0 0 w1)) = localStorage w1.
Proof.
  intros w w1.
  assert (reliableSince neverFails (calls w)) as Hrel by (intros l c; reflexivity).
  split; [exact Hrel |].
  apply (persist_twice_is_persist_once neverFails 0 0 0 w Hrel).
Defined.

(** ** Ingestion *)

Lemma filter_isColumn_setProp k v (o : obj) :
  isColumn k = false ->
  List.filter isColumn (List.map fst (setProp k v o))
  = List.filter isColumn (List.map fst o).
Proof.
  intros Hk. induction o as [| [k' v'] o IH]; simpl.
  - rewrite Hk. reflexivity.
  - destruct (jstring_eqb k k'); simpl; [reflexivity |].
    rewrite IH. reflexivity.
Qed.

(** The record made of a row keeps the columns of the row. *)
Lemma made_record_columns row source content k :
  let o := setProp k_content (VStr content) (setProp k_source (VStr source) row) in
  List.filter isColumn (List.map fst o) = List.filter isColumn (List.map fst row)
  /\ (isColumn k = true -> getProp k o = getProp k row).
Proof.
  split.
  - rewrite !filter_isColumn_setProp by reflexivity. reflexivity.
  - intros Hk. unfold isColumn in Hk. apply andb_true_iff in Hk as [Hc Hs].
    apply negb_true_iff in Hc, Hs. unfold jstring_eqb in Hc, Hs.
    apply bool_decide_eq_false in Hc, Hs.
    rewrite !getProp_setProp_ne by assumption. reflexivity.
Qed.

Section IngestMore.

Variable fails : list call -> call -> bool.
Variable fuel maxArguments : nat.
Context {stringCase : StringCase}.

(** What an ingest throws, and where it comes from. *)
Lemma processFile_throws_inv stack file w w' e :
  processFile fails fuel stack file w = (w', Throws e) ->
  (w' = w
   /\ ((e = Error "Unsupported file format. Please upload CSV or Excel files."
        /\ toLowerCase (lastSegment (name file)) ∉ [js "csv"; js "xlsx"; js "xls"])
       \/ e = Error "Error processing Excel file"
       \/ e = Error "Error reading file"
       \/ e = Error "No data found in CSV file"
       \/ e = TypeError))
  \/ (e = TypeError
      /\ registered (name file) (userUploadedFiles w) = Throws TypeError
      /\ exists data,
           (processExcelFile file = Returns data
            \/ processCsvFile (inl file) None = Returns data)
           /\ w' = setCachedData
                     (List.filter (fun e => negb (sourceIs (name file) e)) (cachedData w)
                      ++ data) w).
Proof.
  unfold processFile. intros H.
  apply bind_inv in H as [(w1 & data & E1 & H) | (e1 & E1 & [= ->])].
  - assert (w1 = w /\ (processExcelFile file = Returns data
                       \/ processCsvFile (inl file) None = Returns data))
      as [-> Hparse].
    { destruct (_ || _); [injection E1 as <- E1; auto |].
      destruct (jstring_eqb _ (js "csv")); [| discriminate E1].
      injection E1 as <- E1. auto. }
    apply bind_inv in H as [(w2 & old & [= <- <-] & H) | (e1 & [=] & _)].
    apply bind_inv in H as [(w2 & kept & E2 & H) | (e1 & E2 & [= ->])].
    + injection E2 as <- E2. apply withoutSource_inv in E2. subst kept.
      apply bind_inv in H as [(w3 & [] & [= <-] & H) | (e1 & [=] & _)].
      apply bind_inv in H as [(w4 & [] & [= <-] & H) | (e1 & [=] & _)].
      apply bind_inv in H as [(w5 & files & [= <- <-] & H) | (e1 & [=] & _)].
      apply bind_inv in H as [(w6 & [] & E6 & H) | (e1 & E6 & [= ->])].
      * apply bind_inv in H as [(w7 & [] & E7 & [=]) | (e1 & E7 & _)].
        exfalso. exact (saveCachedData_no_throw fails fuel stack _ _ _ E7).
      * right. cbn [userUploadedFiles setCachedData cachedData] in E6.
        unfold registered.
        destruct (userUploadedFiles w) as [items | s | tag].
        -- destruct (bool_decide (IStr (name file) ∈ items)); discriminate E6.
        -- destruct (includes (name file) s); [discriminate E6 |].
           injection E6 as <- <-. split; [reflexivity |]. split; [reflexivity |].
           exists data. split; [exact Hparse | reflexivity].
        -- injection E6 as <- <-. split; [reflexivity |]. split; [reflexivity |].
           exists data. split; [exact Hparse | reflexivity].
    + injection E2 as <- E2. left. split; [reflexivity |].
      do 4 right.
      unfold withoutSource in E2. induction (cachedData w) as [| x l IH]; simpl in E2.
      * discriminate E2.
      * destruct x as [| o]; simpl in E2; [congruence |].
        destruct (filterM _ l) as [r | err]; [discriminate E2 |].
        apply IH. exact E2.
  - left. destruct (_ || _) eqn:Excel.
    + injection E1 as <- E1. split; [reflexivity |].
      unfold processExcelFile in E1.
      destruct (rows file) as [[| row rs] |]; try discriminate E1;
        injection E1 as <-; auto.
    + destruct (jstring_eqb _ (js "csv")) eqn:Csv.
      * injection E1 as <- E1. split; [reflexivity |].
        unfold processCsvFile in E1.
        destruct (rows file) as [[| row rs] |]; try discriminate E1;
          injection E1 as <-; auto.
      * injection E1 as <- <-. split; [reflexivity |]. left.
        split; [reflexivity |].
        apply orb_false_iff in Excel as [Xlsx Xls].
        unfold jstring_eqb in *.
        apply bool_decide_eq_false in Xlsx, Xls, Csv.
        intros Hin. repeat (apply elem_of_cons in Hin as [Hin | Hin]; [contradiction |]).
        inversion Hin.
Qed.

(** X8. An ingest that throws has written nothing: [localStorage] and the
    file list are as before and no call was made to the store.  When the
    file list is an array, as the module makes it, the cache is as before
    too, and what is thrown is the error of the unsupported format or of
    the parser, or the [TypeError] of a [null] entry in the cache.  The
    file list restored from the store can be another JSON value; the
    ingest then throws [TypeError] where it looks the name up, unless the
    list is a string that contains the name, and at that point the cache
    is already the new one: the records of that name replaced by the
    batch of the file. *)
Theorem processFile_throws_before_persisting stack file (w w' : World) e :
  processFile fails fuel stack file w = (w', Throws e) ->
  localStorage w' = localStorage w
  /\ calls w' = calls w
  /\ userUploadedFiles w' = userUploadedFiles w
  /\ ((w' = w
       /\ (e = Error "Unsupported file format. Please upload CSV or Excel files."
           \/ e = Error "Error processing Excel file"
           \/ e = Error "Error reading file"
           \/ e = Error "No data found in CSV file"
           \/ e = TypeError))
      \/ (e = TypeError
          /\ registered (name file) (userUploadedFiles w) = Throws TypeError
          /\ exists data,
               (processExcelFile file = Returns data
                \/ processCsvFile (inl file) None = Returns data)
               /\ cachedData w'
                  = List.filter (fun e => negb (sourceIs (name file) e)) (cachedData w)
                    ++ data))
  /\ ((exists items, userUploadedFiles w = FArr items) -> w' = w).
Proof.
  intros H.
  apply processFile_throws_inv in H
    as [[-> He] | (-> & Hreg & data & Hparse & ->)].
  - repeat (split; [reflexivity |]). split; [left; split; [reflexivity | tauto] |].
    intros _. reflexivity.
  - repeat (split; [reflexivity |]). split.
    + right. split; [reflexivity |]. split; [exact Hreg |].
      exists data. split; [exact Hparse | reflexivity].
    + intros [items Hitems]. rewrite Hitems in Hreg. discriminate Hreg.
Qed.

(** The file list an ingest leaves. *)
Lemma processFile_files stack file w w' data :
  processFile fails fuel stack file w = (w', Returns data) ->
  registered (name file) (userUploadedFiles w) = Returns (userUploadedFiles w').
Proof.
  intros H. apply processFile_inv in H as (_ & _ & [files Hreg] & Hsave).
  apply saveCachedData_keeps in Hsave as [Hfiles _].
  rewrite Hfiles. unfold ingested. cbn [userUploadedFiles].
  rewrite Hreg. reflexivity.
Qed.

(** X9. When an ingest returns, whatever the store did, the file list is
    the one it was with the name of the file registered.  When it is an
    array, as the module makes it, the name is in it, added at the end if
    it was not there and the array left as it was if it was: names keep
    their upload order and are not repeated.  It can be a string restored
    from the store: it then contains the name and is left as it was.  It
    is no other value, for which the ingest throws. *)
Theorem processFile_registers_name_once stack file (w w' : World) data :
  processFile fails fuel stack file w = (w', Returns data) ->
  registered (name file) (userUploadedFiles w) = Returns (userUploadedFiles w')
  /\ (forall items,
        userUploadedFiles w = FArr items ->
        let items' := if bool_decide (IStr (name file) ∈ items) then items
                      else items ++ [IStr (name file)] in
        userUploadedFiles w' = FArr items'
        /\ IStr (name file) ∈ items'
        /\ (NoDup items -> NoDup items'))
  /\ (forall s,
        userUploadedFiles w = FStr s ->
        includes (name file) s = true /\ userUploadedFiles w' = FStr s)
  /\ (forall tag, userUploadedFiles w <> FOther tag)
  /\ getLoadedFiles w' = (w', Returns (userUploadedFiles w')).
Proof.
  intros H. pose proof (processFile_files _ _ _ _ _ H) as Hreg.
  split; [exact Hreg |]. unfold registered in Hreg.
  split; [| split; [| split; [| reflexivity]]].
  - intros items Hitems items'. rewrite Hitems in Hreg. injection Hreg as Hreg.
    split; [symmetry; exact Hreg |]. subst items'.
    destruct (bool_decide_reflect (IStr (name file) ∈ items)) as [Hin | Hnot].
    + split; [exact Hin | auto].
    + split; [apply elem_of_app; right; apply list_elem_of_singleton; reflexivity |].
      intros Hnd. apply NoDup_app. split; [exact Hnd |].
      split; [| apply NoDup_singleton].
      intros x Hx Hx'. apply list_elem_of_singleton in Hx'. subst x. contradiction.
  - intros s Hs. rewrite Hs in Hreg.
    destruct (includes (name file) s); [| discriminate Hreg].
    injection Hreg as Hreg. auto.
  - intros tag Htag. rewrite Htag in Hreg. discriminate Hreg.
Qed.

(** The batch an ingest returns, row by row. *)
Lemma processFile_batch stack file w w' data :
  processFile fails fuel stack file w = (w', Returns data) ->
  exists parsed,
    rows file = Some parsed
    /\ parsed <> []
    /\ length data = length (List.filter hasValue parsed)
    /\ forall index row,
         List.filter hasValue parsed !! index = Some row ->
         exists o,
           data !! index = Some (ERecord o)
           /\ getProp k_source o = VStr (name file)
           /\ columnsOf (ERecord o) = List.filter isColumn (List.map fst row)
           /\ forall k, isColumn k = true -> getProp k o = getProp k row.
Proof.
  intros H. apply processFile_inv in H as (_ & [Hparse | Hparse] & _).
  - destruct (processExcelFile_inv _ _ Hparse) as (parsed & Hrows & Hdata).
    exists parsed. split; [exact Hrows |].
    split.
    { intros ->. unfold processExcelFile in Hparse. rewrite Hrows in Hparse.
      discriminate Hparse. }
    subst data. split; [apply length_map |].
    intros index row Hrow. eexists. split.
    + rewrite list_lookup_fmap, Hrow. reflexivity.
    + split; [apply made_record_props |].
      split; [apply (made_record_columns row _ _ []) |].
      intros k. apply made_record_columns.
  - destruct (processCsvFile_inv _ _ _ Hparse) as (parsed & Hrows & Hdata).
    exists parsed. split; [exact Hrows |].
    split.
    { intros ->. unfold processCsvFile in Hparse. rewrite Hrows in Hparse.
      discriminate Hparse. }
    subst data. split; [apply length_imap |].
    intros index row Hrow. eexists. split.
    + rewrite list_lookup_imap, Hrow. reflexivity.
    + split; [apply made_record_props |].
      split; [apply (made_record_columns row _ _ []) |].
      intros k. apply made_record_columns.
Qed.

(** X10. The batch an ingest returns has one record for each row of the
    file that holds a value, in the order of the rows.  The record has the
    file name as [source], whatever the row had under that name, and apart
    from [content] and [source] it has the columns of its row, in their
    order and with their values. *)
Theorem processFile_keeps_rows_and_columns stack file (w w' : World) data :
  processFile fails fuel stack file w = (w', Returns data) ->
  exists parsed,
    rows file = Some parsed
    /\ length data = length (List.filter hasValue parsed)
    /\ forall index row,
         List.filter hasValue parsed !! index = Some row ->
         exists o,
           data !! index = Some (ERecord o)
           /\ getProp k_source o = VStr (name file)
           /\ columnsOf (ERecord o) = List.filter isColumn (List.map fst row)
           /\ forall k, isColumn k = true -> getProp k o = getProp k row.
Proof.
  intros H. apply processFile_batch in H as (parsed & Hrows & _ & Hlen & Hrec).
  exists parsed. auto.
Qed.

(** X11. A file whose rows are all blank is not an error for
    [processFile]: the ingest returns an empty batch, registers the name,
    and, when no call throws, leaves the cache without any record of that
    name, so that the batch a former ingest of the name had put there is
    gone. *)
Theorem processFile_blank_file_drops_former_batch stack file (w w' : World) data parsed :
  processFile fails fuel stack file w = (w', Returns data) ->
  rows file = Some parsed ->
  Forall (fun row => hasValue row = false) parsed ->
  data = []
  /\ registered (name file) (userUploadedFiles w) = Returns (userUploadedFiles w')
  /\ (forall items, userUploadedFiles w' = FArr items -> IStr (name file) ∈ items)
  /\ (reliableSince fails (calls w) ->
      cachedData w'
      = List.filter (fun e => negb (sourceIs (name file) e)) (cachedData w)
      /\ List.filter (sourceIs (name file)) (cachedData w') = []).
Proof.
  intros H Hrows Hblank.
  assert (data = []) as ->.
  { destruct (processFile_batch _ _ _ _ _ H) as (parsed' & Hrows' & _ & Hlen & _).
    rewrite Hrows in Hrows'. injection Hrows' as <-.
    rewrite (filter_none hasValue parsed Hblank) in Hlen.
    destruct data; [reflexivity | discriminate Hlen]. }
  split; [reflexivity |].
  pose proof (processFile_files _ _ _ _ _ H) as Hreg.
  split; [exact Hreg |]. split.
  - intros items Hitems. rewrite Hitems in Hreg. unfold registered in Hreg.
    destruct (userUploadedFiles w) as [old | s | tag].
    + injection Hreg as <-.
      destruct (bool_decide_reflect (IStr (name file) ∈ old)) as [Hin | Hnot];
        [exact Hin |].
      apply elem_of_app; right; apply list_elem_of_singleton; reflexivity.
    + destruct (includes (name file) s); discriminate Hreg.
    + discriminate Hreg.
  - intros Hrel.
    destruct (processFile_cache fails fuel stack file w w' [] H Hrel) as [Hcache _].
    rewrite app_nil_r in Hcache. split; [exact Hcache |].
    rewrite Hcache. apply filter_none.
    eapply Forall_impl; [apply Forall_filter_true |].
    intros x Hx. simpl in Hx. apply negb_true_iff. exact Hx.
Qed.

End IngestMore.

Section AsciiIngest.

#[local] Existing Instance asciiCase.

(** The store holds [null] under the key of the file list: a restore
    makes it the file list, and an ingest then throws after it has put
    the batch in the cache. *)
Lemma processFile_throws_before_persisting_witness :
  let st := {| filesItem_ := Some (FilesJson (FOther 0));
               countItem := None;
               chunkItems := ∅ |} in
  let file := {| name := js "f.csv"; rows := Some [[(js "id", VStr (js "0"))]] |} in
  let w := fst (loadCachedData neverFails 0 1000 (freshProcess st [])) in
  let r := processFile neverFails 0 0 file w in
  r = (fst r, Throws TypeError)
  /\ userUploadedFiles w = FOther 0
  /\ cachedData w = []
  /\ cachedData (fst r) = [sampleRecordOf file 0]
  /\ localStorage (fst r) = localStorage w.
Proof.
  intros st file w r.
  assert (r = (fst r, Throws TypeError)) as E by (vm_compute; reflexivity).
  split; [exact E |]. split; [reflexivity |]. split; [reflexivity |].
  split; [vm_compute; reflexivity |].
  pose proof (processFile_throws_before_persisting neverFails 0 0 file w (fst r) TypeError)
    as Hthrow.
  exact (proj1 (Hthrow E)).
Defined.

Lemma processFile_registers_name_once_witness :
  let fails := fun (log : list call) (c : call) => true in
  let file := {| name := js "f.csv"; rows := Some [[(js "id", VStr (js "0"))]] |} in
  let w := sampleWorld [] in
  let r1 := processFile fails 0 2 file w in
  let r2 := processFile fails 0 2 file (fst r1) in
  r1 = (fst r1, Returns [sampleRecordOf file 0])
  /\ r2 = (fst r2, Returns [sampleRecordOf file 0])
  /\ userUploadedFiles (fst r1) = FArr [IStr (js "f.csv")]
  /\ userUploadedFiles (fst r2) = FArr [IStr (js "f.csv")].
Proof.
  intros fails file w r1 r2.
  assert (r1 = (fst r1, Returns [sampleRecordOf file 0])) as E1 by (vm_compute; reflexivity).
  assert (r2 = (fst r2, Returns [sampleRecordOf file 0])) as E2 by (vm_compute; reflexivity).
  split; [exact E1 |]. split; [exact E2 |].
  pose proof (processFile_registers_name_once fails 0 2 file w (fst r1)
                [sampleRecordOf file 0]) as Hfirst.
  destruct (Hfirst E1) as (_ & H1 & _).
  destruct (H1 [] eq_refl) as [H1' _].
  pose proof (processFile_registers_name_once fails 0 2 file (fst r1) (fst r2)
                [sampleRecordOf file 0]) as Hsecond.
  destruct (Hsecond E2) as (_ & H2 & _).
  destruct (H2 _ H1') as [H2' _].
  split; [exact H1' | exact H2'].
Defined.

Lemma processFile_keeps_rows_and_columns_witness :
  let row := [(js "drug", VStr (js "Aspirin")); (js "source", VStr (js "label"))] in
  let file := {| name := js "d.xlsx"; rows := Some [[(js "drug", VStr [])]; row] |} in
  let r := processFile neverFails 0 0 file (sampleWorld []) in
  exists o,
    r = (fst r, Returns [ERecord o])
    /\ getProp k_source o = VStr (js "d.xlsx")
    /\ getProp (js "drug") o = VStr (js "Aspirin")
    /\ columnsOf (ERecord o) = [js "drug"].
Proof.
  intros row file r.
  eexists.
  assert (r = (fst r, Returns [ERecord _])) as E by (vm_compute; reflexivity).
  split; [exact E |].
  pose proof (processFile_keeps_rows_and_columns neverFails 0 0 file) as Hkeeps.
  destruct (Hkeeps _ _ _ E) as (parsed & Hrows & _ & Hrec).
  injection Hrows as <-.
  destruct (Hrec 0 row eq_refl) as (o & [= <-] & Hs & Hc & Hk).
  split; [exact Hs |]. split; [apply (Hk (js "drug") eq_refl) | exact Hc].
Defined.

Lemma processFile_blank_file_drops_former_batch_witness :
  let blank := {| name := js "f.csv"; rows := Some [[(js "id", VStr [])]] |} in
  let w := sampleWorld (sampleCache (js "f.csv") 2 ++ sampleCache (js "g.csv") 1) in
  let r := processFile neverFails 0 0 blank w in
  r = (fst r, Returns [])
  /\ rows blank = Some [[(js "id", VStr [])]]
  /\ Forall (fun row => hasValue row = false) [[(js "id", VStr [])]]
  /\ reliableSince neverFails (calls w)
  /\ cachedData (fst r) = sampleCache (js "g.csv") 1.
Proof.
  intros blank w r.
  assert (r = (fst r, Returns [])) as E by (vm_compute; reflexivity).
  assert (Forall (fun row => hasValue row = false) [[(js "id", VStr [])]]) as Hblank
    by (repeat constructor).
  assert (reliableSince neverFails (calls w)) as Hrel by (intros l c; reflexivity).
  split; [exact E |]. split; [reflexivity |]. split; [exact Hblank |].
  split; [exact Hrel |].
  pose proof (processFile_blank_file_drops_former_batch neverFails 0 0 blank w (fst r) []
                [[(js "id", VStr [])]]) as Hdrop.
  destruct (Hdrop E eq_refl Hblank) as (_ & _ & _ & Hcache).
  destruct (Hcache Hrel) as [-> _]. reflexivity.
Defined.

End AsciiIngest.

(** ** The backend data set and [clearData] *)

Lemma withSource_inv s data kept :
  withSource s data = Returns kept -> kept = List.filter (sourceIs s) data.
Proof.
  unfold withSource. revert kept.
  induction data as [| e data IH]; intros kept; simpl.
  - intros [= <-]. reflexivity.
  - destruct e as [| o]; simpl; [discriminate |].
    destruct (filterM _ data) as [r | err]; [| discriminate].
    intros [= <-]. rewrite (IH r eq_refl). reflexivity.
Qed.

Lemma filterM_throws_TypeError s data e (test : value -> bool) :
  filterM
    (fun entry =>
       match readProp s entry with
       | Throws e => Throws e
       | Returns v => Returns (test v)
       end) data = Throws e ->
  e = TypeError.
Proof.
  induction data as [| x l IH]; simpl; [discriminate |].
  destruct x as [| o]; simpl; [congruence |].
  destruct (filterM _ l) as [r | err]; [discriminate |].
  intros [= <-]. apply IH. reflexivity.
Qed.

Section BackendAndClear.

Variable fails : list call -> call -> bool.
Variable fuel maxArguments : nat.
Context {stringCase : StringCase}.

Lemma loadBackendData_returns_inv stack fetched w w' n :
  loadBackendData fails fuel stack fetched w = (w', Returns n) ->
  exists data,
    processCsvFile (inr (js "ttd_drug_disease.csv")) fetched = Returns data
    /\ n = length data
    /\ (data = [] -> w' = w)
    /\ (data <> [] ->
        exists kept,
          withoutSource PharmAlchemy (cachedData w) = Returns kept
          /\ saveCachedData fails fuel stack (setCachedData (kept ++ data) w)
             = (w', Returns tt)).
Proof.
  unfold loadBackendData. intros H.
  apply bind_inv in H as [(w1 & data & [= <- E1] & H) | (e & _ & [=])].
  exists data. split; [exact E1 |].
  destruct data as [| d data]; simpl in H.
  - injection H as <- <-. split; [reflexivity |]. split; [auto | congruence].
  - apply bind_inv in H as [(w2 & old & [= <- <-] & H) | (e & [=] & _)].
    apply bind_inv in H as [(w2 & kept & [= <- E2] & H) | (e & _ & [=])].
    apply bind_inv in H as [(w3 & [] & [= <-] & H) | (e & [=] & _)].
    apply bind_inv in H as [(w4 & [] & E4 & [= <- <-]) | (e & _ & [=])].
    split; [reflexivity |]. split; [discriminate |].
    intros _. exists kept. split; [exact E2 | exact E4].
Qed.


(** X13. A call of [loadBackendData] that throws, or that finds no row
    with a value and returns 0, has changed nothing and has made no call
    to the store. *)
Theorem loadBackendData_without_rows_changes_nothing stack fetched (w w' : World) r :
  loadBackendData fails fuel stack fetched w = (w', r) ->
  (r = Returns 0 \/ exists e, r = Throws e) ->
  w' = w.
Proof.
  intros H Hr. destruct r as [[n | e] |].
  - destruct Hr as [[= ->] | [e [=]]].
    apply loadBackendData_returns_inv in H as (data & _ & Hn & Hempty & _).
    apply Hempty. destruct data; [reflexivity | discriminate Hn].
  - clear Hr. unfold loadBackendData in H.
    apply bind_inv in H as [(w1 & data & [= <- E1] & H) | (e1 & [= <- _] & _)];
      [| reflexivity].
    destruct data as [| d data]; simpl in H; [discriminate H |].
    apply bind_inv in H as [(w2 & old & [= <- <-] & H) | (e1 & [=] & _)].
    apply bind_inv in H as [(w2 & kept & [= <- E2] & H) | (e1 & [= <- _] & _)];
      [| reflexivity].
    apply bind_inv in H as [(w3 & [] & [= <-] & H) | (e1 & [=] & _)].
    apply bind_inv in H as [(w4 & [] & E4 & [=]) | (e1 & E4 & _)].
    exfalso. exact (saveCachedData_no_throw fails fuel stack _ _ _ E4).
  - destruct Hr as [[=] | [e [=]]].
Qed.

(** X14. When [clearData] returns, whatever the store did, it returns
    [true], the list of uploaded file names is empty and every entry of
    the cache has the backend identifier as [source]; the cache is the
    backend batch it held, in order, or a suffix of it, and the whole of
    it when no call throws.  When [clearData] throws, it is the
    [TypeError] of a [null] entry and nothing has changed. *)
Theorem clearData_keeps_only_backend stack (w w' : World) r :
  clearData fails fuel stack w = (w', r) ->
  (forall b, r = Returns b ->
     b = true
     /\ userUploadedFiles w' = FArr []
     /\ getLoadedFiles w' = (w', Returns (FArr []))
     /\ Forall (fun e => sourceIs PharmAlchemy e = true) (cachedData w')
     /\ cachedData w' `suffix_of` List.filter (sourceIs PharmAlchemy) (cachedData w)
     /\ (reliableSince fails (calls w) ->
         cachedData w' = List.filter (sourceIs PharmAlchemy) (cachedData w)))
  /\ (forall e, r = Throws e -> e = TypeError /\ w' = w).
Proof.
  unfold clearData. intros H.
  destruct r as [o |].
  2:{ split; intros ? [=]. }
  apply bind_inv in H as [(w1 & old & [= <- <-] & H) | (e & [=] & _)].
  apply bind_inv in H as [(w1 & kept & [= <- E1] & H) | (e & [= <- E1] & ->)].
  - apply withSource_inv in E1. subst kept.
    apply bind_inv in H as [(w2 & [] & [= <-] & H) | (e & [=] & _)].
    apply bind_inv in H as [(w3 & [] & [= <-] & H) | (e & [=] & _)].
    apply bind_inv in H as [(w4 & [] & E4 & [= <- <-]) | (e & E4 & _)].
    + split; [| discriminate]. intros b [= <-].
      pose proof (saveCachedData_keeps fails fuel stack _ _ _ E4) as [Hf _].
      pose proof (saveCachedData_cachePruned fails fuel stack _ _ _ E4) as Hsuf.
      unfold cachePruned in Hsuf. simpl in Hf, Hsuf.
      split; [reflexivity |]. split; [exact Hf |].
      split; [unfold getLoadedFiles, gets; rewrite Hf; reflexivity |].
      split.
      { destruct Hsuf as [front Hfront].
        pose proof (Forall_filter_true (sourceIs PharmAlchemy) (cachedData w)) as Hall.
        rewrite Hfront in Hall. apply Forall_app in Hall as [_ Hall]. exact Hall. }
      split; [exact Hsuf |].
      intros Hrel. rewrite saveCachedData_run in E4 by exact Hrel.
      apply savePass_sameMemory in E4 as [Hd _]. exact Hd.
    + exfalso. exact (saveCachedData_no_throw fails fuel stack _ _ _ E4).
  - split; [discriminate |]. intros e' [= <-].
    split; [| reflexivity].
    unfold withSource in E1. eapply filterM_throws_TypeError. exact E1.
Qed.

End BackendAndClear.


Lemma loadBackendData_without_rows_changes_nothing_witness :
  let w := sampleWorld (sampleCache PharmAlchemy 2) in
  let r := loadBackendData neverFails 0 0 (Some [[(js "drug", VStr [])]]) w in
  r = (fst r, Returns 0) /\ fst r = w.
Proof.
  intros w r.
  assert (r = (fst r, Returns 0)) as E by (vm_compute; reflexivity).
  split; [exact E |].
  pose proof (loadBackendData_without_rows_changes_nothing neverFails 0 0
                (Some [[(js "drug", VStr [])]]) w (fst r) (Returns 0)) as Hnothing.
  apply (Hnothing E). left. reflexivity.
Defined.

Lemma clearData_keeps_only_backend_witness :
  let w := {| localStorage := emptyStorage; calls := [];
              cachedData := sampleCache (js "a.csv") 2 ++ sampleCache PharmAlchemy 2;
              userUploadedFiles := FArr [IStr (js "a.csv")] |} in
  let r := clearData roomForTwo 0 0 w in
  r = (fst r, Returns true)
  /\ userUploadedFiles (fst r) = FArr []
  /\ Forall (fun e => sourceIs PharmAlchemy e = true) (cachedData (fst r)).
Proof.
  intros w r.
  assert (r = (fst r, Returns true)) as E by (vm_compute; reflexivity).
  split; [exact E |].
  pose proof (clearData_keeps_only_backend roomForTwo 0 0 w (fst r) (Returns true))
    as Hclear.
  destruct (Hclear E) as [H _].
  destruct (H true eq_refl) as (_ & Hf & _ & Hall & _).
  split; [exact Hf | exact Hall].
Defined.

(** ** Search terms *)

Lemma splitSpaces_tokens (Q : N -> Prop) inSeparator current s token :
  Forall Q current ->
  Forall (fun c => isWhiteSpace c = false -> Q c) s ->
  token ∈ splitSpaces inSeparator current s ->
  Forall Q token.
Proof.
  revert inSeparator current. induction s as [| c s IH]; intros b current Hcur Hs; simpl.
  - intros Hin. apply list_elem_of_singleton in Hin. subst token.
    apply Forall_rev. exact Hcur.
  - inversion Hs as [| c' s' Hc Hs']; subst.
    destruct (isWhiteSpace c) eqn:Ews.
    + destruct b.
      * apply IH; assumption.
      * intros Hin. apply elem_of_cons in Hin as [-> | Hin].
        -- apply Forall_rev. exact Hcur.
        -- eapply IH; [constructor | exact Hs' | exact Hin].
    + apply IH; [| exact Hs'].
      constructor; [apply Hc; reflexivity | exact Hcur].
Qed.

Lemma lowerUnit_not_upper c :
  (65 <=? lowerUnit c)%N && (lowerUnit c <=? 90)%N = false.
Proof.
  unfold lowerUnit.
  destruct ((65 <=? c)%N && (c <=? 90)%N) eqn:E.
  - apply andb_true_iff in E as [E1 E2]. apply N.leb_le in E1, E2.
    apply andb_false_iff. right. apply N.leb_gt. lia.
  - exact E.
Qed.

Section SearchTerms.

Context {stringCase : StringCase}.

Lemma prepared_units query :
  Forall (fun c => isWhiteSpace c = false -> isTermUnit c = true)
    (replacePunctuation (toLowerCase query)).
Proof.
  unfold replacePunctuation. apply Forall_forall.
  intros c Hc. apply list_elem_of_In, in_map_iff in Hc as (c0 & <- & Hc0).
  apply list_elem_of_In, toLowerCase_no_capital in Hc0.
  destruct (_ || _) eqn:Ep; [intros H; discriminate H |].
  intros Hws. unfold isTermUnit. rewrite Hws, Ep, Hc0. reflexivity.
Qed.

(** X15. Every search term [extractSearchTerms] gives has at least three
    code units, is not a stop word, is not made of digits only, and holds
    no white space, none of the characters [. , ? !] and no upper-case
    ASCII letter. *)
Theorem extractSearchTerms_terms query term :
  term ∈ extractSearchTerms query ->
  3 <= length term
  /\ (term ∉ stopWords)
  /\ allDigits term = false
  /\ Forall (fun c => isTermUnit c = true) term.
Proof.
  unfold extractSearchTerms. intros H.
  apply list_elem_of_In, filter_In in H as [Hin Hp].
  apply andb_true_iff in Hp as [Hp Hd]. apply andb_true_iff in Hp as [Hlen Hstop].
  apply Nat.ltb_lt in Hlen. apply negb_true_iff in Hstop, Hd.
  apply bool_decide_eq_false in Hstop.
  split; [lia |]. split; [exact Hstop |]. split; [exact Hd |].
  apply list_elem_of_In in Hin.
  eapply splitSpaces_tokens; [constructor | apply prepared_units | exact Hin].
Qed.

End SearchTerms.

Section AsciiTerms.

#[local] Existing Instance asciiCase.

Lemma extractSearchTerms_terms_witness :
  js "aspirin" ∈ extractSearchTerms (js "Show me ASPIRIN, 100 mg!")
  /\ 3 <= length (js "aspirin").
Proof.
  assert (js "aspirin" ∈ extractSearchTerms (js "Show me ASPIRIN, 100 mg!")) as Hin
    by (vm_compute; apply list_elem_of_here).
  split; [exact Hin |].
  apply (extractSearchTerms_terms _ _ Hin).
Defined.

End AsciiTerms.

(** ** Row commands and letter case *)

Lemma lowerUnit_idempotent c : lowerUnit (lowerUnit c) = lowerUnit c.
Proof.
  unfold lowerUnit at 1. rewrite lowerUnit_not_upper. reflexivity.
Qed.

Lemma lowerUnit_cases c :
  lowerUnit c = c \/ ((65 <= c <= 90)%N /\ lowerUnit c = (c + 32)%N).
Proof.
  unfold lowerUnit. destruct ((65 <=? c)%N && (c <=? 90)%N) eqn:E.
  - right. apply andb_true_iff in E as [E1 E2]. apply N.leb_le in E1, E2. auto.
  - left. reflexivity.
Qed.

Lemma isWhiteSpace_letter c : (65 <= c <= 122)%N -> isWhiteSpace c = false.
Proof.
  intros Hc. unfold isWhiteSpace.
  rewrite !(proj2 (N.eqb_neq c _)) by lia.
  rewrite (proj2 (N.leb_gt c 13)) by lia.
  rewrite (proj2 (N.leb_gt 8192 c)) by lia.
  rewrite andb_false_r. reflexivity.
Qed.

Lemma isDigit_letter c : (65 <= c <= 122)%N -> isDigit c = false.
Proof.
  intros Hc. unfold isDigit. rewrite (proj2 (N.leb_gt c 57)) by lia.
  apply andb_false_r.
Qed.

Lemma isWhiteSpace_lowerUnit c : isWhiteSpace (lowerUnit c) = isWhiteSpace c.
Proof.
  destruct (lowerUnit_cases c) as [-> | [Hc ->]]; [reflexivity |].
  rewrite !isWhiteSpace_letter by lia. reflexivity.
Qed.

Lemma isDigit_lowerUnit c : isDigit (lowerUnit c) = isDigit c.
Proof.
  destruct (lowerUnit_cases c) as [-> | [Hc ->]]; [reflexivity |].
  rewrite !isDigit_letter by lia. reflexivity.
Qed.

Lemma isDigit_lowerUnit_fixed c : isDigit c = true -> lowerUnit c = c.
Proof.
  intros Hd. destruct (lowerUnit_cases c) as [E | [Hc _]]; [exact E |].
  rewrite isDigit_letter in Hd by lia. discriminate Hd.
Qed.

Lemma takeWhile_isDigit_lowerASCII s :
  takeWhile isDigit (lowerASCII s) = takeWhile isDigit s.
Proof.
  induction s as [| c s IH]; simpl; [reflexivity |].
  rewrite isDigit_lowerUnit. destruct (isDigit c) eqn:E; [| reflexivity].
  rewrite (isDigit_lowerUnit_fixed c E). f_equal. exact IH.
Qed.

Lemma digitsCapture_lowerASCII s :
  digitsCapture (lowerASCII s) = digitsCapture s.
Proof. unfold digitsCapture. rewrite takeWhile_isDigit_lowerASCII. reflexivity. Qed.

Lemma matchWord_lowerASCII w s :
  matchWord w (lowerASCII s) = lowerASCII <$> matchWord w s.
Proof.
  revert s. induction w as [| a w IH]; intros s; simpl.
  - destruct s; reflexivity.
  - destruct s as [| b s]; simpl; [reflexivity |].
    rewrite lowerUnit_idempotent.
    destruct (lowerUnit a =? lowerUnit b)%N; [apply IH | reflexivity].
Qed.

Lemma matchAlt_lowerASCII words s k k' :
  (forall r, k (lowerASCII r) = k' r) ->
  matchAlt words (lowerASCII s) k = matchAlt words s k'.
Proof.
  intros Hk. induction words as [| w ws IH]; simpl; [reflexivity |].
  rewrite matchWord_lowerASCII.
  destruct (matchWord w s) as [rest |]; simpl; [| exact IH].
  rewrite Hk, IH. reflexivity.
Qed.

Lemma spacesThen_lowerASCII s k k' :
  (forall r, k (lowerASCII r) = k' r) ->
  spacesThen (lowerASCII s) k = spacesThen s k'.
Proof.
  intros Hk. induction s as [| c s IH]; simpl; [reflexivity |].
  rewrite isWhiteSpace_lowerUnit.
  destruct (isWhiteSpace c); [| reflexivity].
  fold (lowerASCII s). rewrite IH, Hk. reflexivity.
Qed.

Lemma rangeAt_lowerASCII words s :
  rangeAt words (lowerASCII s) = rangeAt words s.
Proof.
  unfold rangeAt. apply matchAlt_lowerASCII. intros r.
  apply spacesThen_lowerASCII. apply digitsCapture_lowerASCII.
Qed.

Lemma verbRangeAt_lowerASCII words s :
  verbRangeAt words (lowerASCII s) = verbRangeAt words s.
Proof.
  unfold verbRangeAt. apply matchAlt_lowerASCII. intros r.
  apply spacesThen_lowerASCII. apply rangeAt_lowerASCII.
Qed.

Lemma searchFrom_lowerASCII p s :
  (forall r, p (lowerASCII r) = p r) ->
  searchFrom p (lowerASCII s) = searchFrom p s.
Proof.
  intros Hp. induction s as [| c s IH]; simpl.
  - reflexivity.
  - fold (lowerASCII s). change (lowerUnit c :: lowerASCII s) with (lowerASCII (c :: s)).
    rewrite Hp, IH. reflexivity.
Qed.

Lemma extractRowsCommand_lowerASCII query :
  extractRowsCommand (lowerASCII query) = extractRowsCommand query.
Proof.
  unfold extractRowsCommand, patterns, firstMatch. cbn [regex type_].
  rewrite !searchFrom_lowerASCII by apply verbRangeAt_lowerASCII.
  rewrite !rangeAt_lowerASCII. reflexivity.
Qed.

(** X16. Row commands do not depend on letter case: two queries that
    differ only in the case of ASCII letters give the same command (or
    both none), so that ["SHOW Top 5"] is the command of ["show top 5"]. *)
Theorem extractRowsCommand_ignores_case query1 query2 :
  lowerASCII query1 = lowerASCII query2 ->
  extractRowsCommand query1 = extractRowsCommand query2.
Proof.
  intros H.
  rewrite <- (extractRowsCommand_lowerASCII query1), H.
  apply extractRowsCommand_lowerASCII.
Qed.

Lemma extractRowsCommand_ignores_case_witness :
  lowerASCII (js "SHOW Top 5") = lowerASCII (js "show top 5")
  /\ extractRowsCommand (js "SHOW Top 5") = Some (RowsTop, Some 5%Z).
Proof.
  assert (lowerASCII (js "SHOW Top 5") = lowerASCII (js "show top 5")) as H
    by reflexivity.
  split; [exact H |].
  rewrite (extractRowsCommand_ignores_case _ _ H). reflexivity.
Defined.

(** ** What every search result satisfies *)

Lemma Array_slice_length {A} start end_ (a : list A) :
  length (Array_slice start end_ a) <= length a.
Proof. unfold Array_slice. rewrite length_take, length_drop. lia. Qed.

Lemma filterM_length {A} (p : A -> outcome bool) xs r :
  filterM p xs = Returns r -> length r <= length xs.
Proof.
  revert r. induction xs as [| x xs IH]; intros r; simpl.
  - intros [= <-]. simpl. lia.
  - destruct (p x) as [b | e]; [| discriminate].
    destruct (filterM p xs) as [r' | e]; [| discriminate].
    intros [= <-]. specialize (IH r' eq_refl). destruct b; simpl; lia.
Qed.

Section ResultShape.

Context {stringCase : StringCase}.

Lemma searchLocalData_length terms data r :
  searchLocalData terms data = Returns r -> length r <= length data.
Proof.
  unfold searchLocalData. destruct terms.
  - intros [= <-]. simpl. lia.
  - apply filterM_length.
Qed.

Lemma rowsResult_shape t rows r :
  rowsResult t rows = Returns r ->
  totalRecords (searchDetails r) = length rows
  /\ foundInKnowledgeBase r = negb (bool_decide (rows = []))
  /\ conditions (searchDetails r) = []
  /\ requestedColumns (searchDetails r) = availableColumns (searchDetails r)
  /\ (rows = [] -> r = noDataResult).
Proof.
  unfold rowsResult. destruct rows as [| first rest].
  - intros [= <-]. repeat split; reflexivity.
  - destruct (headersOf first) as [headers | e]; [| discriminate].
    destruct (mapM _ _) as [srcs | e]; [| discriminate].
    intros [= <-]. repeat split; try reflexivity. discriminate.
Qed.

Lemma matchesResult_shape terms ms r :
  matchesResult terms ms = Returns r ->
  totalRecords (searchDetails r) = length ms
  /\ foundInKnowledgeBase r = negb (bool_decide (ms = []))
  /\ conditions (searchDetails r) = []
  /\ requestedColumns (searchDetails r) = availableColumns (searchDetails r)
  /\ searchTerms (searchDetails r) = terms.
Proof.
  unfold matchesResult. destruct ms as [| first rest].
  - intros [= <-]. repeat split; reflexivity.
  - destruct (headersOf first) as [headers | e]; [| discriminate].
    destruct (readProp k_content first) as [content | e]; [| discriminate].
    destruct (mapM _ _) as [srcs | e]; [| discriminate].
    intros [= <-]. repeat split; reflexivity.
Qed.

(** X17. Whatever the query and the cache, the result of
    [searchKnowledgeBase] has [foundInKnowledgeBase = true] exactly when
    its [totalRecords] is at least 1, a [totalRecords] that is at most the
    number of entries of the cache, no [conditions], and the same list as
    [requestedColumns] and as [availableColumns]. *)
Theorem searchKnowledgeBase_result_shape query (w w' : World) r :
  searchKnowledgeBase query w = (w', Returns r) ->
  (foundInKnowledgeBase r = true <-> 1 <= totalRecords (searchDetails r))
  /\ totalRecords (searchDetails r) <= length (cachedData w)
  /\ conditions (searchDetails r) = []
  /\ requestedColumns (searchDetails r) = availableColumns (searchDetails r).
Proof.
  assert (forall n (l : list DataEntry),
             n = length l ->
             negb (bool_decide (l = [])) = true <-> 1 <= n) as Hne.
  { intros n l ->. destruct l; simpl; split; intros H;
      try discriminate; try reflexivity; try lia. }
  unfold searchKnowledgeBase, tryCatch, searchPass, bind, gets, lift.
  destruct (extractRowsCommand query) as [[t count] |].
  - destruct (rowsResult t (selectRows t count (cachedData w))) as [r0 | e] eqn:E.
    + intros [= _ <-].
      apply rowsResult_shape in E as (Htot & Hfound & Hcond & Hcols & _).
      rewrite Hfound, Htot. split; [apply Hne; reflexivity |].
      split; [| auto].
      unfold selectRows. destruct t; apply Array_slice_length.
    + intros [= _ <-]. simpl. repeat split; try discriminate; try lia.
  - destruct (searchLocalData _ _) as [ms | e] eqn:Ems.
    + destruct (matchesResult _ ms) as [r0 | e] eqn:E.
      * intros [= _ <-].
        apply matchesResult_shape in E as (Htot & Hfound & Hcond & Hcols & _).
        rewrite Hfound, Htot. split; [apply Hne; reflexivity |].
        split; [| auto]. eapply searchLocalData_length. exact Ems.
      * intros [= _ <-]. simpl. repeat split; try discriminate; try lia.
    + intros [= _ <-]. simpl. repeat split; try discriminate; try lia.
Qed.

End ResultShape.

Section AsciiShape.

#[local] Existing Instance asciiCase.

Lemma searchKnowledgeBase_result_shape_witness :
  let w := sampleWorld (sampleCache (js "a.csv") 4) in
  exists r,
    searchKnowledgeBase (js "last 9") w = (w, Returns r)
    /\ totalRecords (searchDetails r) <= 4
    /\ foundInKnowledgeBase r = true.
Proof.
  intros w. eexists.
  assert (searchKnowledgeBase (js "last 9") w = (w, Returns _)) as E by reflexivity.
  split; [exact E |].
  destruct (searchKnowledgeBase_result_shape _ _ _ _ E) as (Hfound & Htot & _).
  split; [exact Htot |]. apply Hfound. vm_compute. lia.
Defined.

End AsciiShape.

Section RowCount.

Context {stringCase : StringCase}.

(** X18. A row command on an empty cache gives the "no data" result
    whatever its count, and a command whose count is the size of the cache
    or more takes the whole cache, from the top as from the bottom: the
    count is clamped to the cache, never an error. *)
Theorem row_command_count_is_clamped query t count (w : World) :
  extractRowsCommand query = Some (t, count) ->
  (cachedData w = [] -> searchKnowledgeBase query w = (w, Returns noDataResult))
  /\ (forall n : nat,
        count = Some (Z.of_nat n) ->
        length (cachedData w) <= n ->
        selectRows t count (cachedData w) = cachedData w
        /\ searchPass query w = (w, rowsResult t (cachedData w))).
Proof.
  intros E. split.
  - intros Hempty.
    eapply searchKnowledgeBase_command; [exact E |].
    assert (selectRows t count (cachedData w) = []) as ->; [| reflexivity].
    pose proof (Array_slice_length 0 (Some (toInteger count)) (cachedData w)) as H1.
    pose proof (Array_slice_length (- toInteger count) None (cachedData w)) as H2.
    rewrite Hempty in *. unfold selectRows.
    destruct t; [destruct (Array_slice _ _ _) | destruct (Array_slice _ _ _)];
      try reflexivity; simpl in *; lia.
  - intros n -> Hn.
    assert (selectRows t (Some (Z.of_nat n)) (cachedData w) = cachedData w) as Hsel.
    { rewrite selectRows_nat. destruct t.
      - apply take_ge. exact Hn.
      - destruct n; [reflexivity |].
        replace (length (cachedData w) - S n) with 0 by lia. reflexivity. }
    split; [exact Hsel |].
    rewrite (searchPass_command _ _ _ _ E), Hsel. reflexivity.
Qed.

End RowCount.

Section AsciiRowCount.

#[local] Existing Instance asciiCase.

Lemma row_command_count_is_clamped_witness :
  let w := sampleWorld (sampleCache (js "a.csv") 4) in
  extractRowsCommand (js "display first 007") = Some (RowsTop, Some (Z.of_nat 7))
  /\ length (cachedData w) <= 7
  /\ selectRows RowsTop (Some (Z.of_nat 7)) (cachedData w) = cachedData w.
Proof.
  intros w.
  assert (extractRowsCommand (js "display first 007") = Some (RowsTop, Some (Z.of_nat 7)))
    as E by reflexivity.
  assert (length (cachedData w) <= 7) as Hn by (vm_compute; lia).
  split; [exact E |]. split; [exact Hn |].
  destruct (row_command_count_is_clamped _ _ _ w E) as [_ H].
  apply (H 7 eq_refl Hn).
Defined.

End AsciiRowCount.

(** ** Free-text search, column by column *)

Lemma isPrefix_before_space t p rest :
  32%N ∉ t -> isPrefix t (p ++ 32%N :: rest) = isPrefix t p.
Proof.
  revert p. induction t as [| a t IH]; intros p Ht; [destruct p; reflexivity |].
  apply not_elem_of_cons in Ht as [Ha Ht].
  destruct p as [| b p]; simpl.
  - destruct (N.eqb_spec a 32); [congruence | reflexivity].
  - rewrite (IH p Ht). reflexivity.
Qed.

Lemma includes_across_space t p rest :
  32%N ∉ t -> t <> [] ->
  includes t (p ++ 32%N :: rest) = includes t p || includes t rest.
Proof.
  intros Ht Hne. induction p as [| b p IH].
  - destruct t as [| a t]; [congruence |].
    apply not_elem_of_cons in Ht as [Ha _].
    cbn [app includes isPrefix].
    destruct (N.eqb_spec a 32); [congruence | reflexivity].
  - cbn [app includes]. rewrite IH.
    change (b :: (p ++ 32%N :: rest)) with ((b :: p) ++ 32%N :: rest).
    rewrite (isPrefix_before_space t (b :: p) rest Ht).
    rewrite orb_assoc. reflexivity.
Qed.

Lemma includes_join t parts :
  32%N ∉ t -> t <> [] ->
  includes t (join (js " ") parts) = existsb (includes t) parts.
Proof.
  intros Ht Hne. induction parts as [| p parts IH].
  - destruct t; [congruence | reflexivity].
  - destruct parts as [| q parts].
    + cbn [join existsb]. rewrite orb_false_r. reflexivity.
    + change (join (js " ") (p :: q :: parts))
        with (p ++ 32%N :: join (js " ") (q :: parts)).
      rewrite (includes_across_space _ _ _ Ht Hne), IH. reflexivity.
Qed.

Lemma existsb_map_filter {A B} (f : A -> B) (keep : A -> bool) (test : B -> bool) xs :
  existsb test (List.map f (List.filter keep xs))
  = existsb (fun x => keep x && test (f x)) xs.
Proof.
  induction xs as [| x xs IH]; [reflexivity |].
  simpl. destruct (keep x); simpl; rewrite IH; reflexivity.
Qed.

Lemma filterM_returns {A} (p : A -> outcome bool) (q : A -> bool) xs :
  Forall (fun x => p x = Returns (q x)) xs ->
  filterM p xs = Returns (List.filter q xs).
Proof.
  induction 1 as [| x xs Hx _ IH]; [reflexivity |].
  simpl. rewrite Hx, IH. reflexivity.
Qed.

(** A piece of [s.replace(/[.,?!]/g, ' ').split(/\s+/)] is a part of [s]. *)
Lemma splitSpaces_part token s :
  forall inSeparator cur pre,
    (inSeparator = true -> cur = []) ->
    token ∈ splitSpaces inSeparator (rev cur) (replacePunctuation s) ->
    exists before after, pre ++ cur ++ s = before ++ token ++ after.
Proof.
  induction s as [| c s IH]; intros b cur pre Hb; cbn [replacePunctuation List.map splitSpaces].
  - rewrite rev_involutive. intros Hin. apply list_elem_of_singleton in Hin. subst token.
    exists pre, []. reflexivity.
  - fold (replacePunctuation s).
    set (c' := if (c =? 46)%N || (c =? 44)%N || (c =? 63)%N || (c =? 33)%N
               then 32%N else c).
    destruct (isWhiteSpace c') eqn:Ews.
    + assert (token ∈ splitSpaces true (rev []) (replacePunctuation s) ->
              exists before after, pre ++ cur ++ c :: s = before ++ token ++ after)
        as Hnext.
      { intros Hin.
        destruct (IH true [] (pre ++ cur ++ [c]) (fun _ => eq_refl) Hin)
          as (before & after & E).
        exists before, after. rewrite <- E, <- !app_assoc. reflexivity. }
      destruct b.
      * specialize (Hb eq_refl). subst cur. exact Hnext.
      * intros Hin. apply elem_of_cons in Hin as [-> | Hin]; [| exact (Hnext Hin)].
        rewrite rev_involutive. exists pre, (c :: s). reflexivity.
    + assert (c' = c) as ->.
      { subst c'. destruct (_ || _); [discriminate Ews | reflexivity]. }
      intros Hin. rewrite <- (rev_unit cur c) in Hin.
      destruct (IH false (cur ++ [c]) pre ltac:(discriminate) Hin)
        as (before & after & E).
      exists before, after. rewrite <- E, <- !app_assoc. reflexivity.
Qed.

Section ColumnByColumn.

Context {stringCase : StringCase}.

(** A search term is a part of the lower-cased query, which lower-casing
    leaves as it is. *)
Lemma extractSearchTerms_lower query term :
  term ∈ extractSearchTerms query -> toLowerCase term = term.
Proof.
  unfold extractSearchTerms. intros H.
  apply list_elem_of_In, filter_In in H as [Hin _].
  apply list_elem_of_In in Hin.
  destruct (splitSpaces_part term (toLowerCase query) false [] [] ltac:(discriminate) Hin)
    as (before & after & E).
  exact (toLowerCase_part query before term after E).
Qed.

Lemma termUnits_no_space term :
  Forall (fun c => isTermUnit c = true) term -> 32%N ∉ term.
Proof.
  intros H Hin. rewrite Forall_forall in H. specialize (H _ Hin).
  vm_compute in H. discriminate H.
Qed.

Lemma extractSearchTerms_units query term :
  term ∈ extractSearchTerms query ->
  term <> [] /\ Forall (fun c => isTermUnit c = true) term.
Proof.
  unfold extractSearchTerms. intros H.
  apply list_elem_of_In, filter_In in H as [Hin Hp].
  apply andb_true_iff in Hp as [Hp _]. apply andb_true_iff in Hp as [Hlen _].
  apply Nat.ltb_lt in Hlen. split; [intros ->; simpl in Hlen; lia |].
  apply list_elem_of_In in Hin.
  eapply splitSpaces_tokens; [constructor | apply prepared_units | exact Hin].
Qed.

Lemma existsb_ext_in {A} (f g : A -> bool) xs :
  (forall x, x ∈ xs -> f x = g x) -> existsb f xs = existsb g xs.
Proof.
  induction xs as [| x xs IH]; intros H; [reflexivity |].
  simpl. rewrite (H x) by apply list_elem_of_here.
  rewrite IH; [reflexivity |]. intros y Hy. apply H. apply list_elem_of_further, Hy.
Qed.

(** X19. The free-text search looks at the columns one at a time: when
    the query gives at least one search term and no entry of the cache is
    [null], [searchLocalData] keeps, in order, exactly the entries of
    which one column other than [content] and [source] has a term of the
    query inside its lower-cased text.  A term never matches across two
    columns, and [content] and [source] are not searched. *)
Theorem searchLocalData_column_by_column query data :
  extractSearchTerms query <> [] ->
  Forall (fun e => e <> ENull) data ->
  searchLocalData (extractSearchTerms query) data
  = Returns
      (List.filter
         (fun e => existsb (fun term => termInColumn term e) (extractSearchTerms query))
         data).
Proof.
  intros Hterms Hdata. unfold searchLocalData.
  destruct (extractSearchTerms query) as [| t0 terms] eqn:E; [congruence |].
  rewrite <- E. apply filterM_returns.
  eapply Forall_impl; [exact Hdata |].
  intros [| o] He; [congruence |]. cbn [Object_entries]. f_equal.
  apply existsb_ext_in. intros term Hterm.
  rewrite (extractSearchTerms_lower query term Hterm).
  apply extractSearchTerms_units in Hterm as [Hne Hunits].
  rewrite (includes_join _ _ (termUnits_no_space _ Hunits) Hne).
  unfold termInColumn.
  exact (existsb_map_filter (fun kv => toLowerCase (String_ (snd kv)))
           (fun kv => isColumn (fst kv)) (includes term) o).
Qed.

End ColumnByColumn.

Section AsciiColumns.

#[local] Existing Instance asciiCase.

Lemma searchLocalData_column_by_column_witness :
  let listed := ERecord [(js "drug", VStr (js "Aspirin 100")); (k_source, VStr (js "a.csv"));
                         (k_content, VStr (js "drug: Aspirin 100"))] in
  let other := ERecord [(js "drug", VStr (js "asp")); (js "dose", VStr (js "irin"));
                        (k_source, VStr (js "aspirin.csv"));
                        (k_content, VStr (js "see aspirin"))] in
  extractSearchTerms (js "Find ASPIRIN!") = [js "aspirin"]
  /\ searchLocalData (extractSearchTerms (js "Find ASPIRIN!")) [other; listed]
     = Returns [listed].
Proof.
  intros listed other. split; [reflexivity |].
  rewrite (searchLocalData_column_by_column (js "Find ASPIRIN!") [other; listed]).
  - reflexivity.
  - vm_compute. discriminate.
  - repeat constructor; discriminate.
Defined.

End AsciiColumns.

(** ** The upload handler *)

Section Upload.

Variable fails : list call -> call -> bool.
Variable fuel maxArguments : nat.
Context {stringCase : StringCase}.

Lemma withoutSource_returns s data :
  Forall (fun e => e <> ENull) data ->
  withoutSource s data
  = Returns (List.filter (fun e => negb (sourceIs s e)) data).
Proof.
  intros H. unfold withoutSource. apply filterM_returns.
  eapply Forall_impl; [exact H |].
  intros [| o] He; [congruence |]. cbn [readProp sourceIs].
  rewrite negb_involutive. reflexivity.
Qed.

(** An ingest that is still running is in the removal loop of its
    persist, on a chunk count above [2^53]. *)
Lemma processFile_running stack file w w' :
  processFile fails fuel stack file w = (w', Running) ->
  persistedCount (localStorage w) = Endless.
Proof.
  unfold processFile. intros H.
  apply bind_cases in H as [(w1 & data & E1 & H) | [(e & _ & [=]) | (E1 & _)]].
  2:{ destruct (_ || _); [discriminate E1 |].
      destruct (jstring_eqb _ (js "csv")); discriminate E1. }
  assert (w1 = w) as ->.
  { destruct (_ || _); [injection E1 as <- _; reflexivity |].
    destruct (jstring_eqb _ (js "csv")); [| discriminate E1].
    injection E1 as <- _. reflexivity. }
  apply bind_cases in H as [(w2 & old & [= <- <-] & H) | [(e & _ & [=]) | ([=] & _)]].
  apply bind_cases in H as [(w2 & kept & [= <- E2] & H) | [(e & _ & [=]) | ([=] & _)]].
  apply bind_cases in H as [(w3 & [] & [= <-] & H) | [(e & _ & [=]) | ([=] & _)]].
  apply bind_cases in H as [(w4 & [] & [= <-] & H) | [(e & _ & [=]) | ([=] & _)]].
  apply bind_cases in H as [(w5 & files & [= <- <-] & H) | [(e & _ & [=]) | ([=] & _)]].
  cbn [userUploadedFiles setCachedData cachedData] in H.
  apply bind_cases in H as [(w6 & [] & E6 & H) | [(e & _ & [=]) | (E6 & _)]].
  - assert (localStorage w6 = localStorage w) as Hst.
    { destruct (userUploadedFiles w) as [items | s | tag].
      - destruct (bool_decide (IStr (name file) ∈ items)); injection E6 as <-; reflexivity.
      - destruct (includes (name file) s); [| discriminate E6].
        injection E6 as <-. reflexivity.
      - discriminate E6. }
    apply bind_cases in H as [(w7 & [] & _ & [=]) | [(e & _ & [=]) | (E7 & _)]].
    rewrite <- Hst. exact (saveCachedData_running fails fuel stack _ _ E7).
  - destruct (userUploadedFiles w) as [items | s | tag].
    + destruct (bool_decide (IStr (name file) ∈ items)); discriminate E6.
    + destruct (includes (name file) s); discriminate E6.
    + discriminate E6.
Qed.

(** An ingest returns when the extension is one the upload handler lets
    through, the file was read with at least one row, the cache holds no
    [null], the file list takes the name and the chunk count in the store
    lets the persist end. *)
Lemma processFile_returns stack file w parsed files :
  toLowerCase (lastSegment (name file)) ∈ [js "csv"; js "xlsx"; js "xls"] ->
  rows file = Some parsed ->
  parsed <> [] ->
  Forall (fun e => e <> ENull) (cachedData w) ->
  registered (name file) (userUploadedFiles w) = Returns files ->
  persistedCount (localStorage w) <> Endless ->
  exists w' data, processFile fails fuel stack file w = (w', Returns data).
Proof.
  intros Hext Hrows Hne Hcache Hreg Hcount. unfold processFile.
  assert (exists data,
             (if jstring_eqb (toLowerCase (lastSegment (name file))) (js "xlsx")
                 || jstring_eqb (toLowerCase (lastSegment (name file))) (js "xls")
              then lift (processExcelFile file)
              else if jstring_eqb (toLowerCase (lastSegment (name file))) (js "csv")
                   then lift (processCsvFile (inl file) None)
                   else throw (Error "Unsupported file format. Please upload CSV or Excel files."))
               w = (w, Ended (Returns data))) as [data Hdata].
  { unfold processExcelFile, processCsvFile, lift. rewrite Hrows.
    destruct parsed as [| row parsed]; [congruence |].
    destruct (_ || _) eqn:Excel; [eexists; reflexivity |].
    assert (jstring_eqb (toLowerCase (lastSegment (name file))) (js "csv") = true) as ->.
    { apply orb_false_iff in Excel as [Xlsx Xls]. unfold jstring_eqb in *.
      apply bool_decide_eq_false in Xlsx, Xls. apply bool_decide_eq_true.
      repeat (apply elem_of_cons in Hext as [Hext | Hext]); try contradiction;
        [exact Hext | inversion Hext]. }
    eexists. reflexivity. }
  rewrite (bind_run _ _ _ _ _ Hdata).
  unfold gets at 1. unfold bind at 1.
  unfold lift at 1. rewrite (withoutSource_returns _ _ Hcache). unfold bind at 1.
  unfold modify at 1. unfold bind at 1.
  unfold modify at 1. unfold bind at 1.
  unfold gets at 1. unfold bind at 1.
  cbn [userUploadedFiles setCachedData cachedData].
  match goal with
  | |- exists w' d, bind ?m ?k ?w0 = _ =>
      assert (exists w1, m w0 = (w1, Ended (Returns tt))
                         /\ localStorage w1 = localStorage w) as (w1 & E1 & Hst);
      [| rewrite (bind_run m k w0 w1 tt E1)]
  end.
  { unfold registered in Hreg. destruct (userUploadedFiles w) as [items | s | tag].
    - destruct (bool_decide (IStr (name file) ∈ items)); eexists; split; reflexivity.
    - destruct (includes (name file) s); [| discriminate Hreg].
      eexists; split; reflexivity.
    - discriminate Hreg. }
  destruct (saveCachedData_ends fails fuel stack w1) as [w2 E2];
    [rewrite Hst; exact Hcount |].
  rewrite (bind_run _ _ _ _ _ E2). eexists. eexists. reflexivity.
Qed.

(** The name a file list has taken is in it when it is an array. *)
Lemma registered_array name files files' items :
  registered name files = Returns files' ->
  files' = FArr items ->
  IStr name ∈ items.
Proof.
  unfold registered. intros Hreg ->. destruct files as [old | s | tag].
  - injection Hreg as <-.
    destruct (bool_decide_reflect (IStr name ∈ old)) as [Hin | Hnot]; [exact Hin |].
    apply elem_of_app; right; apply list_elem_of_singleton; reflexivity.
  - destruct (includes name s); discriminate Hreg.
  - discriminate Hreg.
Qed.

(** X20. The upload handler of the [FileUpload] component never throws,
    and it reports unless the chunk count in the store is a number above
    [2^53], the one case in which the persist of the ingest may not end.
    A file it refuses leaves the module and the store as they were; the
    "Unsupported file format" error of [processFile] is never what it
    reports, its own test of the extension coming first; and a file it
    reports as complete gave at least one record and has its name
    registered in the file list (in it, when the list is an array), the
    text of the report counting the records of the batch. *)
Theorem handleFileProcess_reports stack file (w : World) :
  exists w' r,
    handleFileProcess fails fuel stack file w = (w', r)
    /\ ((exists report, r = Returns report)
        \/ (r = Running /\ persistedCount (localStorage w) = Endless))
    /\ (r = Returns Refused -> w' = w)
    /\ r <> Returns (Failed (Error "Unsupported file format. Please upload CSV or Excel files."))
    /\ (forall text,
          r = Returns (Completed text) ->
          registered (name file) (userUploadedFiles w) = Returns (userUploadedFiles w')
          /\ (forall items, userUploadedFiles w' = FArr items -> IStr (name file) ∈ items)
          /\ exists data,
               processFile fails fuel stack file w = (w', Returns data)
               /\ data <> []
               /\ text = name file ++ js " (" ++ toString (length data) ++ js " records)").
Proof.
  unfold handleFileProcess.
  destruct (bool_decide_reflect
              (toLowerCase (lastSegment (name file)) ∈ [js "csv"; js "xlsx"; js "xls"]))
    as [Hext | Hext]; cbn [negb].
  - unfold tryCatch, bind.
    destruct (processFile fails fuel stack file w) as [w1 [[data | e] |]] eqn:E.
    + destruct data as [| d data]; cbn [length Nat.eqb].
      * eexists. eexists. split; [reflexivity |].
        split; [left; eexists; reflexivity |].
        split; [discriminate |]. split; [discriminate |]. discriminate.
      * eexists. eexists. split; [reflexivity |].
        split; [left; eexists; reflexivity |].
        split; [discriminate |]. split; [discriminate |].
        intros text [= <-].
        pose proof (processFile_files _ _ _ _ _ _ _ E) as Hreg.
        split; [exact Hreg |].
        split; [intros items; exact (registered_array _ _ _ _ Hreg) |].
        eexists. split; [reflexivity |]. split; [discriminate | reflexivity].
    + eexists. eexists. split; [reflexivity |].
      split; [left; eexists; reflexivity |].
      split; [discriminate |]. split; [| discriminate].
      intros [= ->].
      apply processFile_throws_inv in E
        as [[_ [[_ Hnot] | [H | [H | [H | H]]]]] | (H & _)];
        [contradiction | discriminate H ..].
    + eexists. eexists. split; [reflexivity |].
      split; [right; split; [reflexivity | exact (processFile_running _ _ _ _ E)] |].
      split; [discriminate |]. split; discriminate.
  - eexists. eexists. split; [reflexivity |].
    split; [left; eexists; reflexivity |].
    split; [reflexivity |]. split; discriminate.
Qed.

(** X21. A report of failure does not mean that nothing changed: for a
    file with a supported extension of which every row is blank, in a
    state whose file list takes the name (an array, or a string that
    contains the name) and whose store holds a chunk count that lets the
    persist end, the handler reports "No valid data found in file", yet
    the name of the file is registered in the file list and, when no call
    of the store throws, the records a former upload of that name had left
    in the cache are gone. *)
Theorem handleFileProcess_blank_file stack file (w : World) parsed files :
  toLowerCase (lastSegment (name file)) ∈ [js "csv"; js "xlsx"; js "xls"] ->
  rows file = Some parsed ->
  parsed <> [] ->
  Forall (fun row => hasValue row = false) parsed ->
  Forall (fun e => e <> ENull) (cachedData w) ->
  registered (name file) (userUploadedFiles w) = Returns files ->
  persistedCount (localStorage w) <> Endless ->
  exists w',
    handleFileProcess fails fuel stack file w
    = (w', Returns (Failed (Error "No valid data found in file")))
    /\ userUploadedFiles w' = files
    /\ (forall items, files = FArr items -> IStr (name file) ∈ items)
    /\ (reliableSince fails (calls w) ->
        cachedData w'
        = List.filter (fun e => negb (sourceIs (name file) e)) (cachedData w)).
Proof.
  intros Hext Hrows Hne Hblank Hcache Hreg Hcount.
  destruct (processFile_returns stack file w parsed files Hext Hrows Hne Hcache Hreg Hcount)
    as (w' & data & E).
  assert (data = []) as ->.
  { destruct (processFile_batch _ _ _ _ _ _ _ E) as (parsed' & Hrows' & _ & Hlen & _).
    rewrite Hrows in Hrows'. injection Hrows' as <-.
    rewrite (filter_none hasValue parsed Hblank) in Hlen.
    destruct data; [reflexivity | discriminate Hlen]. }
  exists w'. split.
  - unfold handleFileProcess. rewrite (bool_decide_eq_true_2 _ Hext). cbn [negb].
    unfold tryCatch, bind. rewrite E. reflexivity.
  - pose proof (processFile_files _ _ _ _ _ _ _ E) as Hreg'.
    rewrite Hreg in Hreg'. injection Hreg' as Hfiles.
    split; [symmetry; exact Hfiles |].
    split; [intros items; exact (registered_array _ _ _ _ Hreg) |].
    intros Hrel.
    destruct (processFile_cache fails fuel stack file w w' [] E Hrel) as [Hc _].
    rewrite app_nil_r in Hc. exact Hc.
Qed.

End Upload.

Section AsciiUpload.

#[local] Existing Instance asciiCase.

Lemma handleFileProcess_blank_file_witness :
  let blank := {| name := js "Report.CSV"; rows := Some [[(js "id", VStr [])]] |} in
  let w := sampleWorld (sampleCache (js "Report.CSV") 2 ++ sampleCache (js "g.csv") 1) in
  exists w',
    handleFileProcess neverFails 0 0 blank w
    = (w', Returns (Failed (Error "No valid data found in file")))
    /\ userUploadedFiles w' = FArr [IStr (js "Report.CSV")]
    /\ cachedData w' = sampleCache (js "g.csv") 1.
Proof.
  intros blank w.
  assert (Forall (fun e => e <> ENull) (cachedData w)) as Hcache
    by (repeat constructor; discriminate).
  assert (toLowerCase (lastSegment (name blank)) ∈ [js "csv"; js "xlsx"; js "xls"]) as Hext
    by (vm_compute; apply list_elem_of_here).
  assert (Forall (fun row => hasValue row = false) [[(js "id", VStr [])]]) as Hblank
    by (repeat constructor).
  assert ([[(js "id", VStr [])]] <> []) as Hne by discriminate.
  assert (reliableSince neverFails (calls w)) as Hrel by (intros l c; reflexivity).
  assert (registered (name blank) (userUploadedFiles w)
          = Returns (FArr [IStr (js "Report.CSV")])) as Hreg by reflexivity.
  assert (persistedCount (localStorage w) <> Endless) as Hcount by discriminate.
  destruct (handleFileProcess_blank_file neverFails 0 0 blank w _ _
              Hext eq_refl Hne Hblank Hcache Hreg Hcount)
    as (w' & E & Hfiles & _ & Hc).
  exists w'. split; [exact E |]. split; [exact Hfiles |].
  rewrite (Hc Hrel). reflexivity.
Defined.

Lemma handleFileProcess_reports_witness :
  let file := {| name := js "notes.txt"; rows := Some [[(js "id", VStr (js "1"))]] |} in
  let w := sampleWorld (sampleCache (js "a.csv") 2) in
  exists w' r,
    handleFileProcess neverFails 0 0 file w = (w', r)
    /\ (r = Returns Refused -> w' = w).
Proof.
  intros file w.
  destruct (handleFileProcess_reports neverFails 0 0 file w) as (w' & r & E & _ & Href & _).
  exists w', r. split; [exact E | exact Href].
Defined.

End AsciiUpload.
